(** * Boolean operations on polygons: [src/algorithms/boolean_op.js]

    A shallow embedding of the Boolean-operation engine of flatten-js and the
    properties of its stages: collecting the crossings of two polygons,
    sorting them along each face, splitting the edges, filtering duplicated
    crossings, removing the chains that do not belong to the result and
    restitching the faces.

    The engine talks to two collaborators that live outside this file of the
    repository: the geometric primitives (points, shapes, the tolerant
    comparisons of [Utils]) and the polygon container (faces, edges, the
    spatial index).  Both are interfaces here, [PrimitiveOracle] and
    [PolygonStore]; the engine is written once over any implementation of
    them, and small concrete implementations are used to run it. *)

From stdpp Require Import prelude gmap sorting.
From Stdlib Require Import ZArith Lia.

Set Warnings "-clear-no-such-hyp".

Set Default Proof Using "Type*".

(** ** Object identities

    Edges, faces, polygons and crossing records are JavaScript objects, compared
    by identity ([===]).  Each is a handle here. *)

Abbreviation Edge := nat (only parsing).
Abbreviation Face := nat (only parsing).
Abbreviation Poly := nat (only parsing).
Abbreviation ipref := nat (only parsing).

(** Boundary value of an edge relative to the other polygon
    ([Flatten.INSIDE], [Flatten.OUTSIDE], [Flatten.BOUNDARY]); a field that
    holds [undefined] is [None]. *)
Inductive Inclusion := INSIDE | OUTSIDE | BOUNDARY.

#[global] Instance Inclusion_eq_dec : EqDecision Inclusion.
Proof. solve_decision. Defined.

Definition NOT_VERTEX : Z := 0.
Definition START_VERTEX : Z := 1.
Definition END_VERTEX : Z := 2.

Definition BOOLEAN_UNION : Z := 1.
Definition BOOLEAN_INTERSECT : Z := 2.
Definition BOOLEAN_SUBTRACT : Z := 3.

(** ** The primitive oracle

    Numbers are the lengths and arc lengths of the program (JavaScript
    doubles); the engine only adds them, compares them with the literal [0]
    and hands them to [Utils.EQ], [Utils.LT] and [Utils.GT]. *)
Class PrimitiveOracle := {
  num : Type;
  Point : Type;
  Shape : Type;
  Box : Type;
  num_zero : num;                       (* the literal 0 *)
  num_add : num → num → num;            (* a + b *)
  num_is_zero : num → bool;             (* a === 0 *)
  EQ : num → num → bool;                (* Utils.EQ *)
  LT : num → num → bool;                (* Utils.LT *)
  GT : num → num → bool;                (* Utils.GT *)
  equalTo : Point → Point → bool;       (* pt.equalTo(other) *)
  shape_split : Shape → Point → list (option Shape);  (* null is None *)
  shape_intersect : Shape → Shape → list Point;
  shape_length : Shape → num;
  shape_start : Shape → Point;
  shape_end : Shape → Point
}.

(** ** The polygon store

    [St] is the state of every polygon, face and edge object of the program.
    Fields of an edge that the engine reads or assigns are a getter and a
    setter; methods take the state and return the new one. *)
Class PolygonStore `{PrimitiveOracle} := {
  St : Type;
  (* fields of an edge *)
  e_shape : St → Edge → Shape;
  e_box : St → Edge → Box;
  e_next : St → Edge → option Edge;
  e_prev : St → Edge → option Edge;
  e_face : St → Edge → option Face;
  e_arc_length : St → Edge → num;
  e_bv : St → Edge → option Inclusion;
  e_bvStart : St → Edge → option Inclusion;
  e_bvEnd : St → Edge → option Inclusion;
  e_overlap : St → Edge → option Z;
  set_next : St → Edge → option Edge → St;
  set_prev : St → Edge → option Edge → St;
  set_face : St → Edge → option Face → St;
  set_bv : St → Edge → option Inclusion → St;
  set_bvStart : St → Edge → option Inclusion → St;
  set_bvEnd : St → Edge → option Inclusion → St;
  set_overlap : St → Edge → option Z → St;
  setInclusion : St → Edge → Poly → St;
  setOverlap : St → Edge → Edge → St;
  (* a face *)
  face_first : St → Face → option Edge;
  face_last : St → Face → option Edge;
  face_isEmpty : St → Face → bool;
  face_edges : St → Face → list Edge;
  (* a polygon *)
  clone : St → Poly → St * Poly;
  reverse : St → Poly → St * Poly;
  poly_edges : St → Poly → list Edge;
  poly_faces : St → Poly → list Face;
  edges_search : St → Poly → Box → list Edge;
  edges_add : St → Poly → Edge → St;
  faces_delete : St → Poly → option Face → St;
  addVertex : St → Poly → Point → Edge → St * Edge;
  addFace : St → Poly → option Edge → option Edge → St * Face;
  removeChain : St → Poly → Face → Edge → Edge → St;
  deleteFace : St → Poly → Face → St;
  (* flags of [Flatten] tested with [&] *)
  OVERLAP_SAME : Z;
  OVERLAP_OPPOSITE : Z
}.

(** Modelled from the spec: the contract of the polygon store that the
    splitter relies on, whose code ([Polygon.addVertex], the linked list of a
    face) is not part of this file.  The edges of a face form a closed ring in
    which every edge starts where the one before it ends (section 3), and
    [addVertex(pt, edge)] for a point strictly inside [edge] returns a new
    edge that ends at [pt] and leaves the end of every other edge where it
    was (section 4.3). *)
Class RingStore `{PolygonStore} := {
  live : St → Edge → Prop;
  live_next : ∀ st e, live st e →
    ∃ n, e_next st e = Some n ∧ live st n ∧
         shape_start (e_shape st n) = shape_end (e_shape st e);
  live_prev : ∀ st e, live st e →
    ∃ p, e_prev st e = Some p ∧ live st p ∧
         shape_end (e_shape st p) = shape_start (e_shape st e);
  addVertex_ends : ∀ st poly p e, live st e →
    equalTo (shape_start (e_shape st e)) p = false →
    equalTo (shape_end (e_shape st e)) p = false →
    live (addVertex st poly p e).1 (addVertex st poly p e).2 ∧
    equalTo (shape_end (e_shape (addVertex st poly p e).1
                          (addVertex st poly p e).2)) p = true ∧
    ∀ x, live st x →
      live (addVertex st poly p e).1 x ∧
      shape_end (e_shape (addVertex st poly p e).1 x) =
      shape_end (e_shape st x)
}.

(** ** Crossing records *)

Section Records.
Context `{PrimitiveOracle}.

Record IntPoint := mkIntPoint {
  id : Z;
  pt : Point;
  arc_length : num;
  edge_before : option Edge;
  edge_after : option Edge;
  face : option Face;
  is_vertex : Z;
  faceId : option Z
}.

Definition set_id (v : Z) (r : IntPoint) : IntPoint :=
  mkIntPoint v (pt r) (arc_length r) (edge_before r) (edge_after r) (face r)
    (is_vertex r) (faceId r).
Definition set_edge_before (v : option Edge) (r : IntPoint) : IntPoint :=
  mkIntPoint (id r) (pt r) (arc_length r) v (edge_after r) (face r)
    (is_vertex r) (faceId r).
Definition set_edge_after (v : option Edge) (r : IntPoint) : IntPoint :=
  mkIntPoint (id r) (pt r) (arc_length r) (edge_before r) v (face r)
    (is_vertex r) (faceId r).
Definition set_ip_face (v : option Face) (r : IntPoint) : IntPoint :=
  mkIntPoint (id r) (pt r) (arc_length r) (edge_before r) (edge_after r) v
    (is_vertex r) (faceId r).
Definition set_is_vertex (v : Z) (r : IntPoint) : IntPoint :=
  mkIntPoint (id r) (pt r) (arc_length r) (edge_before r) (edge_after r)
    (face r) v (faceId r).
Definition set_faceId (v : option Z) (r : IntPoint) : IntPoint :=
  mkIntPoint (id r) (pt r) (arc_length r) (edge_before r) (edge_after r)
    (face r) (is_vertex r) v.

(** The [intersections] object of one Boolean call.  The sorted arrays do not
    exist before [sortIntersections] ran. *)
Record Intersections := mkIntersections {
  int_points1 : list ipref;
  int_points2 : list ipref;
  int_points1_sorted : option (list ipref);
  int_points2_sorted : option (list ipref)
}.

End Records.

(** ** Completions and the engine monad

    A call either returns or throws; the only exception the engine itself can
    raise is the [TypeError] of reading a property of [undefined]. *)
Inductive completion (A : Type) : Type :=
  | Normal (a : A)
  | TypeError.
Arguments Normal {A} a.
Arguments TypeError {A}.

Section Monad.
Context `{PolygonStore}.

(** The mutable world: the crossing records allocated so far (a record's
    identity is its position) and the state of the polygon store. *)
Record World := mkWorld {
  recs : list IntPoint;
  store : St
}.

Definition M (A : Type) : Type := World → completion (A * World).

#[global] Instance M_ret : MRet M := λ A a w, Normal (a, w).
#[global] Instance M_bind : MBind M := λ A B k m w,
  match m w with
  | Normal (a, w') => k a w'
  | TypeError => TypeError
  end.

(** Reading a property of [o]: a [TypeError] when [o] is [undefined]. *)
Definition deref {A} (o : option A) : M A :=
  λ w, match o with Some a => Normal (a, w) | None => TypeError end.

Definition get_store : M St := λ w, Normal (store w, w).
Definition put_store (st : St) : M unit :=
  λ w, Normal (tt, mkWorld (recs w) st).
Definition get_recs : M (list IntPoint) := λ w, Normal (recs w, w).

(** The record behind a reference, and an assignment to fields of it. *)
Definition get_rec (r : ipref) : M IntPoint := λ w, deref (recs w !! r) w.
Definition upd_rec (r : ipref) (f : IntPoint → IntPoint) : M unit :=
  λ w, Normal (tt, mkWorld (alter f r (recs w)) (store w)).
(** A new record object. *)
Definition new_rec (v : IntPoint) : M ipref :=
  λ w, Normal (length (recs w), mkWorld (recs w ++ [v]) (store w)).

(** [for (let x of l) body(x)] *)
Fixpoint for_each {A} (l : list A) (body : A → M unit) : M unit :=
  match l with
  | [] => mret tt
  | x :: l' => body x ;; for_each l' body
  end.

(** [a[i]] for a number [i]: [undefined] out of range. *)
Definition js_index {A} (l : list A) (i : Z) : option A :=
  if decide (0 ≤ i)%Z then l !! Z.to_nat i else None.

End Monad.

(** ** The engine *)

Section Engine.
Context `{PolygonStore}.

Definition modify_store (f : St → St) : M unit :=
  λ w, Normal (tt, mkWorld (recs w) (f (store w))).

(** [for (let x of l) s = body(s, x)] with the variables the loop assigns
    threaded as [s]. *)
Fixpoint fold_each {A S} (l : list A) (s : S) (body : S → A → M S) : M S :=
  match l with
  | [] => mret s
  | x :: l' => s' ← body s x; fold_each l' s' body
  end.

(** [o.f] for a record reference [o] that may be [undefined]. *)
Definition field {A} (o : option ipref) (f : IntPoint → A) : M A :=
  r ← deref o; x ← get_rec r; mret (f x).

(** *** IntersectionCollector *)

Definition addToIntPoints (edge : Edge) (p : Point) (int_points : list ipref)
  : M (list ipref) :=
  let id := Z.of_nat (length int_points) in
  st ← get_store;
  let shapes := shape_split (e_shape st edge) p in
  if decide (length shapes = 0) then mret int_points else
  len ← match shapes !! 0 with
        | Some None => mret num_zero
        | _ => match shapes !! 1 with
               | Some None => mret (shape_length (e_shape st edge))
               | _ => s0 ← deref (mjoin (shapes !! 0)); mret (shape_length s0)
               end
        end;
  let is_vertex := NOT_VERTEX in
  let is_vertex :=
    if EQ len num_zero then Z.lor is_vertex START_VERTEX else is_vertex in
  let is_vertex :=
    if EQ len (shape_length (e_shape st edge))
    then Z.lor is_vertex END_VERTEX else is_vertex in
  arc_length ←
    (if decide (Z.land is_vertex END_VERTEX ≠ 0%Z)
     then next ← deref (e_next st edge);
          mret (if num_is_zero (e_arc_length st next) then num_zero
                else num_add (e_arc_length st edge) len)
     else mret (num_add (e_arc_length st edge) len));
  r ← new_rec (mkIntPoint id p arc_length (Some edge) None (e_face st edge)
                 is_vertex None);
  mret (int_points ++ [r]).

Definition getIntersections (polygon1 polygon2 : Poly) : M Intersections :=
  st ← get_store;
  fold_each (poly_edges st polygon1) (mkIntersections [] [] None None)
    (λ intersections edge1,
       st ← get_store;
       let resp := edges_search st polygon2 (e_box st edge1) in
       fold_each resp intersections (λ intersections edge2,
         st ← get_store;
         let ip := shape_intersect (e_shape st edge1) (e_shape st edge2) in
         fold_each ip intersections (λ intersections p,
           l1 ← addToIntPoints edge1 p (int_points1 intersections);
           l2 ← addToIntPoints edge2 p (int_points2 intersections);
           mret (mkIntersections l1 l2
                   (int_points1_sorted intersections)
                   (int_points2_sorted intersections))))).

(** *** IntersectionSorter *)

(** [a < b] and [a > b] on face ids; a comparison with [undefined] is false. *)
Definition js_lt (a b : option Z) : bool :=
  match a, b with Some x, Some y => bool_decide (x < y)%Z | _, _ => false end.
Definition js_gt (a b : option Z) : bool := js_lt b a.

Definition compareFn (ip1 ip2 : IntPoint) : Z :=
  if js_lt (faceId ip1) (faceId ip2) then (-1)%Z
  else if js_gt (faceId ip1) (faceId ip2) then 1%Z
  else if LT (arc_length ip1) (arc_length ip2) then (-1)%Z
  else if GT (arc_length ip1) (arc_length ip2) then 1%Z
  else 0%Z.

(** [Array.prototype.sort] is stable; it is an insertion sort here, which
    places an element before the first one that does not compare below it. *)
Fixpoint js_insert {A} (cmp : A → A → Z) (x : A) (l : list A) : list A :=
  match l with
  | [] => [x]
  | y :: l' =>
      if decide (cmp x y ≤ 0)%Z then x :: y :: l' else y :: js_insert cmp x l'
  end.
Definition js_sort {A} (cmp : A → A → Z) (l : list A) : list A :=
  foldr (js_insert cmp) [] l.

(** The comparator on references, reading the records of [rs]. *)
Definition compare_refs (rs : list IntPoint) (a b : ipref) : Z :=
  match rs !! a, rs !! b with
  | Some x, Some y => compareFn x y
  | _, _ => 0%Z
  end.

Definition getSortedArray (int_points : list ipref) : M (list ipref) :=
  '(faceMap, _) ← fold_each int_points ((∅ : gmap (option Face) Z), 0%Z)
     (λ '(faceMap, id) ip,
        f ← field (Some ip) face;
        if decide (is_Some (faceMap !! f)) then mret (faceMap, id)
        else mret (<[f := id]> faceMap, (id + 1)%Z));
  for_each int_points (λ ip,
     f ← field (Some ip) face;
     upd_rec ip (set_faceId (faceMap !! f)));;
  rs ← get_recs;
  mret (js_sort (compare_refs rs) int_points).

Definition sortIntersections (intersections : Intersections)
  : M Intersections :=
  s1 ← getSortedArray (int_points1 intersections);
  s2 ← getSortedArray (int_points2 intersections);
  mret (mkIntersections (int_points1 intersections)
          (int_points2 intersections) (Some s1) (Some s2)).

(** *** EdgeSplitter *)

Definition split_step (polygon : Poly) (int_point : ipref) : M unit :=
  r ← get_rec int_point;
  edge ← deref (edge_before r);
  st ← get_store;
  let iv := NOT_VERTEX in
  let iv := if equalTo (shape_start (e_shape st edge)) (pt r)
            then Z.lor iv START_VERTEX else iv in
  let iv := if equalTo (shape_end (e_shape st edge)) (pt r)
            then Z.lor iv END_VERTEX else iv in
  upd_rec int_point (set_is_vertex iv);;
  if decide (Z.land iv START_VERTEX ≠ 0%Z) then
    upd_rec int_point (set_edge_before (e_prev st edge));;
    upd_rec int_point (set_is_vertex END_VERTEX)
  else if decide (Z.land iv END_VERTEX ≠ 0%Z) then mret tt
  else
    let '(st', newEdge) := addVertex st polygon (pt r) edge in
    put_store st';;
    upd_rec int_point (set_edge_before (Some newEdge)).

Definition link_step (int_point : ipref) : M unit :=
  r ← get_rec int_point;
  eb ← deref (edge_before r);
  st ← get_store;
  upd_rec int_point (set_edge_after (e_next st eb)).

Definition splitByIntersections (polygon : Poly)
    (int_points : option (list ipref)) : M unit :=
  match int_points with
  | None => mret tt
  | Some l => for_each l (split_step polygon);; for_each l link_step
  end.

(** *** DuplicateFilter *)

(** The four [===] of the duplicate test, left to right, each reading its
    operands only when the ones before held. *)
Definition same_edges (cur1 ref1 cur2 ref2 : option ipref) : M bool :=
  a ← field cur1 edge_before; b ← field ref1 edge_before;
  if decide (a = b) then
    a ← field cur1 edge_after; b ← field ref1 edge_after;
    if decide (a = b) then
      a ← field cur2 edge_before; b ← field ref2 edge_before;
      if decide (a = b) then
        a ← field cur2 edge_after; b ← field ref2 edge_after;
        mret (bool_decide (a = b))
      else mret false
    else mret false
  else mret false.

Definition mark_sweep1 (int_points2 : list ipref)
    (s : option ipref * option ipref * bool) (cur1 : ipref)
  : M (option ipref * option ipref * bool) :=
  let '(ref1, ref2, do_squeeze) := s in
  a ← field (Some cur1) arc_length;
  b ← field ref1 arc_length;
  if negb (EQ a b) then
    i ← field (Some cur1) id;
    mret (Some cur1, js_index int_points2 i, do_squeeze)
  else
    i ← field (Some cur1) id;
    let cur2 := js_index int_points2 i in
    dup ← same_edges (Some cur1) ref1 cur2 ref2;
    if (dup : bool) then
      upd_rec cur1 (set_id (-1));;
      c2 ← deref cur2;
      upd_rec c2 (set_id (-1));;
      mret (ref1, ref2, true)
    else mret (ref1, ref2, do_squeeze).

Definition mark_sweep2 (int_points1 : list ipref)
    (s : option ipref * option ipref * bool) (cur2 : ipref)
  : M (option ipref * option ipref * bool) :=
  let '(ref1, ref2, do_squeeze) := s in
  i ← field (Some cur2) id;
  if decide (i = -1)%Z then mret s else
  j ← field ref2 id;
  fresh ← (if decide (j = -1)%Z then mret true
           else a ← field (Some cur2) arc_length;
                b ← field ref2 arc_length;
                mret (negb (EQ a b)));
  if (fresh : bool) then
    mret (js_index int_points1 i, Some cur2, do_squeeze)
  else
    let cur1 := js_index int_points1 i in
    dup ← same_edges cur1 ref1 (Some cur2) ref2;
    if (dup : bool) then
      c1 ← deref cur1;
      upd_rec c1 (set_id (-1));;
      upd_rec cur2 (set_id (-1));;
      mret (ref1, ref2, true)
    else mret (ref1, ref2, do_squeeze).

(** [int_points.filter((int_point) => int_point.id >= 0)] *)
Fixpoint filter_live (l : list ipref) : M (list ipref) :=
  match l with
  | [] => mret []
  | x :: l' =>
      i ← field (Some x) id;
      rest ← filter_live l';
      mret (if decide (0 ≤ i)%Z then x :: rest else rest)
  end.

(** [int_points.forEach((int_point, index) => int_point.id = index)] *)
Definition renumber (l : list ipref) : M unit :=
  for_each (imap (λ index x, (index, x)) l)
    (λ '(index, x), upd_rec x (set_id (Z.of_nat index))).

Definition filterDuplicatedIntersections (intersections : Intersections)
  : M Intersections :=
  if decide (length (int_points1 intersections) < 2) then mret intersections
  else
    sorted1 ← deref (int_points1_sorted intersections);
    let ref1 := sorted1 !! 0 in
    i ← field ref1 id;
    let ref2 := js_index (int_points2 intersections) i in
    '(_, _, do_squeeze) ←
      fold_each (drop 1 sorted1) (ref1, ref2, false)
        (mark_sweep1 (int_points2 intersections));
    sorted2 ← deref (int_points2_sorted intersections);
    let ref2 := sorted2 !! 0 in
    i ← field ref2 id;
    let ref1 := js_index (int_points1 intersections) i in
    '(_, _, do_squeeze) ←
      fold_each (drop 1 sorted2) (ref1, ref2, do_squeeze)
        (mark_sweep2 (int_points1 intersections));
    if (do_squeeze : bool) then
      p1 ← filter_live (int_points1 intersections);
      p2 ← filter_live (int_points2 intersections);
      renumber p1;;
      renumber p2;;
      sortIntersections (mkIntersections p1 p2 (Some []) (Some []))
    else mret intersections.

(** *** InclusionClassifier *)

(** [int_points.find((ip) => ip.face === face)], as the record found. *)
Fixpoint find_on_face (int_points : list ipref) (f : option Face)
  : M (option ipref) :=
  match int_points with
  | [] => mret None
  | ip :: rest =>
      g ← field (Some ip) face;
      if decide (g = f) then mret (Some ip) else find_on_face rest f
  end.

Definition getNotIntersectedFaces (poly : Poly) (int_points : list ipref)
  : M (list Face) :=
  st ← get_store;
  fold_each (poly_faces st poly) [] (λ notIntersected f,
    found ← find_on_face int_points (Some f);
    match found with
    | Some _ => mret notIntersected
    | None => mret (notIntersected ++ [f])
    end).

Definition calcInclusionForNotIntersectedFaces (notIntersectedFaces : list Face)
    (poly2 : Poly) : M unit :=
  for_each notIntersectedFaces (λ f,
    st ← get_store;
    first ← deref (face_first st f);
    modify_store (λ st, set_bvEnd st first None);;
    modify_store (λ st, set_bvStart st first None);;
    modify_store (λ st, set_bv st first None);;
    st ← get_store;
    first ← deref (face_first st f);
    modify_store (λ st, setInclusion st first poly2)).

Definition initializeInclusionFlags (int_points : list ipref) : M unit :=
  for_each int_points (λ int_point,
    eb ← (o ← field (Some int_point) edge_before; deref o);
    modify_store (λ st, set_bvStart st eb None);;
    modify_store (λ st, set_bvEnd st eb None);;
    modify_store (λ st, set_bv st eb None);;
    modify_store (λ st, set_overlap st eb None);;
    ea ← (o ← field (Some int_point) edge_after; deref o);
    modify_store (λ st, set_bvStart st ea None);;
    modify_store (λ st, set_bvEnd st ea None);;
    modify_store (λ st, set_bv st ea None);;
    modify_store (λ st, set_overlap st ea None));;
  for_each int_points (λ int_point,
    eb ← (o ← field (Some int_point) edge_before; deref o);
    modify_store (λ st, set_bvEnd st eb (Some BOUNDARY));;
    ea ← (o ← field (Some int_point) edge_after; deref o);
    modify_store (λ st, set_bvStart st ea (Some BOUNDARY))).

Definition calculateInclusionFlags (int_points : list ipref) (polygon : Poly)
  : M unit :=
  for_each int_points (λ int_point,
    eb ← (o ← field (Some int_point) edge_before; deref o);
    modify_store (λ st, setInclusion st eb polygon);;
    ea ← (o ← field (Some int_point) edge_after; deref o);
    modify_store (λ st, setInclusion st ea polygon)).

(** [edge_from.bv === BOUNDARY && edge_to.bv === BOUNDARY], reading [edge_to]
    only when the first test held. *)
Definition boundary_ends (edge_from edge_to : option Edge) : M bool :=
  ef ← deref edge_from;
  st ← get_store;
  if decide (e_bv st ef = Some BOUNDARY) then
    et ← deref edge_to;
    mret (bool_decide (e_bv st et = Some BOUNDARY))
  else mret false.

(** [... && edge_from2 === edge_to2] on top of [boundary_ends]. *)
Definition boundary_chain (edge_from edge_to : option Edge) : M bool :=
  b ← boundary_ends edge_from edge_to;
  mret ((b : bool) && bool_decide (edge_from = edge_to)).

Definition overlap_step (intersections : Intersections) (num_int_points : nat)
    (s : option Face * option ipref) (i : nat)
  : M (option Face * option ipref) :=
  let '(cur_face, first_int_point_in_face) := s in
  sorted ← deref (int_points1_sorted intersections);
  let cur_int_point1 := sorted !! i in
  f ← field cur_int_point1 face;
  let '(first_int_point_in_face, cur_face) :=
    if decide (f ≠ cur_face) then (cur_int_point1, f)
    else (first_int_point_in_face, cur_face) in
  next_int_point1 ←
    (if decide (i + 1 = num_int_points) then mret first_int_point_in_face
     else g ← field (sorted !! (i + 1)) face;
          if decide (g ≠ cur_face) then mret first_int_point_in_face
          else mret (sorted !! (i + 1)));
  edge_from1 ← field cur_int_point1 edge_after;
  edge_to1 ← field next_int_point1 edge_before;
  b ← boundary_ends edge_from1 edge_to1;
  if negb b then mret (cur_face, first_int_point_in_face)
  else if decide (edge_from1 ≠ edge_to1)
  then mret (cur_face, first_int_point_in_face)
  else
    i1 ← field cur_int_point1 id;
    let cur_int_point2 := js_index (int_points2 intersections) i1 in
    i2 ← field next_int_point1 id;
    let next_int_point2 := js_index (int_points2 intersections) i2 in
    edge_from2 ← field cur_int_point2 edge_after;
    edge_to2 ← field next_int_point2 edge_before;
    b ← boundary_chain edge_from2 edge_to2;
    '(edge_from2, edge_to2) ←
      (if negb b then
         i2 ← field next_int_point1 id;
         let cur_int_point2 := js_index (int_points2 intersections) i2 in
         i1 ← field cur_int_point1 id;
         let next_int_point2 := js_index (int_points2 intersections) i1 in
         edge_from2 ← field cur_int_point2 edge_after;
         edge_to2 ← field next_int_point2 edge_before;
         mret (edge_from2, edge_to2)
       else mret (edge_from2, edge_to2));
    b ← boundary_chain edge_from2 edge_to2;
    if negb b then mret (cur_face, first_int_point_in_face)
    else
      ef1 ← deref edge_from1;
      ef2 ← deref edge_from2;
      modify_store (λ st, setOverlap st ef1 ef2);;
      mret (cur_face, first_int_point_in_face).

Definition setOverlappingFlags (intersections : Intersections) : M unit :=
  let num_int_points := length (int_points1 intersections) in
  fold_each (seq 0 num_int_points) (None, None)
    (overlap_step intersections num_int_points);;
  mret tt.

(** *** ChainExcisor *)

(** [x & flag] is truthy; [undefined & flag] is [0]. *)
Definition has_flag (x : option Z) (flag : Z) : bool :=
  negb (bool_decide (Z.land (default 0%Z x) flag = 0%Z)).

(** The test of [removeNotRelevantChains] on the boundary values of
    [edge_from] and [edge_to] and the overlap flag of [edge_from]. *)
Definition chain_not_relevant (op : Z) (is_res_polygon : bool)
    (from_bv to_bv : option Inclusion) (from_overlap : option Z) : bool :=
  (bool_decide (from_bv = Some INSIDE) && bool_decide (to_bv = Some INSIDE)
     && bool_decide (op = BOOLEAN_UNION))
  || (bool_decide (from_bv = Some OUTSIDE) && bool_decide (to_bv = Some OUTSIDE)
     && bool_decide (op = BOOLEAN_INTERSECT))
  || ((bool_decide (from_bv = Some OUTSIDE) || bool_decide (to_bv = Some OUTSIDE))
     && bool_decide (op = BOOLEAN_SUBTRACT) && negb is_res_polygon)
  || ((bool_decide (from_bv = Some INSIDE) || bool_decide (to_bv = Some INSIDE))
     && bool_decide (op = BOOLEAN_SUBTRACT) && is_res_polygon)
  || (bool_decide (from_bv = Some BOUNDARY) && bool_decide (to_bv = Some BOUNDARY)
     && has_flag from_overlap OVERLAP_SAME && is_res_polygon)
  || (bool_decide (from_bv = Some BOUNDARY) && bool_decide (to_bv = Some BOUNDARY)
     && has_flag from_overlap OVERLAP_OPPOSITE).

(** The loop of [intPointsPullCount] over the records after the current one. *)
Fixpoint pull_scan (int_point_current : option ipref) (cur_face : option Face)
    (rest : list ipref) (int_points_pull_num : nat) : M nat :=
  match rest with
  | [] => mret int_points_pull_num
  | int_point_next :: rest' =>
      f ← field int_point_current face;
      if decide (f ≠ cur_face) then mret int_points_pull_num else
      p1 ← field (Some int_point_next) pt;
      p2 ← field int_point_current pt;
      if negb (equalTo p1 p2) then mret int_points_pull_num else
      a ← field (Some int_point_next) edge_before;
      b ← field int_point_current edge_before;
      if decide (a ≠ b) then mret int_points_pull_num else
      a ← field (Some int_point_next) edge_after;
      b ← field int_point_current edge_after;
      if decide (a ≠ b) then mret int_points_pull_num else
      pull_scan int_point_current cur_face rest' (S int_points_pull_num)
  end.

(** [cur_int_point_num] is [None] when the caller passes [undefined]: the
    loop from [undefined + 1] does not run. *)
Definition intPointsPullCount (int_points : list ipref)
    (cur_int_point_num : option nat) (cur_face : option Face) : M nat :=
  if decide (length int_points = 1) then mret 1 else
  match cur_int_point_num with
  | None => mret 1
  | Some n => pull_scan (int_points !! n) cur_face (drop (n + 1) int_points) 1
  end.

(** One turn of the loop of [removeNotRelevantChains] at index [i]; the result
    is the index of the next turn and the loop variables. *)
Definition chain_step (polygon : Poly) (op : Z) (int_points : list ipref)
    (is_res_polygon : bool) (i : nat) (cur_face : option Face)
    (first_int_point_in_face_num : option nat)
  : M (nat * option Face * option nat) :=
  let int_point_current := int_points !! i in
  f ← field int_point_current face;
  let '(first_int_point_in_face_num, cur_face) :=
    if decide (f ≠ cur_face) then (Some i, f)
    else (first_int_point_in_face_num, cur_face) in
  cf ← deref cur_face;
  st ← get_store;
  if face_isEmpty st cf
  then mret (i + 1, cur_face, first_int_point_in_face_num)
  else
    let int_points_from_pull_start := i in
    int_points_from_pull_num ← intPointsPullCount int_points (Some i) cur_face;
    next_int_point_num ←
      (if decide (int_points_from_pull_start + int_points_from_pull_num
                  < length int_points)
       then
         g ← field (int_points !!
                      (int_points_from_pull_start + int_points_from_pull_num))
                face;
         h ← field int_point_current face;
         if decide (g = h)
         then mret (Some (int_points_from_pull_start + int_points_from_pull_num))
         else mret first_int_point_in_face_num
       else mret first_int_point_in_face_num);
    let int_point_next := next_int_point_num ≫= (int_points !!.) in
    let int_points_to_pull_start := next_int_point_num in
    int_points_to_pull_num ←
      intPointsPullCount int_points int_points_to_pull_start cur_face;
    edge_from ← field int_point_current edge_after;
    edge_to ← field int_point_next edge_before;
    ef ← deref edge_from;
    et ← deref edge_to;
    st ← get_store;
    (if chain_not_relevant op is_res_polygon (e_bv st ef) (e_bv st et)
          (e_overlap st ef)
     then
       modify_store (λ st, removeChain st polygon cf ef et);;
       for_each (seq int_points_from_pull_start int_points_from_pull_num)
         (λ k, c ← deref int_point_current; upd_rec c (set_edge_after None));;
       match int_points_to_pull_start with
       | Some start =>
           for_each (seq start int_points_to_pull_num)
             (λ k, n ← deref int_point_next; upd_rec n (set_edge_before None))
       | None => mret tt
       end
     else mret tt);;
    mret (i + int_points_from_pull_num - 1 + 1, cur_face,
          first_int_point_in_face_num).

(** The [for] loop: at most one turn per record, as every turn moves on by
    one index at least. *)
Fixpoint chain_loop (turns : nat) (polygon : Poly) (op : Z)
    (int_points : list ipref) (is_res_polygon : bool) (i : nat)
    (cur_face : option Face) (first_int_point_in_face_num : option nat)
  : M unit :=
  match turns with
  | 0 => mret tt
  | S turns' =>
      if decide (i < length int_points) then
        '(i', cur_face', first') ←
          chain_step polygon op int_points is_res_polygon i cur_face
            first_int_point_in_face_num;
        chain_loop turns' polygon op int_points is_res_polygon i' cur_face'
          first'
      else mret tt
  end.

Definition removeNotRelevantChains (polygon : Poly) (op : Z)
    (int_points : option (list ipref)) (is_res_polygon : bool) : M unit :=
  match int_points with
  | None => mret tt
  | Some l => chain_loop (length l) polygon op l is_res_polygon 0 None None
  end.

Definition removeNotRelevantNotIntersectedFaces (polygon : Poly)
    (notIntersectedFaces : list Face) (op : Z) (is_res_polygon : bool)
  : M unit :=
  for_each notIntersectedFaces (λ f,
    st ← get_store;
    first ← deref (face_first st f);
    let rel := e_bv st first in
    if bool_decide (op = BOOLEAN_UNION) && bool_decide (rel = Some INSIDE)
       || bool_decide (op = BOOLEAN_SUBTRACT) && bool_decide (rel = Some INSIDE)
          && is_res_polygon
       || bool_decide (op = BOOLEAN_SUBTRACT) && bool_decide (rel = Some OUTSIDE)
          && negb is_res_polygon
       || bool_decide (op = BOOLEAN_INTERSECT) && bool_decide (rel = Some OUTSIDE)
    then modify_store (λ st, deleteFace st polygon f)
    else mret tt).

Definition filterNotRelevantEdges (res_poly wrk_poly : Poly)
    (intersections : Intersections) (op : Z) : M unit :=
  notIntersectedFacesRes ←
    getNotIntersectedFaces res_poly (int_points1 intersections);
  notIntersectedFacesWrk ←
    getNotIntersectedFaces wrk_poly (int_points2 intersections);
  calcInclusionForNotIntersectedFaces notIntersectedFacesRes wrk_poly;;
  calcInclusionForNotIntersectedFaces notIntersectedFacesWrk res_poly;;
  initializeInclusionFlags (int_points1 intersections);;
  initializeInclusionFlags (int_points2 intersections);;
  calculateInclusionFlags (int_points1 intersections) wrk_poly;;
  calculateInclusionFlags (int_points2 intersections) res_poly;;
  setOverlappingFlags intersections;;
  removeNotRelevantChains res_poly op (int_points1_sorted intersections) true;;
  removeNotRelevantChains wrk_poly op (int_points2_sorted intersections) false;;
  removeNotRelevantNotIntersectedFaces res_poly notIntersectedFacesRes op true;;
  removeNotRelevantNotIntersectedFaces wrk_poly notIntersectedFacesWrk op false.

(** *** Restitcher *)

Definition copyWrkToRes (res_polygon wrk_polygon : Poly) (op : Z)
    (int_points : list ipref) : M unit :=
  st ← get_store;
  for_each (poly_faces st wrk_polygon) (λ f,
    st ← get_store;
    for_each (face_edges st f)
      (λ edge, modify_store (λ st, edges_add st res_polygon edge));;
    found ← find_on_face int_points (Some f);
    match found with
    | None =>
        modify_store
          (λ st, (addFace st res_polygon (face_first st f) (face_last st f)).1)
    | Some _ => mret tt
    end).

(** [a.edge_before.next = b.edge_after; b.edge_after.prev = a.edge_before;
    a.edge_after = b.edge_after; b.edge_before = a.edge_before] *)
Definition connect (a b : ipref) : M unit :=
  eb ← (o ← field (Some a) edge_before; deref o);
  ea ← field (Some b) edge_after;
  modify_store (λ st, set_next st eb ea);;
  ea ← (o ← field (Some b) edge_after; deref o);
  eb ← field (Some a) edge_before;
  modify_store (λ st, set_prev st ea eb);;
  ea ← field (Some b) edge_after;
  upd_rec a (set_edge_after ea);;
  eb ← field (Some a) edge_before;
  upd_rec b (set_edge_before eb).

(** [x.edge_before !== undefined && x.edge_after === undefined] *)
Definition needs_swap (x : option ipref) : M bool :=
  eb ← field x edge_before;
  if decide (eb ≠ None) then
    ea ← field x edge_after; mret (bool_decide (ea = None))
  else mret false.

(** [x.edge_before === undefined && x.edge_after !== undefined] *)
Definition offers_continuation (x : option ipref) : M bool :=
  eb ← field x edge_before;
  if decide (eb = None) then
    ea ← field x edge_after; mret (bool_decide (ea ≠ None))
  else mret false.

(** The search for a continuation of [int_point1] on its own polygon. *)
Definition touching_case (sorted : option (list ipref)) (int_point1 : ipref)
  : M unit :=
  b ← needs_swap (Some int_point1);
  if (b : bool) then
    l ← deref sorted;
    for_each l (λ int_point,
      if decide (int_point = int_point1) then mret tt else
      c ← offers_continuation (Some int_point);
      if (c : bool) then
        p ← field (Some int_point) pt;
        q ← field (Some int_point1) pt;
        if equalTo p q then connect int_point1 int_point else mret tt
      else mret tt)
  else mret tt.

Definition swap_step (intersections : Intersections) (i : nat) : M unit :=
  int_point1 ← deref (int_points1 intersections !! i);
  let int_point2 := int_points2 intersections !! i in
  b ← needs_swap (Some int_point1);
  (if (b : bool) then
     c ← offers_continuation int_point2;
     if (c : bool) then p2 ← deref int_point2; connect int_point1 p2
     else mret tt
   else mret tt);;
  b ← needs_swap int_point2;
  (if (b : bool) then
     c ← offers_continuation (Some int_point1);
     if (c : bool) then p2 ← deref int_point2; connect p2 int_point1
     else mret tt
   else mret tt);;
  touching_case (int_points1_sorted intersections) int_point1;;
  p2 ← deref int_point2;
  touching_case (int_points2_sorted intersections) p2.

Definition swapLinks (res_polygon wrk_polygon : Poly)
    (intersections : Intersections) : M unit :=
  if decide (length (int_points1 intersections) = 0) then mret tt
  else for_each (seq 0 (length (int_points1 intersections)))
         (swap_step intersections).

Definition removeOldFaces (polygon : Poly) (int_points : list ipref)
  : M unit :=
  for_each int_points (λ int_point,
    f ← field (Some int_point) face;
    modify_store (λ st, faces_delete st polygon f);;
    upd_rec int_point (set_ip_face None);;
    eb ← field (Some int_point) edge_before;
    match eb with
    | Some e => modify_store (λ st, set_face st e None)
    | None => mret tt
    end;;
    ea ← field (Some int_point) edge_after;
    match ea with
    | Some e => modify_store (λ st, set_face st e None)
    | None => mret tt
    end).

(** [int_point_tmp.edge_before && int_point_tmp.edge_after &&
    edge_before.face === face && edge_after.face === face] sets the face of
    the record. *)
Definition mark_restored (f : Face) (int_points : list ipref) : M unit :=
  for_each int_points (λ int_point_tmp,
    r ← get_rec int_point_tmp;
    st ← get_store;
    match edge_before r, edge_after r with
    | Some eb, Some ea =>
        if decide (e_face st eb = Some f) then
          if decide (e_face st ea = Some f)
          then upd_rec int_point_tmp (set_ip_face (Some f))
          else mret tt
        else mret tt
    | _, _ => mret tt
    end).

Definition restore_step (polygon : Poly) (int_points other_int_points : list ipref)
    (int_point : ipref) : M unit :=
  r ← get_rec int_point;
  match edge_before r, edge_after r with
  | Some last, Some first =>
      if decide (is_Some (face r)) then mret tt else
      st ← get_store;
      if decide (is_Some (e_face st first)) then mret tt else
      if decide (is_Some (e_face st last)) then mret tt else
      let '(st', f) := addFace st polygon (Some first) (Some last) in
      put_store st';;
      mark_restored f int_points;;
      mark_restored f other_int_points
  | _, _ => mret tt
  end.

Definition restoreFaces (polygon : Poly)
    (int_points other_int_points : list ipref) : M unit :=
  for_each int_points (restore_step polygon int_points other_int_points).

Definition swapLinksAndRestore (res_poly wrk_poly : Poly)
    (intersections : Intersections) (op : Z) : M unit :=
  copyWrkToRes res_poly wrk_poly op (int_points2 intersections);;
  swapLinks res_poly wrk_poly intersections;;
  removeOldFaces res_poly (int_points1 intersections);;
  removeOldFaces wrk_poly (int_points2 intersections);;
  restoreFaces res_poly (int_points1 intersections) (int_points2 intersections);;
  restoreFaces res_poly (int_points2 intersections) (int_points1 intersections).

(** *** BooleanDriver *)

Definition call_clone (polygon : Poly) : M Poly :=
  λ w, let '(st', c) := clone (store w) polygon in
       Normal (c, mkWorld (recs w) st').
Definition call_reverse (polygon : Poly) : M Poly :=
  λ w, let '(st', c) := reverse (store w) polygon in
       Normal (c, mkWorld (recs w) st').

Definition booleanOpBinary (polygon1 polygon2 : Poly) (op : Z) (restore : bool)
  : M (Poly * Poly) :=
  res_poly ← call_clone polygon1;
  wrk_poly ← call_clone polygon2;
  intersections ← getIntersections res_poly wrk_poly;
  intersections ← sortIntersections intersections;
  splitByIntersections res_poly (int_points1_sorted intersections);;
  splitByIntersections wrk_poly (int_points2_sorted intersections);;
  intersections ← filterDuplicatedIntersections intersections;
  filterNotRelevantEdges res_poly wrk_poly intersections op;;
  (if restore then swapLinksAndRestore res_poly wrk_poly intersections op
   else mret tt);;
  mret (res_poly, wrk_poly).

Definition unify (polygon1 polygon2 : Poly) : M Poly :=
  '(res_poly, wrk_poly) ← booleanOpBinary polygon1 polygon2 BOOLEAN_UNION true;
  mret res_poly.

Definition subtract (polygon1 polygon2 : Poly) : M Poly :=
  polygon2_tmp ← call_clone polygon2;
  polygon2_reversed ← call_reverse polygon2_tmp;
  '(res_poly, wrk_poly) ←
    booleanOpBinary polygon1 polygon2_reversed BOOLEAN_SUBTRACT true;
  mret res_poly.

Definition intersect (polygon1 polygon2 : Poly) : M Poly :=
  '(res_poly, wrk_poly) ←
    booleanOpBinary polygon1 polygon2 BOOLEAN_INTERSECT true;
  mret res_poly.

(** The shapes of the edges of every face of a polygon, face by face. *)
Definition clip_shapes (poly : Poly) : M (list Shape) :=
  st ← get_store;
  fold_each (poly_faces st poly) [] (λ clip_shapes f,
    st ← get_store;
    mret (clip_shapes ++ map (e_shape st) (face_edges st f))).

Definition innerClip (polygon1 polygon2 : Poly)
  : M (list Shape * list Shape) :=
  '(res_poly, wrk_poly) ←
    booleanOpBinary polygon1 polygon2 BOOLEAN_INTERSECT false;
  clip_shapes1 ← clip_shapes res_poly;
  clip_shapes2 ← clip_shapes wrk_poly;
  mret (clip_shapes1, clip_shapes2).

Definition outerClip (polygon1 polygon2 : Poly) : M (list Shape) :=
  '(res_poly, wrk_poly) ←
    booleanOpBinary polygon1 polygon2 BOOLEAN_SUBTRACT false;
  clip_shapes res_poly.

(** [int_points.map(int_point => int_point.pt)] *)
Fixpoint points_of (int_points : list ipref) : M (list Point) :=
  match int_points with
  | [] => mret []
  | x :: l => p ← field (Some x) pt; ps ← points_of l; mret (p :: ps)
  end.

Definition calculateIntersections (polygon1 polygon2 : Poly)
  : M (list Point * list Point) :=
  res_poly ← call_clone polygon1;
  wrk_poly ← call_clone polygon2;
  intersections ← getIntersections res_poly wrk_poly;
  intersections ← sortIntersections intersections;
  splitByIntersections res_poly (int_points1_sorted intersections);;
  splitByIntersections wrk_poly (int_points2_sorted intersections);;
  intersections ← filterDuplicatedIntersections intersections;
  s1 ← deref (int_points1_sorted intersections);
  ip_sorted1 ← points_of s1;
  s2 ← deref (int_points2_sorted intersections);
  ip_sorted2 ← points_of s2;
  mret (ip_sorted1, ip_sorted2).

(** The stages from the collector to the duplicate filter, as both
    [booleanOpBinary] and [calculateIntersections] run them on their clones. *)
Definition collect_sort_split_filter (res_poly wrk_poly : Poly)
  : M Intersections :=
  intersections ← getIntersections res_poly wrk_poly;
  intersections ← sortIntersections intersections;
  splitByIntersections res_poly (int_points1_sorted intersections);;
  splitByIntersections wrk_poly (int_points2_sorted intersections);;
  filterDuplicatedIntersections intersections.

End Engine.

(** ** A reference oracle and store: polygons of axis-parallel segments

    Points have integer coordinates and every segment is horizontal or
    vertical, so lengths are integers and all arithmetic is exact.  The
    crossing test looks [tol] units around a segment, as the tolerant
    comparisons of the primitives do; [tol = 0] is exact geometry. *)
Module Rect.

Definition point : Type := Z * Z.
Definition segment : Type := point * point.

Definition seg_length (s : segment) : Z :=
  (Z.abs (s.2.1 - s.1.1) + Z.abs (s.2.2 - s.1.2))%Z.
Definition horizontal (s : segment) : bool := bool_decide (s.1.2 = s.2.2).
Definition vertical (s : segment) : bool := bool_decide (s.1.1 = s.2.1).
Definition between (tol a b x : Z) : bool :=
  bool_decide (Z.min a b - tol ≤ x)%Z && bool_decide (x ≤ Z.max a b + tol)%Z.
Definition on_segment (s : segment) (p : point) : bool :=
  between 0 s.1.1 s.2.1 p.1 && between 0 s.1.2 s.2.2 p.2.

(** [segment.split(pt)]: nothing for a point off the segment, [null] on the
    side of the end point that [pt] is. *)
Definition split (s : segment) (p : point) : list (option segment) :=
  if negb (on_segment s p) then []
  else if bool_decide (p = s.1) then [None; Some s]
  else if bool_decide (p = s.2) then [Some s; None]
  else [Some (s.1, p); Some (p, s.2)].

(** A horizontal and a vertical segment cross where their lines meet, when
    that point is within [tol] of both. *)
Definition cross (tol : Z) (h v : segment) : list point :=
  let p := (v.1.1, h.1.2) in
  if between tol h.1.1 h.2.1 p.1 && between tol v.1.2 v.2.2 p.2
  then [p] else [].
Definition intersect (tol : Z) (s1 s2 : segment) : list point :=
  if horizontal s1 && vertical s2 && negb (horizontal s2) then cross tol s1 s2
  else if vertical s1 && horizontal s2 && negb (horizontal s1)
  then cross tol s2 s1
  else [].

Definition oracle (tol : Z) : PrimitiveOracle := {|
  num := Z;
  Point := point;
  Shape := segment;
  Box := segment;
  num_zero := 0%Z;
  num_add := Z.add;
  num_is_zero := λ a, bool_decide (a = 0%Z);
  EQ := λ a b, bool_decide (Z.abs (a - b) ≤ tol)%Z;
  LT := λ a b, bool_decide (a - b < - tol)%Z;
  GT := λ a b, bool_decide (a - b > tol)%Z;
  equalTo := λ p q, bool_decide (Z.abs (p.1 - q.1) ≤ tol)%Z
                    && bool_decide (Z.abs (p.2 - q.2) ≤ tol)%Z;
  shape_split := split;
  shape_intersect := intersect tol;
  shape_length := seg_length;
  shape_start := fst;
  shape_end := snd
|}.

(** The fields of an edge object. *)
Record edge_obj := mkEdge {
  o_shape : segment;
  o_next : option nat;
  o_prev : option nat;
  o_face : option nat;
  o_arc_length : Z;
  o_bv : option Inclusion;
  o_bvStart : option Inclusion;
  o_bvEnd : option Inclusion;
  o_overlap : option Z
}.

Definition blank_edge : edge_obj :=
  mkEdge ((0, 0), (0, 0))%Z None None None 0%Z None None None None.

(** The store: the edge objects by handle, the edges of each face in order,
    the edges and faces of each polygon, and the answers of the inclusion
    and overlap tests, which this store is told rather than computes. *)
Record state := mkState {
  edges : list edge_obj;
  faces : list (list nat);
  polygon_edges : list (list nat);
  polygon_faces : list (list nat);
  inclusion_of : nat → nat → option Inclusion;
  overlap_of : nat → nat → option Z
}.

Definition edge_at (st : state) (e : nat) : edge_obj :=
  default blank_edge (edges st !! e).
Definition with_edges (st : state) (es : list edge_obj) : state :=
  mkState es (faces st) (polygon_edges st) (polygon_faces st)
    (inclusion_of st) (overlap_of st).
Definition with_faces (st : state) (fs : list (list nat)) : state :=
  mkState (edges st) fs (polygon_edges st) (polygon_faces st)
    (inclusion_of st) (overlap_of st).
Definition with_polygon_edges (st : state) (pe : list (list nat)) : state :=
  mkState (edges st) (faces st) pe (polygon_faces st)
    (inclusion_of st) (overlap_of st).
Definition with_polygon_faces (st : state) (pf : list (list nat)) : state :=
  mkState (edges st) (faces st) (polygon_edges st) pf
    (inclusion_of st) (overlap_of st).
Definition alter_edge (f : edge_obj → edge_obj) (st : state) (e : nat)
  : state := with_edges st (alter f e (edges st)).

Definition put_shape (v : segment) (o : edge_obj) : edge_obj :=
  mkEdge v (o_next o) (o_prev o) (o_face o) (o_arc_length o) (o_bv o)
    (o_bvStart o) (o_bvEnd o) (o_overlap o).
Definition put_next (v : option nat) (o : edge_obj) : edge_obj :=
  mkEdge (o_shape o) v (o_prev o) (o_face o) (o_arc_length o) (o_bv o)
    (o_bvStart o) (o_bvEnd o) (o_overlap o).
Definition put_prev (v : option nat) (o : edge_obj) : edge_obj :=
  mkEdge (o_shape o) (o_next o) v (o_face o) (o_arc_length o) (o_bv o)
    (o_bvStart o) (o_bvEnd o) (o_overlap o).
Definition put_face (v : option nat) (o : edge_obj) : edge_obj :=
  mkEdge (o_shape o) (o_next o) (o_prev o) v (o_arc_length o) (o_bv o)
    (o_bvStart o) (o_bvEnd o) (o_overlap o).
Definition put_arc_length (v : Z) (o : edge_obj) : edge_obj :=
  mkEdge (o_shape o) (o_next o) (o_prev o) (o_face o) v (o_bv o)
    (o_bvStart o) (o_bvEnd o) (o_overlap o).
Definition put_bv (v : option Inclusion) (o : edge_obj) : edge_obj :=
  mkEdge (o_shape o) (o_next o) (o_prev o) (o_face o) (o_arc_length o) v
    (o_bvStart o) (o_bvEnd o) (o_overlap o).
Definition put_bvStart (v : option Inclusion) (o : edge_obj) : edge_obj :=
  mkEdge (o_shape o) (o_next o) (o_prev o) (o_face o) (o_arc_length o) (o_bv o)
    v (o_bvEnd o) (o_overlap o).
Definition put_bvEnd (v : option Inclusion) (o : edge_obj) : edge_obj :=
  mkEdge (o_shape o) (o_next o) (o_prev o) (o_face o) (o_arc_length o) (o_bv o)
    (o_bvStart o) v (o_overlap o).
Definition put_overlap (v : option Z) (o : edge_obj) : edge_obj :=
  mkEdge (o_shape o) (o_next o) (o_prev o) (o_face o) (o_arc_length o) (o_bv o)
    (o_bvStart o) (o_bvEnd o) v.

Definition remove_all (xs : list nat) (l : list nat) : list nat :=
  filter (λ x, x ∉ xs) l.

(** [addVertex]: the part of [edge] before [pt] becomes a new edge, linked
    in front of [edge], which keeps the part after [pt]. *)
Definition add_vertex (st : state) (poly : nat) (p : point) (edge : nat)
  : state * nat :=
  let o := edge_at st edge in
  let n := length (edges st) in
  let first_part := (o_shape o).1 in
  let new_obj := mkEdge (first_part, p) (Some edge) (o_prev o) (o_face o)
                   (o_arc_length o) None None None None in
  let st := with_edges st (edges st ++ [new_obj]) in
  let st := match o_prev o with
            | Some q => alter_edge (put_next (Some n)) st q
            | None => st
            end in
  let st := alter_edge
              (λ o, put_arc_length
                      (o_arc_length o + seg_length (first_part, p))%Z
                      (put_prev (Some n) (put_shape (p, (o_shape o).2) o)))
              st edge in
  let st := match o_face o with
            | Some f =>
                with_faces st
                  (alter (λ l, flat_map (λ x, if decide (x = edge)
                                              then [n; x] else [x]) l)
                     f (faces st))
            | None => st
            end in
  (with_polygon_edges st (alter (λ l, l ++ [n]) poly (polygon_edges st)), n).

(** The edges from [edge_from] to [edge_to] along [next]. *)
Fixpoint chain (st : state) (steps : nat) (edge_from edge_to : nat)
  : list nat :=
  match steps with
  | 0 => [edge_from]
  | S k =>
      if decide (edge_from = edge_to) then [edge_from]
      else match o_next (edge_at st edge_from) with
           | Some n => edge_from :: chain st k n edge_to
           | None => [edge_from]
           end
  end.

Definition remove_chain (st : state) (poly f edge_from edge_to : nat)
  : state :=
  let c := chain st (length (edges st)) edge_from edge_to in
  let before := o_prev (edge_at st edge_from) in
  let after := o_next (edge_at st edge_to) in
  let st := match before with
            | Some b => alter_edge (put_next after) st b
            | None => st
            end in
  let st := match after with
            | Some a => alter_edge (put_prev before) st a
            | None => st
            end in
  let st := with_faces st (alter (remove_all c) f (faces st)) in
  let st := with_polygon_edges st
              (alter (remove_all c) poly (polygon_edges st)) in
  if decide (default [] (faces st !! f) = [])
  then with_polygon_faces st
         (alter (remove_all [f]) poly (polygon_faces st))
  else st.

Definition delete_face (st : state) (poly f : nat) : state :=
  let c := default [] (faces st !! f) in
  let st := with_polygon_edges st
              (alter (remove_all c) poly (polygon_edges st)) in
  with_polygon_faces st (alter (remove_all [f]) poly (polygon_faces st)).

(** Arc lengths along a face, from [acc] at its first edge. *)
Fixpoint set_arc_lengths (st : state) (l : list nat) (acc : Z) : state :=
  match l with
  | [] => st
  | e :: l' =>
      let st' := alter_edge (put_arc_length acc) st e in
      set_arc_lengths st' l'
        (acc + seg_length (o_shape (edge_at st e)))%Z
  end.

(** [addFace(first, last)]: the ring is closed and its edges get the face. *)
Definition add_face (st : state) (poly : nat) (first last : option nat)
  : state * nat :=
  let f := length (faces st) in
  match first, last with
  | Some a, Some b =>
      let c := chain st (length (edges st)) a b in
      let st := alter_edge (put_next (Some a)) st b in
      let st := alter_edge (put_prev (Some b)) st a in
      let st := foldr (λ e st, alter_edge (put_face (Some f)) st e) st c in
      let st := set_arc_lengths st c 0%Z in
      let st := with_faces st (faces st ++ [c]) in
      let st := with_polygon_edges st
                  (alter (λ l, remove_all c l ++ c) poly (polygon_edges st)) in
      (with_polygon_faces st (alter (λ l, l ++ [f]) poly (polygon_faces st)), f)
  | _, _ => (with_faces st (faces st ++ [[]]), f)
  end.

(** A deep copy: every edge and face of the polygon is copied, and the links
    of the copies point to copies. *)
Definition copy_polygon (st : state) (poly : nat) : state * nat :=
  let ne := length (edges st) in
  let nf := length (faces st) in
  let np := length (polygon_edges st) in
  let pe := default [] (polygon_edges st !! poly) in
  let pf := default [] (polygon_faces st !! poly) in
  let edge_to (e : nat) : option nat :=
    (λ i, ne + i) <$> list_find (λ x, x = e) pe ≫= (λ y, Some y.1) in
  let face_to (f : nat) : option nat :=
    (λ i, nf + i) <$> list_find (λ x, x = f) pf ≫= (λ y, Some y.1) in
  let copy_edge (e : nat) : edge_obj :=
    let o := edge_at st e in
    mkEdge (o_shape o) (o_next o ≫= edge_to) (o_prev o ≫= edge_to)
      (o_face o ≫= face_to) (o_arc_length o) (o_bv o) (o_bvStart o)
      (o_bvEnd o) (o_overlap o) in
  let copy_face (f : nat) : list nat :=
    omap edge_to (default [] (faces st !! f)) in
  (mkState (edges st ++ map copy_edge pe) (faces st ++ map copy_face pf)
     (polygon_edges st ++ [omap edge_to pe])
     (polygon_faces st ++ [omap face_to pf])
     (inclusion_of st) (overlap_of st), np).

(** [reverse]: every edge of the polygon is turned round. *)
Definition reverse_polygon (st : state) (poly : nat) : state * nat :=
  let pe := default [] (polygon_edges st !! poly) in
  let pf := default [] (polygon_faces st !! poly) in
  let st := foldr (λ e st,
              alter_edge (λ o, put_prev (o_next o) (put_next (o_prev o)
                            (put_shape ((o_shape o).2, (o_shape o).1) o)))
                st e) st pe in
  let st := with_faces st
              (foldr (λ f fs, alter (@rev nat) f fs) (faces st) pf) in
  let st := foldr (λ f st,
              set_arc_lengths st (default [] (faces st !! f)) 0%Z) st pf in
  (st, poly).

(** A polygon of one face through the given vertices, in their order. *)
Definition add_polygon (st : state) (vs : list point) : state * nat :=
  let k := length vs in
  let ne := length (edges st) in
  let f := length (faces st) in
  let poly := length (polygon_edges st) in
  let ring := seq ne k in
  let obj (i : nat) (v : point) : edge_obj :=
    mkEdge (v, default v (vs !! ((i + 1) mod k)))
      (Some (ne + (i + 1) mod k)) (Some (ne + (i + k - 1) mod k)) (Some f)
      0%Z None None None None in
  let st := mkState (edges st ++ imap obj vs) (faces st ++ [ring])
              (polygon_edges st ++ [ring]) (polygon_faces st ++ [[f]])
              (inclusion_of st) (overlap_of st) in
  (set_arc_lengths st ring 0%Z, poly).

Definition empty : state :=
  mkState [] [] [] [] (λ _ _, None) (λ _ _, None).

Definition pstore (tol : Z) : @PolygonStore (oracle tol) := {|
  St := state;
  e_shape := λ st e, o_shape (edge_at st e) : @Shape (oracle tol);
  e_box := λ st e, o_shape (edge_at st e) : @Box (oracle tol);
  e_next := λ st e, o_next (edge_at st e);
  e_prev := λ st e, o_prev (edge_at st e);
  e_face := λ st e, o_face (edge_at st e);
  e_arc_length := λ st e, o_arc_length (edge_at st e);
  e_bv := λ st e, o_bv (edge_at st e);
  e_bvStart := λ st e, o_bvStart (edge_at st e);
  e_bvEnd := λ st e, o_bvEnd (edge_at st e);
  e_overlap := λ st e, o_overlap (edge_at st e);
  set_next := λ st e v, alter_edge (put_next v) st e;
  set_prev := λ st e v, alter_edge (put_prev v) st e;
  set_face := λ st e v, alter_edge (put_face v) st e;
  set_bv := λ st e v, alter_edge (put_bv v) st e;
  set_bvStart := λ st e v, alter_edge (put_bvStart v) st e;
  set_bvEnd := λ st e v, alter_edge (put_bvEnd v) st e;
  set_overlap := λ st e v, alter_edge (put_overlap v) st e;
  setInclusion := λ st e poly,
    match o_bv (edge_at st e) with
    | Some _ => st
    | None => alter_edge (put_bv (inclusion_of st e poly)) st e
    end;
  setOverlap := λ st e1 e2,
    let flag := overlap_of st e1 e2 in
    let st := match o_overlap (edge_at st e1) with
              | Some _ => st
              | None => alter_edge (put_overlap flag) st e1
              end in
    match o_overlap (edge_at st e2) with
    | Some _ => st
    | None => alter_edge (put_overlap flag) st e2
    end;
  face_first := λ st f, head (default [] (faces st !! f));
  face_last := λ st f, last (default [] (faces st !! f));
  face_isEmpty := λ st f, bool_decide (default [] (faces st !! f) = []);
  face_edges := λ st f, default [] (faces st !! f);
  clone := copy_polygon;
  reverse := reverse_polygon;
  poly_edges := λ st poly, default [] (polygon_edges st !! poly);
  poly_faces := λ st poly, default [] (polygon_faces st !! poly);
  edges_search := λ st poly box, default [] (polygon_edges st !! poly);
  edges_add := λ st poly e,
    with_polygon_edges st
      (alter (λ l, if decide (e ∈ l) then l else l ++ [e]) poly
         (polygon_edges st));
  faces_delete := λ st poly f,
    match f with
    | Some f =>
        with_polygon_faces st (alter (remove_all [f]) poly (polygon_faces st))
    | None => st
    end;
  addVertex := add_vertex;
  addFace := add_face;
  removeChain := remove_chain;
  deleteFace := delete_face;
  OVERLAP_SAME := 1%Z;
  OVERLAP_OPPOSITE := 2%Z
|}.

End Rect.

(** ** Reasoning about engine code

    [wp E m Q w]: run from [w], the code [m] returns a value and a world that
    satisfy [Q], or it throws and [E] holds.  With [E := False] the code
    returns; with [E := True] the statement is about the runs that return. *)

Section Reasoning.
Context `{PolygonStore}.

Definition wp {A} (E : Prop) (m : M A) (Q : A → World → Prop) (w : World)
  : Prop :=
  match m w with
  | Normal (a, w') => Q a w'
  | TypeError => E
  end.

Lemma bind_run {A B} (m : M A) (k : A → M B) w :
  (m ≫= k) w =
  match m w with Normal (a, w') => k a w' | TypeError => TypeError end.
Proof. reflexivity. Qed.

Lemma bind_Normal {A B} (m : M A) (k : A → M B) w b w2 :
  (m ≫= k) w = Normal (b, w2) ↔
  ∃ a w1, m w = Normal (a, w1) ∧ k a w1 = Normal (b, w2).
Proof.
  rewrite bind_run. split.
  - destruct (m w) as [[a w1]|]; [eauto | discriminate].
  - intros (a & w1 & -> & Hk). exact Hk.
Qed.

Lemma wp_run {A} E (m : M A) Q w a w' :
  m w = Normal (a, w') → Q a w' → wp E m Q w.
Proof. unfold wp. intros ->. done. Qed.

Lemma wp_Normal {A} E (m : M A) Q w a w' :
  wp E m Q w → m w = Normal (a, w') → Q a w'.
Proof. unfold wp. intros Hw Hm. by rewrite Hm in Hw. Qed.

Lemma wp_returns {A} (m : M A) Q w :
  wp False m Q w ↔ ∃ a w', m w = Normal (a, w') ∧ Q a w'.
Proof.
  unfold wp. split.
  - destruct (m w) as [[a w']|]; [eauto | done].
  - intros (a & w' & -> & HQ). done.
Qed.

Lemma wp_ret {A} E (a : A) Q w : Q a w → wp E (mret a) Q w.
Proof. done. Qed.

Lemma wp_bind {A B} E (m : M A) (k : A → M B) Q w :
  wp E m (λ a w', wp E (k a) Q w') w → wp E (m ≫= k) Q w.
Proof. unfold wp. rewrite bind_run. by destruct (m w) as [[a w']|]. Qed.

Lemma wp_mono {A} E (m : M A) (Q Q' : A → World → Prop) w :
  wp E m Q w → (∀ a w', Q a w' → Q' a w') → wp E m Q' w.
Proof. unfold wp. destruct (m w) as [[a w']|]; eauto. Qed.

Lemma wp_weaken {A} (m : M A) Q w : wp False m Q w → wp True m Q w.
Proof. unfold wp. by destruct (m w) as [[a w']|]. Qed.

Lemma wp_deref {A} E (o : option A) Q w :
  match o with Some a => Q a w | None => E end → wp E (deref o) Q w.
Proof. unfold wp, deref. by destruct o. Qed.

Lemma wp_get_store E Q w : Q (store w) w → wp E get_store Q w.
Proof. done. Qed.

Lemma wp_get_recs E Q w : Q (recs w) w → wp E get_recs Q w.
Proof. done. Qed.

Lemma wp_put_store E st Q w :
  Q tt (mkWorld (recs w) st) → wp E (put_store st) Q w.
Proof. done. Qed.

Lemma wp_modify_store E f Q w :
  Q tt (mkWorld (recs w) (f (store w))) → wp E (modify_store f) Q w.
Proof. done. Qed.

Lemma wp_get_rec E r Q w :
  match recs w !! r with Some v => Q v w | None => E end →
  wp E (get_rec r) Q w.
Proof. unfold wp, get_rec, deref. by destruct (recs w !! r). Qed.

Lemma wp_upd_rec E r f Q w :
  Q tt (mkWorld (alter f r (recs w)) (store w)) → wp E (upd_rec r f) Q w.
Proof. done. Qed.

Lemma wp_new_rec E v Q w :
  Q (length (recs w)) (mkWorld (recs w ++ [v]) (store w)) →
  wp E (new_rec v) Q w.
Proof. done. Qed.

Lemma wp_field {A} E o (f : IntPoint → A) Q w :
  match o ≫= (recs w !!.) with Some v => Q (f v) w | None => E end →
  wp E (field o f) Q w.
Proof.
  intros Hq. unfold field. apply wp_bind, wp_deref.
  destruct o as [r|]; [|done]. simpl in Hq.
  apply wp_bind, wp_get_rec. destruct (recs w !! r); [|done].
  by apply wp_ret.
Qed.

Lemma wp_field_Some {A} E r (f : IntPoint → A) Q w v :
  recs w !! r = Some v → Q (f v) w → wp E (field (Some r) f) Q w.
Proof. intros Hr HQ. apply wp_field. simpl. by rewrite Hr. Qed.

(** A loop keeps an invariant of the elements consumed so far. *)
Lemma wp_fold_each {A S} E (l : list A) (s : S) body
    (I : list A → S → World → Prop) w :
  I [] s w →
  (∀ pre x post s w, l = pre ++ x :: post → I pre s w →
     wp E (body s x) (λ s' w', I (pre ++ [x]) s' w') w) →
  wp E (fold_each l s body) (λ s' w', I l s' w') w.
Proof.
  intros Hinit Hstep.
  cut (∀ post pre s w, l = pre ++ post → I pre s w →
         wp E (fold_each post s body) (λ s' w', I l s' w') w).
  { intros Hc. by apply (Hc l []). }
  clear s w Hinit. induction post as [|x post IH]; intros pre s w Hl Hi.
  - rewrite app_nil_r in Hl. subst. by apply wp_ret.
  - simpl. apply wp_bind. eapply wp_mono; [by eapply Hstep|].
    intros s' w' Hi'. simpl in Hi'. eapply IH; [|done].
    by rewrite <- app_assoc.
Qed.

Lemma wp_for_each {A} E (l : list A) body (I : list A → World → Prop) w :
  I [] w →
  (∀ pre x post w, l = pre ++ x :: post → I pre w →
     wp E (body x) (λ _ w', I (pre ++ [x]) w') w) →
  wp E (for_each l body) (λ _ w', I l w') w.
Proof.
  intros Hinit Hstep.
  cut (∀ post pre w, l = pre ++ post → I pre w →
         wp E (for_each post body) (λ _ w', I l w') w).
  { intros Hc. by apply (Hc l []). }
  clear w Hinit. induction post as [|x post IH]; intros pre w Hl Hi.
  - rewrite app_nil_r in Hl. subst. by apply wp_ret.
  - simpl. apply wp_bind. eapply wp_mono; [by eapply Hstep|].
    intros u w' Hi'. simpl in Hi'. eapply IH; [|done].
    by rewrite <- app_assoc.
Qed.

(** What [f] sees of the result and the world of a run that returns. *)
Definition observe {A B} (m : M A) (w : World) (f : A → World → B)
  : option B :=
  match m w with Normal (a, w') => Some (f a w') | TypeError => None end.

Lemma observe_Some {A B} (m : M A) w (f : A → World → B) b :
  observe m w f = Some b → ∃ a w', m w = Normal (a, w') ∧ f a w' = b.
Proof.
  unfold observe. destruct (m w) as [[a w']|]; [|discriminate].
  intros [= <-]. by exists a, w'.
Qed.

End Reasoning.

Ltac wp_step :=
  first
    [ apply wp_bind
    | apply wp_ret
    | apply wp_get_store
    | apply wp_get_recs
    | apply wp_put_store
    | apply wp_modify_store
    | apply wp_upd_rec
    | apply wp_new_rec ].

(** ** The collector *)

Section Collector.
Context `{PolygonStore}.

Lemma end_vertex_flag (a b : bool) :
  Z.land (if b then Z.lor (if a then Z.lor NOT_VERTEX START_VERTEX else NOT_VERTEX) END_VERTEX
          else (if a then Z.lor NOT_VERTEX START_VERTEX else NOT_VERTEX)) END_VERTEX ≠ 0%Z ↔ b = true.
Proof. destruct a, b; compute; split; congruence. Qed.

(** [C7]: a record emitted by the collector for an edge and a point that the
    split finds on it.  [len] is [0] when the first part of the split is
    [null], the length of the edge's shape when the second part is [null],
    and the length of the first part otherwise.  When the point is the end
    vertex of the edge ([len] equal to the length of the shape under
    epsilon), the arc length of the record is [0] if the arc length of the
    next edge is [0], and [edge.arc_length + len] if not; when the point is
    not the end vertex, it is [edge.arc_length + len]. *)
Theorem addToIntPoints_arc_length edge p int_points w l' w' :
  let st := store w in
  let shape := e_shape st edge in
  let shapes := shape_split shape p in
  shapes ≠ [] →
  addToIntPoints edge p int_points w = Normal (l', w') →
  ∃ r len,
    l' = int_points ++ [length (recs w)] ∧
    recs w' = recs w ++ [r] ∧
    (shapes !! 0 = Some None → len = num_zero) ∧
    (shapes !! 0 ≠ Some None → shapes !! 1 = Some None →
       len = shape_length shape) ∧
    (∀ s0, shapes !! 0 = Some (Some s0) → shapes !! 1 ≠ Some None →
       len = shape_length s0) ∧
    (EQ len (shape_length shape) = true →
       ∃ next, e_next st edge = Some next ∧
         arc_length r = if num_is_zero (e_arc_length st next) then num_zero
                        else num_add (e_arc_length st edge) len) ∧
    (EQ len (shape_length shape) = false →
       arc_length r = num_add (e_arc_length st edge) len).
Proof.
  intros st shape shapes Hne Hrun.
  unfold addToIntPoints in Hrun.
  apply bind_Normal in Hrun as (st1 & w1 & Hst & Hrun).
  injection Hst as <- <-. fold st shape shapes in Hrun.
  destruct (decide (length shapes = 0)) as [Hz|_].
  { destruct shapes; [done | discriminate]. }
  apply bind_Normal in Hrun as (len & w1 & Hlen & Hrun).
  assert (w1 = w ∧ (shapes !! 0 = Some None → len = num_zero) ∧
    (shapes !! 0 ≠ Some None → shapes !! 1 = Some None →
       len = shape_length shape) ∧
    (∀ s0, shapes !! 0 = Some (Some s0) → shapes !! 1 ≠ Some None →
       len = shape_length s0)) as (-> & Hl0 & Hl1 & Hl2).
  { destruct (shapes !! 0) as [[s0|]|] eqn:E0;
      [destruct (shapes !! 1) as [[s1|]|] eqn:E1| |
       destruct (shapes !! 1) as [[s1|]|] eqn:E1]; try discriminate;
      injection Hlen as <- <-; repeat split; intros; simplify_eq; try done. }
  apply bind_Normal in Hrun as (al & w1 & Hal & Hrun).
  assert (w1 = w ∧
    (EQ len (shape_length shape) = true →
       ∃ next, e_next st edge = Some next ∧
         al = if num_is_zero (e_arc_length st next) then num_zero
              else num_add (e_arc_length st edge) len) ∧
    (EQ len (shape_length shape) = false →
       al = num_add (e_arc_length st edge) len)) as (-> & Ha1 & Ha2).
  { destruct (decide _) as [Hend|Hend] in Hal;
      rewrite end_vertex_flag in Hend.
    - apply bind_Normal in Hal as (next & w2 & Hnext & Hal).
      destruct (e_next st edge) as [n|] eqn:En; [|done].
      injection Hnext as <- <-. injection Hal as <- <-.
      split; [done|]. split; [eauto | congruence].
    - injection Hal as <- <-. split; [done|]. split; [congruence | done]. }
  apply bind_Normal in Hrun as (r & w2 & Hnew & Hrun).
  injection Hnew as <- <-. injection Hrun as <- <-.
  eexists _, len. split; [reflexivity|]. split; [reflexivity|]. done.
Qed.

(** [C8]: when the split of the edge's shape at the point has no parts, the
    collector returns normally, with the crossing list it was given and the
    world as it was: no record is made and nothing is thrown. *)
Theorem addToIntPoints_degenerate edge p int_points w :
  shape_split (e_shape (store w) edge) p = [] →
  addToIntPoints edge p int_points w = Normal (int_points, w).
Proof.
  intros Hs. unfold addToIntPoints. rewrite bind_run. simpl.
  rewrite Hs. simpl. reflexivity.
Qed.

End Collector.

(** ** The sorter *)

Section Sorter.
Context `{PolygonStore}.

(** *** Sorting *)

Lemma js_insert_perm {A} (cmp : A → A → Z) x l : js_insert cmp x l ≡ₚ x :: l.
Proof.
  induction l as [|y l IH]; simpl; [done|].
  destruct (decide _); [done|]. rewrite IH. apply Permutation_swap.
Qed.

Lemma js_sort_perm {A} (cmp : A → A → Z) l : js_sort cmp l ≡ₚ l.
Proof.
  induction l as [|x l IH]; simpl; [done|].
  rewrite js_insert_perm. by rewrite IH.
Qed.

Definition in_order {A} (cmp : A → A → Z) (a b : A) : Prop := (cmp a b ≤ 0)%Z.

Lemma js_insert_Sorted {A} (cmp : A → A → Z) x l :
  (∀ a b, (0 < cmp a b)%Z → (cmp b a ≤ 0)%Z) →
  Sorted (in_order cmp) l → Sorted (in_order cmp) (js_insert cmp x l).
Proof.
  intros Hanti. induction 1 as [|y l Hs IH Hhd]; simpl.
  - by repeat constructor.
  - destruct (decide _) as [Hle|Hgt].
    + constructor; [by constructor|]. by constructor.
    + constructor; [done|].
      assert (in_order cmp y x) as Hyx by (apply Hanti; lia).
      destruct Hhd as [|z l Hyz]; simpl; [by constructor|].
      destruct (decide _); by constructor.
Qed.

Lemma js_sort_Sorted {A} (cmp : A → A → Z) l :
  (∀ a b, (0 < cmp a b)%Z → (cmp b a ≤ 0)%Z) →
  Sorted (in_order cmp) (js_sort cmp l).
Proof.
  intros Hanti. induction l as [|x l IH]; simpl; [constructor|].
  by apply js_insert_Sorted.
Qed.

(** *** Face ids *)

(** The faces of a list in the order in which they first appear. *)
Definition first_seen (fs : list (option Face)) : list (option Face) :=
  foldl (λ acc f, if decide (f ∈ acc) then acc else acc ++ [f]) [] fs.

Lemma first_seen_snoc fs f :
  first_seen (fs ++ [f]) =
  if decide (f ∈ first_seen fs) then first_seen fs else first_seen fs ++ [f].
Proof. unfold first_seen. by rewrite foldl_snoc. Qed.

Lemma first_seen_NoDup fs : NoDup (first_seen fs).
Proof.
  induction fs as [|f fs IH] using rev_ind; [constructor|].
  rewrite first_seen_snoc. destruct (decide _); [done|].
  apply NoDup_app. split; [done|]. split; [set_solver|]. apply NoDup_singleton.
Qed.

Lemma first_seen_elem fs f : f ∈ first_seen fs ↔ f ∈ fs.
Proof.
  induction fs as [|g fs IH] using rev_ind; [done|].
  rewrite first_seen_snoc. destruct (decide _); set_solver.
Qed.

(** The face of the record behind a reference. *)
Definition face_of (rs : list IntPoint) (r : ipref) : option Face :=
  rs !! r ≫= face.

(** The map that the first loop of [getSortedArray] builds over a prefix. *)
Definition numbering (m : gmap (option Face) Z) (n : Z)
    (seen : list (option Face)) : Prop :=
  n = Z.of_nat (length seen) ∧
  ∀ f, m !! f = Z.of_nat <$> (fst <$> list_find (λ g, g = f) seen).

Lemma list_find_snoc_eq (seen : list (option Face)) f :
  f ∉ seen →
  fst <$> list_find (λ g, g = f) (seen ++ [f]) = Some (length seen).
Proof.
  intros Hf. rewrite list_find_app_r.
  - simpl. rewrite decide_True by done. simpl. done.
  - apply list_find_None. apply Forall_forall. intros x Hx ->. done.
Qed.

Lemma list_find_snoc_ne (seen : list (option Face)) f g :
  f ≠ g →
  fst <$> list_find (λ h, h = g) (seen ++ [f]) =
  fst <$> list_find (λ h, h = g) seen.
Proof.
  intros Hfg. destruct (list_find (λ h, h = g) seen) as [[i x]|] eqn:E.
  - by erewrite list_find_app_l.
  - rewrite list_find_app_r by done. simpl. by rewrite decide_False.
Qed.

Lemma numbering_step m n seen f :
  numbering m n seen →
  numbering (if decide (is_Some (m !! f)) then m else <[f := n]> m)
            (if decide (is_Some (m !! f)) then n else (n + 1)%Z)
            (if decide (f ∈ seen) then seen else seen ++ [f]).
Proof.
  intros [-> Hm].
  assert (is_Some (m !! f) ↔ f ∈ seen) as Hiff.
  { rewrite Hm. rewrite !fmap_is_Some. split.
    - intros [[i x] Hfind]. apply list_find_Some in Hfind as (Hi & -> & _).
      by eapply list_elem_of_lookup_2.
    - intros Hin.
      destruct (list_find_elem_of (λ g, g = f) seen f Hin eq_refl) as [y Hy].
      rewrite Hy. eauto. }
  destruct (decide (is_Some _)) as [Hs|Hs], (decide (f ∈ seen)); try tauto.
  - done.
  - split; [rewrite length_app; simpl; lia|]. intros g.
    destruct (decide (f = g)) as [<-|Hfg].
    + rewrite lookup_insert_eq. by rewrite list_find_snoc_eq.
    + rewrite lookup_insert_ne by done. rewrite Hm.
      by rewrite list_find_snoc_ne.
Qed.


(** The face id that [getSortedArray] gives to face [f] among the records
    [l]: its position among the faces in first-seen order. *)
Definition dense_face_id (rs : list IntPoint) (l : list ipref)
    (f : option Face) : option Z :=
  Z.of_nat <$> (fst <$> list_find (λ g, g = f) (first_seen (face_of rs <$> l))).

Lemma set_faceId_idemp v u x : set_faceId v (set_faceId u x) = set_faceId v x.
Proof. done. Qed.

Lemma wp_getSortedArray l w :
  (∀ r, r ∈ l → is_Some (recs w !! r)) →
  wp False (getSortedArray l)
    (λ s w', store w' = store w ∧
       (∀ r, recs w' !! r =
             (λ x, if decide (r ∈ l)
                   then set_faceId (dense_face_id (recs w) l (face x)) x
                   else x) <$> recs w !! r) ∧
       s = js_sort (compare_refs (recs w')) l) w.
Proof.
  intros Hv. unfold getSortedArray. apply wp_bind.
  eapply wp_mono.
  { apply (wp_fold_each _ _ _ _
      (λ pre s w', w' = w ∧
         numbering s.1 s.2 (first_seen (face_of (recs w) <$> pre)))).
    - split; [done|]. split; [done|]. intros f. simpl. apply lookup_empty.
    - intros pre x post [m n] w' Hl [-> Hnum]. simpl in Hnum.
      destruct (Hv x) as [v Hx]; [subst; set_solver|].
      eapply wp_bind, wp_field_Some; [done|].
      pose proof (numbering_step _ _ _ (face v) Hnum) as Hstep.
      assert (first_seen (face_of (recs w) <$> pre ++ [x]) =
              if decide (face v ∈ first_seen (face_of (recs w) <$> pre))
              then first_seen (face_of (recs w) <$> pre)
              else first_seen (face_of (recs w) <$> pre) ++ [face v]) as ->.
      { rewrite fmap_app.
        change (face_of (recs w) <$> [x]) with [face_of (recs w) x].
        rewrite first_seen_snoc.
        assert (face_of (recs w) x = face v) as ->; [|done].
        unfold face_of. by rewrite Hx. }
      destruct (decide (is_Some _)); apply wp_ret; by split. }
  intros [m n] w' [-> [_ Hm]]. simpl in Hm.
  apply wp_bind. eapply wp_mono.
  { apply (wp_for_each _ _ _
      (λ pre w', store w' = store w ∧
         ∀ r, recs w' !! r =
              (λ x, if decide (r ∈ pre)
                    then set_faceId (dense_face_id (recs w) l (face x)) x
                    else x) <$> recs w !! r)).
    - split; [done|]. intros r. by destruct (recs w !! r).
    - intros pre x post w' Hl [Hst Hrs].
      destruct (Hv x) as [v Hx]; [subst; set_solver|].
      eapply wp_bind, wp_field_Some; [by rewrite Hrs, Hx|].
      assert (face (if decide (x ∈ pre)
                    then set_faceId (dense_face_id (recs w) l (face v)) v
                    else v) = face v) as -> by (by destruct (decide _)).
      apply wp_upd_rec. simpl. split; [done|]. intros r.
      destruct (decide (r = x)) as [->|Hne].
      + rewrite list_lookup_alter_eq, Hrs, Hx. simpl.
        rewrite (decide_True (P := x ∈ pre ++ [x])) by set_solver.
        rewrite Hm. unfold dense_face_id. by destruct (decide _).
      + rewrite list_lookup_alter_ne by done. rewrite Hrs.
        destruct (recs w !! r); simpl; [|done].
        destruct (decide (r ∈ pre)), (decide (r ∈ pre ++ [x]));
          try done; set_solver. }
  intros _ w' [Hst Hrs]. by apply wp_bind, wp_get_recs, wp_ret.
Qed.


Lemma Sorted_lookup_S {A} (R : relation A) l i a b :
  Sorted R l → l !! i = Some a → l !! S i = Some b → R a b.
Proof.
  intros Hs. revert i. induction Hs as [|x l Hs IH Hhd]; intros i Ha Hb; [done|].
  destruct i as [|i]; simpl in *.
  - injection Ha as ->. destruct Hhd as [|y l' Hxy]; [done|].
    simpl in Hb. by injection Hb as <-.
  - by eapply IH.
Qed.

Lemma Sorted_on {A} (R R' : relation A) l :
  (∀ a b, a ∈ l → b ∈ l → R a b → R' a b) → Sorted R l → Sorted R' l.
Proof.
  intros Himp Hs. induction Hs as [|x l Hs IH Hhd]; [constructor|].
  constructor.
  - apply IH. intros a b Ha Hb. apply Himp; set_solver.
  - destruct Hhd as [|y l Hxy]; constructor. apply Himp; set_solver.
Qed.

Lemma StronglySorted_lookup_lt {A} (R : relation A) l i j a b :
  StronglySorted R l → i < j → l !! i = Some a → l !! j = Some b → R a b.
Proof.
  intros Hs. revert i j. induction Hs as [|x l Hs IH Hall]; intros i j Hij Ha Hb;
    [done|].
  destruct j as [|j]; [lia|]. destruct i as [|i]; simpl in *.
  - simplify_eq. rewrite Forall_forall in Hall. apply Hall.
    by eapply list_elem_of_lookup_2.
  - eapply IH; [|done..]. lia.
Qed.

Section Order.
Hypothesis GT_asym : ∀ a b, GT a b = true → GT b a = false.
Hypothesis LT_not_GT : ∀ a b, LT a b = true → GT a b = false.

Lemma compareFn_antisym x y :
  (0 < compareFn x y)%Z → (compareFn y x ≤ 0)%Z.
Proof using GT_asym.
  unfold compareFn, js_gt.
  destruct (js_lt (faceId x) (faceId y)) eqn:E1; [lia|].
  destruct (js_lt (faceId y) (faceId x)) eqn:E2; [lia|].
  destruct (LT (arc_length x) (arc_length y)) eqn:E3; [lia|].
  destruct (GT (arc_length x) (arc_length y)) eqn:E4; [|lia].
  intros _. rewrite (GT_asym _ _ E4).
  destruct (LT (arc_length y) (arc_length x)); lia.
Qed.

Lemma compare_refs_antisym rs a b :
  (0 < compare_refs rs a b)%Z → (compare_refs rs b a ≤ 0)%Z.
Proof using GT_asym.
  unfold compare_refs. destruct (rs !! a), (rs !! b); try lia.
  apply compareFn_antisym.
Qed.

Lemma compareFn_face_order x y fx fy :
  faceId x = Some fx → faceId y = Some fy →
  (compareFn x y ≤ 0)%Z → (fx ≤ fy)%Z.
Proof.
  intros Hx Hy. unfold compareFn, js_gt, js_lt. rewrite Hx, Hy.
  repeat case_bool_decide; try lia.
Qed.

Lemma compareFn_arc_order x y :
  faceId x = faceId y → (compareFn x y ≤ 0)%Z →
  GT (arc_length x) (arc_length y) = false.
Proof using LT_not_GT.
  intros Hf. unfold compareFn, js_gt, js_lt. rewrite Hf.
  destruct (faceId y) as [fy|].
  - rewrite bool_decide_eq_false_2 by lia.
    destruct (LT (arc_length x) (arc_length y)) eqn:E3; [by auto|].
    destruct (GT (arc_length x) (arc_length y)); [lia|done].
  - destruct (LT (arc_length x) (arc_length y)) eqn:E3; [by auto|].
    destruct (GT (arc_length x) (arc_length y)); [lia|done].
Qed.

(** [C6], as the code has it.  The sorter returns the records it was given,
    stamped with the position of their face among the faces in first-seen
    order, in an order in which face ids never decrease and in which, of two
    consecutive records of one face, the first is not beyond the second in arc
    length under the tolerant comparison [GT].  It promises nothing on the
    edges of records of equal arc length. *)
Theorem getSortedArray_order l w :
  (∀ r, r ∈ l → is_Some (recs w !! r)) →
  ∃ s w',
    getSortedArray l w = Normal (s, w') ∧
    s ≡ₚ l ∧
    (∀ r x, r ∈ l → recs w !! r = Some x →
       ∃ k, first_seen (face_of (recs w) <$> l) !! k = Some (face x) ∧
            recs w' !! r = Some (set_faceId (Some (Z.of_nat k)) x)) ∧
    (∀ i j a b xa xb, i < j → s !! i = Some a → s !! j = Some b →
       recs w' !! a = Some xa → recs w' !! b = Some xb →
       ∃ fa fb, faceId xa = Some fa ∧ faceId xb = Some fb ∧ (fa ≤ fb)%Z) ∧
    (∀ i a b xa xb, s !! i = Some a → s !! S i = Some b →
       recs w' !! a = Some xa → recs w' !! b = Some xb →
       face xa = face xb →
       GT (arc_length xa) (arc_length xb) = false).
Proof using GT_asym LT_not_GT.
  intros Hv.
  pose proof (wp_getSortedArray l w Hv) as Hwp.
  apply wp_returns in Hwp as (s & w' & Hrun & Hst & Hrs & Hs).
  exists s, w'. split; [done|].
  assert (s ≡ₚ l) as Hperm by (rewrite Hs; apply js_sort_perm).
  split; [done|].
  assert (∀ r x, r ∈ l → recs w !! r = Some x →
       ∃ k, first_seen (face_of (recs w) <$> l) !! k = Some (face x) ∧
            recs w' !! r = Some (set_faceId (Some (Z.of_nat k)) x)) as Hids.
  { intros r x Hr Hx. rewrite Hrs, Hx. simpl. rewrite decide_True by done.
    unfold dense_face_id.
    assert (face x ∈ first_seen (face_of (recs w) <$> l)) as Hin.
    { apply first_seen_elem, list_elem_of_fmap. exists r. split; [|done].
      unfold face_of. by rewrite Hx. }
    destruct (list_find_elem_of (λ g, g = face x) _ _ Hin eq_refl)
      as [[k g] Hfind].
    rewrite Hfind. simpl. exists k. split; [|done].
    by apply list_find_Some in Hfind as (? & -> & _). }
  split; [done|].
  assert (Sorted (in_order (compare_refs (recs w'))) s) as Hsorted.
  { rewrite Hs. apply js_sort_Sorted. intros a b. apply compare_refs_antisym. }
  assert (∀ a xa, a ∈ s → recs w' !! a = Some xa →
            ∃ x, recs w !! a = Some x ∧ face xa = face x ∧
                 arc_length xa = arc_length x ∧
                 ∃ k, first_seen (face_of (recs w) <$> l) !! k = Some (face x) ∧
                      faceId xa = Some (Z.of_nat k)) as Hrec.
  { intros a xa Ha Hxa. rewrite Hperm in Ha.
    destruct (Hv a Ha) as [x Hx]. destruct (Hids a x Ha Hx) as (k & Hk & Hxa').
    rewrite Hxa in Hxa'. injection Hxa' as ->. eauto 10. }
  assert (∀ a b xa xb, a ∈ s → b ∈ s →
            recs w' !! a = Some xa → recs w' !! b = Some xb →
            compare_refs (recs w') a b = compareFn xa xb) as Hcmp.
  { intros a b xa xb _ _ Hxa Hxb. unfold compare_refs. by rewrite Hxa, Hxb. }
  split.
  - intros i j a b xa xb Hij Ha Hb Hxa Hxb.
    set (fid := λ r : ipref, default 0%Z (recs w' !! r ≫= faceId)).
    assert (StronglySorted (λ a b, (fid a ≤ fid b)%Z) s) as Hss.
    { apply Sorted_StronglySorted.
      - intros x y z ??. lia.
      - eapply Sorted_on; [|done]. intros c d Hc Hd Hcd.
        destruct (Hv c) as [xc0 Hc0]; [by rewrite <- Hperm|].
        destruct (Hv d) as [xd0 Hd0]; [by rewrite <- Hperm|].
        destruct (Hids c xc0) as (kc & _ & Hxc); [by rewrite <- Hperm|done|].
        destruct (Hids d xd0) as (kd & _ & Hxd); [by rewrite <- Hperm|done|].
        unfold in_order in Hcd. erewrite Hcmp in Hcd by done.
        unfold fid. rewrite Hxc, Hxd. simpl.
        eapply compareFn_face_order in Hcd; [exact Hcd|done..]. }
    pose proof (StronglySorted_lookup_lt _ _ _ _ _ _ Hss Hij Ha Hb) as Hle.
    destruct (Hrec a xa) as (_ & _ & _ & _ & ka & _ & Hfa);
      [by eapply list_elem_of_lookup_2|done|].
    destruct (Hrec b xb) as (_ & _ & _ & _ & kb & _ & Hfb);
      [by eapply list_elem_of_lookup_2|done|].
    unfold fid in Hle. rewrite Hxa, Hxb in Hle. simpl in Hle.
    rewrite Hfa, Hfb in Hle. eauto.
  - intros i a b xa xb Ha Hb Hxa Hxb Hface.
    pose proof (Sorted_lookup_S _ _ _ _ _ Hsorted Ha Hb) as Hab.
    unfold in_order in Hab.
    assert (a ∈ s) as Has by (by eapply list_elem_of_lookup_2).
    assert (b ∈ s) as Hbs by (by eapply list_elem_of_lookup_2).
    erewrite Hcmp in Hab by done.
    apply compareFn_arc_order; [|done].
    destruct (Hrec a xa Has Hxa) as (x & _ & Hfx & _ & ka & Hka & ->).
    destruct (Hrec b xb Hbs Hxb) as (y & _ & Hfy & _ & kb & Hkb & ->).
    rewrite <- Hfx in Hka. rewrite <- Hfy, <- Hface in Hkb.
    f_equal. f_equal.
    eapply NoDup_lookup; [apply first_seen_NoDup|done..].
Qed.

End Order.

End Sorter.

(** ** The duplicate filter *)

Section Filter.
Context `{PolygonStore}.

Definition unmarked (rs : list IntPoint) (r : ipref) : Prop :=
  ∃ x, rs !! r = Some x ∧ id x ≠ (-1)%Z.

(** [P] and [Q] are paired by index, up to the records marked for deletion,
    which are marked on both sides. *)
Definition lockstep (rs : list IntPoint) (P Q : list ipref) : Prop :=
  length P = length Q ∧
  ∀ i p q, P !! i = Some p → Q !! i = Some q →
    ∃ x y, rs !! p = Some x ∧ rs !! q = Some y ∧
      equalTo (pt x) (pt y) = true ∧
      ((id x = Z.of_nat i ∧ id y = Z.of_nat i) ∨
       (id x = (-1)%Z ∧ id y = (-1)%Z)).

Definition paired (rs : list IntPoint) (P Q : list ipref) : Prop :=
  length P = length Q ∧
  ∀ i p q, P !! i = Some p → Q !! i = Some q →
    ∃ x y, rs !! p = Some x ∧ rs !! q = Some y ∧
      id x = Z.of_nat i ∧ id y = Z.of_nat i ∧
      equalTo (pt x) (pt y) = true.

Lemma paired_lockstep rs P Q : paired rs P Q → lockstep rs P Q.
Proof.
  intros [Hlen Hp]. split; [done|]. intros i p q Hi Hq.
  destruct (Hp i p q Hi Hq) as (x & y & ? & ? & ? & ? & ?).
  exists x, y. naive_solver.
Qed.

Lemma js_index_nat {A} (l : list A) (i : nat) : js_index l (Z.of_nat i) = l !! i.
Proof. unfold js_index. rewrite decide_True by lia. by rewrite Nat2Z.id. Qed.

Lemma js_index_neg {A} (l : list A) : js_index l (-1) = None.
Proof. unfold js_index. by rewrite decide_False by lia. Qed.

Lemma lockstep_partner rs P Q i p :
  lockstep rs P Q → P !! i = Some p → ∃ q, Q !! i = Some q.
Proof.
  intros [Hlen _] Hp. apply lookup_lt_is_Some. rewrite <- Hlen.
  by eapply lookup_lt_Some.
Qed.

Lemma lockstep_partner' rs P Q i q :
  lockstep rs P Q → Q !! i = Some q → ∃ p, P !! i = Some p.
Proof.
  intros [Hlen _] Hp. apply lookup_lt_is_Some. rewrite Hlen.
  by eapply lookup_lt_Some.
Qed.

Lemma NoDup_app_lookup (P Q : list ipref) i j x :
  NoDup (P ++ Q) → P !! i = Some x → Q !! j = Some x → False.
Proof.
  intros (_ & Hdisj & _)%NoDup_app Hp Hq.
  apply (Hdisj x); by eapply list_elem_of_lookup_2.
Qed.

Lemma lockstep_mark rs P Q i p q :
  NoDup (P ++ Q) → lockstep rs P Q → P !! i = Some p → Q !! i = Some q →
  lockstep (alter (set_id (-1)) q (alter (set_id (-1)) p rs)) P Q.
Proof.
  intros Hnd [Hlen Hl] Hp Hq. split; [done|].
  intros j p' q' Hp' Hq'.
  destruct (Hl j p' q' Hp' Hq') as (x & y & Hx & Hy & Hpt & Hid).
  assert (p ≠ q) as Hpq by (intros ->; eauto using NoDup_app_lookup).
  assert (p' ≠ q) as Hp'q by (intros ->; eauto using NoDup_app_lookup).
  assert (p ≠ q') as Hpq' by (intros ->; eauto using NoDup_app_lookup).
  apply NoDup_app in Hnd as (HndP & Hdisj & HndQ).
  destruct (decide (j = i)) as [->|Hji].
  - simplify_eq. exists (set_id (-1) x), (set_id (-1) y).
    rewrite list_lookup_alter_ne by done. rewrite !list_lookup_alter_eq.
    rewrite list_lookup_alter_ne by done. rewrite Hx, Hy. simpl. eauto 10.
  - assert (p' ≠ p) by (intros ->; eauto using NoDup_lookup).
    assert (q' ≠ q) by (intros ->; eauto using NoDup_lookup).
    exists x, y. rewrite !list_lookup_alter_ne by done. eauto.
Qed.

Lemma unmarked_alter_ne rs f r r' :
  r ≠ r' → unmarked rs r' → unmarked (alter f r rs) r'.
Proof. intros Hne (x & Hx & Hid). exists x. by rewrite list_lookup_alter_ne. Qed.

Lemma unmarked_index rs P Q i p :
  lockstep rs P Q → P !! i = Some p → unmarked rs p →
  ∃ x, rs !! p = Some x ∧ id x = Z.of_nat i.
Proof.
  intros Hl Hp (x & Hx & Hid).
  destruct (lockstep_partner _ _ _ _ _ Hl Hp) as [q Hq].
  destruct Hl as [_ Hl].
  destruct (Hl i p q Hp Hq) as (x' & y & Hx' & Hy & Hpt & Hids).
  simplify_eq. eexists. split; [eassumption|].
  destruct Hids as [[??]|[??]]; congruence.
Qed.

Lemma unmarked_index' rs P Q i q :
  lockstep rs P Q → Q !! i = Some q → unmarked rs q →
  ∃ y, rs !! q = Some y ∧ id y = Z.of_nat i.
Proof.
  intros Hl Hq (y & Hy & Hid).
  destruct (lockstep_partner' _ _ _ _ _ Hl Hq) as [p Hp].
  destruct Hl as [_ Hl].
  destruct (Hl i p q Hp Hq) as (x' & y' & Hx' & Hy' & Hpt & Hids).
  simplify_eq. eexists. split; [eassumption|].
  destruct Hids as [[??]|[??]]; congruence.
Qed.

Lemma lockstep_valid_l rs P Q p :
  lockstep rs P Q → p ∈ P → is_Some (rs !! p).
Proof.
  intros Hl [i Hp]%list_elem_of_lookup_1.
  destruct (lockstep_partner _ _ _ _ _ Hl Hp) as [q Hq].
  destruct Hl as [_ Hl]. destruct (Hl i p q Hp Hq) as (x & y & ? & ?). eauto.
Qed.

Lemma lockstep_valid_r rs P Q q :
  lockstep rs P Q → q ∈ Q → is_Some (rs !! q).
Proof.
  intros Hl [i Hq]%list_elem_of_lookup_1.
  destruct (lockstep_partner' _ _ _ _ _ Hl Hq) as [p Hp].
  destruct Hl as [_ Hl]. destruct (Hl i p q Hp Hq) as (x & y & ? & ? & ?). eauto.
Qed.

(** [same_edges] on four records that exist only reads. *)
Lemma wp_same_edges E a b c d Q w :
  is_Some (recs w !! a) → is_Some (recs w !! b) →
  is_Some (recs w !! c) → is_Some (recs w !! d) →
  (∀ r, Q r w) →
  wp E (same_edges (Some a) (Some b) (Some c) (Some d)) Q w.
Proof.
  intros [xa Ha] [xb Hb] [xc Hc] [xd Hd] HQ. unfold same_edges.
  apply wp_bind, wp_field; simpl; rewrite Ha.
  apply wp_bind, wp_field; simpl; rewrite Hb.
  destruct (decide _); [|by apply wp_ret].
  apply wp_bind, wp_field; simpl; rewrite Ha.
  apply wp_bind, wp_field; simpl; rewrite Hb.
  destruct (decide _); [|by apply wp_ret].
  apply wp_bind, wp_field; simpl; rewrite Hc.
  apply wp_bind, wp_field; simpl; rewrite Hd.
  destruct (decide _); [|by apply wp_ret].
  apply wp_bind, wp_field; simpl; rewrite Hc.
  apply wp_bind, wp_field; simpl; rewrite Hd.
  by apply wp_ret.
Qed.

Definition sweep1_inv (w0 : World) (P Q visited : list ipref)
    (s : option ipref * option ipref * bool) (w : World) : Prop :=
  store w = store w0 ∧ lockstep (recs w) P Q ∧
  (∀ r, r ∈ P → r ∉ visited → unmarked (recs w) r) ∧
  (∃ r1 q1, s.1.1 = Some r1 ∧ r1 ∈ P ∧ r1 ∈ visited ∧ unmarked (recs w) r1 ∧
            s.1.2 = Some q1 ∧ q1 ∈ Q) ∧
  (s.2 = false → recs w = recs w0).

Lemma sweep1_step w0 P Q visited cur1 s w :
  NoDup (P ++ Q) → cur1 ∈ P → cur1 ∉ visited →
  sweep1_inv w0 P Q visited s w →
  wp False (mark_sweep1 Q s cur1)
    (λ s' w', sweep1_inv w0 P Q (visited ++ [cur1]) s' w') w.
Proof.
  intros Hnd Hcur Hnv (Hst & Hl & Hun & (r1 & q1 & Hr1 & Hr1P & Hr1v & Hr1u & Hr2 & Hq1) & Hsq).
  destruct s as [[ref1 ref2] sq]. simpl in *. subst ref1 ref2.
  pose proof (Hun cur1 Hcur Hnv) as Hcu.
  destruct Hr1u as (x1 & Hx1 & Hid1).
  apply list_elem_of_lookup_1 in Hcur as Hcur'. destruct Hcur' as [i Hi].
  destruct (unmarked_index _ _ _ _ _ Hl Hi Hcu) as (xc' & Hxc' & Hidi).
  destruct (lockstep_partner _ _ _ _ _ Hl Hi) as [q Hq].
  assert (q ∈ Q) as HqQ by (by eapply list_elem_of_lookup_2).
  unfold mark_sweep1.
  apply wp_bind, wp_field; simpl; rewrite Hxc'.
  apply wp_bind, wp_field; simpl; rewrite Hx1.
  destruct (negb _).
  - apply wp_bind, wp_field; simpl; rewrite Hxc'. apply wp_ret.
    rewrite Hidi, js_index_nat, Hq.
    split; [done|]. split; [done|]. split.
    { intros r Hr Hnr. apply Hun; [done|]. set_solver. }
    split; [|done]. exists cur1, q. simpl.
    split; [done|]. split; [done|]. split; [set_solver|]. done.
  - apply wp_bind, wp_field; simpl; rewrite Hxc'.
    rewrite Hidi, js_index_nat, Hq.
    apply wp_bind, wp_same_edges; eauto using lockstep_valid_r.
    intros [|].
    + apply wp_bind, wp_upd_rec, wp_bind, wp_deref, wp_bind, wp_upd_rec, wp_ret.
      simpl. assert (cur1 ≠ r1) by set_solver.
      apply NoDup_app in Hnd as Hnd'. destruct Hnd' as (HndP & Hdisj & HndQ).
      assert (q ≠ r1) by (intros ->; by eapply Hdisj).
      split; [done|]. split; [by eapply lockstep_mark|]. split.
      { intros r Hr Hnr. apply unmarked_alter_ne, unmarked_alter_ne.
        - intros ->. by eapply Hdisj.
        - set_solver.
        - apply Hun; [done|]. set_solver. }
      split; [|done]. exists r1, q1.
      split; [done|]. split; [done|]. split; [set_solver|]. split; [|done].
      apply unmarked_alter_ne, unmarked_alter_ne; [done..|]. by exists x1.
    + apply wp_ret. split; [done|]. split; [done|]. split.
      { intros r Hr Hnr. apply Hun; [done|]. set_solver. }
      split; [|done]. exists r1, q1.
      split; [done|]. split; [done|]. split; [set_solver|]. split; [|done].
      by exists x1.
Qed.


Definition sweep2_inv (w0 : World) (P Q visited : list ipref)
    (s : option ipref * option ipref * bool) (w : World) : Prop :=
  store w = store w0 ∧ lockstep (recs w) P Q ∧
  (∃ q2, s.1.2 = Some q2 ∧ q2 ∈ Q ∧ q2 ∈ visited ∧
         (unmarked (recs w) q2 → ∃ p, s.1.1 = Some p ∧ p ∈ P)) ∧
  (s.2 = false → recs w = recs w0).

Lemma sweep2_step w0 P Q visited cur2 s w :
  NoDup (P ++ Q) → cur2 ∈ Q → cur2 ∉ visited →
  sweep2_inv w0 P Q visited s w →
  wp False (mark_sweep2 P s cur2)
    (λ s' w', sweep2_inv w0 P Q (visited ++ [cur2]) s' w') w.
Proof.
  intros Hnd Hcur Hnv (Hst & Hl & (q2 & Hr2 & Hq2 & Hq2v & Hr1) & Hsq).
  destruct s as [[ref1 ref2] sq]. simpl in *. subst ref2.
  destruct (lockstep_valid_r _ _ _ _ Hl Hcur) as [yc Hyc].
  destruct (lockstep_valid_r _ _ _ _ Hl Hq2) as [y2 Hy2].
  unfold mark_sweep2.
  apply wp_bind, wp_field; simpl; rewrite Hyc.
  destruct (decide (id yc = -1)%Z) as [Hm|Hm].
  { apply wp_ret. split; [done|]. split; [done|]. split; [|done].
    exists q2. simpl. split; [done|]. split; [done|]. split; [set_solver|done]. }
  apply list_elem_of_lookup_1 in Hcur as Hcur'. destruct Hcur' as [k Hk].
  destruct (unmarked_index' _ _ _ _ _ Hl Hk (ex_intro _ yc (conj Hyc Hm)))
    as (yc' & Hyc' & Hidk).
  rewrite Hyc in Hyc'. injection Hyc' as <-.
  destruct (lockstep_partner' _ _ _ _ _ Hl Hk) as [p Hp].
  assert (p ∈ P) as HpP by (by eapply list_elem_of_lookup_2).
  apply wp_bind, wp_field; simpl; rewrite Hy2.
  assert (∀ (fresh : bool), (fresh = false → id y2 ≠ (-1)%Z) →
    wp False
      (if fresh then mret (js_index P (id yc), Some cur2, sq)
       else
         dup ← same_edges (js_index P (id yc)) ref1 (Some cur2) (Some q2);
         if (dup : bool) then
           c1 ← deref (js_index P (id yc));
           upd_rec c1 (set_id (-1));; upd_rec cur2 (set_id (-1));;
           mret (ref1, Some q2, true)
         else mret (ref1, Some q2, sq))
      (λ s' w', sweep2_inv w0 P Q (visited ++ [cur2]) s' w') w) as Hrest.
  { intros fresh Hfresh. rewrite Hidk, js_index_nat, Hp. destruct fresh.
    - apply wp_ret. split; [done|]. split; [done|]. split; [|done].
      exists cur2. simpl. split; [done|]. split; [done|].
      split; [set_solver|]. eauto.
    - destruct Hr1 as (p1 & -> & Hp1); [by exists y2; eauto|].
      apply wp_bind, wp_same_edges;
        eauto using lockstep_valid_l, lockstep_valid_r.
      intros [|].
      + apply wp_bind, wp_deref, wp_bind, wp_upd_rec, wp_bind, wp_upd_rec,
          wp_ret. simpl.
        split; [done|]. split; [by eapply lockstep_mark|]. split; [|done].
        exists q2. simpl. split; [done|]. split; [done|].
        split; [set_solver|]. eauto.
      + apply wp_ret. split; [done|]. split; [done|]. split; [|done].
        exists q2. simpl. split; [done|]. split; [done|].
        split; [set_solver|]. eauto. }
  apply wp_bind. destruct (decide (id y2 = -1)%Z) as [Hj|Hj].
  - apply wp_ret. by apply (Hrest true).
  - apply wp_bind, wp_field; simpl; rewrite Hyc.
    apply wp_bind, wp_field; simpl; rewrite Hy2.
    apply wp_ret. by apply (Hrest (negb _)).
Qed.

(** *** Squeezing *)

Fixpoint keep_live (rs : list IntPoint) (l : list ipref) : list ipref :=
  match l with
  | [] => []
  | x :: l' =>
      match rs !! x with
      | Some v => if decide (0 ≤ id v)%Z then x :: keep_live rs l'
                  else keep_live rs l'
      | None => keep_live rs l'
      end
  end.

Lemma wp_filter_live E l w Q :
  (∀ r, r ∈ l → is_Some (recs w !! r)) →
  Q (keep_live (recs w) l) w →
  wp E (filter_live l) Q w.
Proof.
  revert Q. induction l as [|x l IH]; intros Q Hv HQ; simpl in *.
  - by apply wp_ret.
  - destruct (Hv x) as [v Hx]; [set_solver|]. rewrite Hx in HQ.
    apply wp_bind, wp_field; simpl; rewrite Hx.
    apply wp_bind, IH; [intros; apply Hv; set_solver|].
    by apply wp_ret.
Qed.

Lemma keep_live_sublist rs l : sublist (keep_live rs l) l.
Proof.
  induction l as [|x l IH]; simpl; [constructor|].
  destruct (rs !! x) as [v|]; [destruct (decide _)|]; by constructor.
Qed.

(** Crossings at the same place, whatever their ids. *)
Definition same_place (rs : list IntPoint) (p q : ipref) : Prop :=
  ∃ x y, rs !! p = Some x ∧ rs !! q = Some y ∧ equalTo (pt x) (pt y) = true.

Lemma keep_live_lockstep rs P Q :
  lockstep rs P Q →
  Forall2 (same_place rs) (keep_live rs P) (keep_live rs Q).
Proof.
  intros [Hlen Hl].
  assert (Forall2 (λ p q, ∃ x y, rs !! p = Some x ∧ rs !! q = Some y ∧
            equalTo (pt x) (pt y) = true ∧
            ((0 ≤ id x)%Z ↔ (0 ≤ id y)%Z)) P Q) as HF.
  { apply Forall2_same_length_lookup_2; [done|]. intros i p q Hp Hq.
    destruct (Hl i p q Hp Hq) as (x & y & ? & ? & ? & Hid).
    exists x, y. repeat split; try done; lia. }
  clear Hlen Hl. induction HF as [|p q P Q (x & y & Hx & Hy & Hpt & Hid) HF IH];
    simpl; [constructor|].
  rewrite Hx, Hy. destruct (decide (0 ≤ id x)%Z), (decide (0 ≤ id y)%Z);
    try tauto. constructor; [|done]. by exists x, y.
Qed.

(** *** Renumbering *)

Lemma wp_renumber_from k l w :
  NoDup l → (∀ r, r ∈ l → is_Some (recs w !! r)) →
  wp False
    (for_each (imap (λ index x, (k + index, x)) l)
       (λ '(index, x), upd_rec x (set_id (Z.of_nat index))))
    (λ _ w', store w' = store w ∧
       (∀ i r, l !! i = Some r →
          ∃ x, recs w !! r = Some x ∧
               recs w' !! r = Some (set_id (Z.of_nat (k + i)) x)) ∧
       (∀ r, r ∉ l → recs w' !! r = recs w !! r)) w.
Proof.
  revert k w. induction l as [|x l IH]; intros k w Hnd Hv; simpl.
  - apply wp_ret. split; [done|]. split; [|done]. intros i r Hi. done.
  - apply NoDup_cons in Hnd as [Hx Hnd].
    apply wp_bind, wp_upd_rec.
    erewrite imap_ext; [|intros i y _; simpl; by rewrite Nat.add_succ_r].
    eapply wp_mono; [apply (IH (S k)); [done|]|].
    { intros r Hr. simpl. rewrite list_lookup_alter_ne by set_solver.
      apply Hv. set_solver. }
    simpl. intros _ w' (Hst & Hin & Hout). split; [done|]. split.
    + intros [|i] r Hi; simpl in Hi.
      * assert (r = x) as -> by congruence.
        destruct (Hv x) as [v Hr]; [set_solver|].
        exists v. split; [done|]. rewrite Hout by done.
        rewrite list_lookup_alter_eq, Hr. simpl. by rewrite Nat.add_0_r.
      * destruct (Hin i r Hi) as (v & Hr & Hr').
        assert (r ≠ x) by (intros ->; apply Hx; by eapply list_elem_of_lookup_2).
        rewrite list_lookup_alter_ne in Hr by done.
        exists v. split; [done|]. by rewrite Hr', Nat.add_succ_r.
    + intros r Hr. rewrite Hout by set_solver.
      rewrite list_lookup_alter_ne; [done|set_solver].
Qed.

Lemma wp_renumber l w :
  NoDup l → (∀ r, r ∈ l → is_Some (recs w !! r)) →
  wp False (renumber l)
    (λ _ w', store w' = store w ∧
       (∀ i r, l !! i = Some r →
          ∃ x, recs w !! r = Some x ∧
               recs w' !! r = Some (set_id (Z.of_nat i) x)) ∧
       (∀ r, r ∉ l → recs w' !! r = recs w !! r)) w.
Proof. intros Hnd Hv. by apply (wp_renumber_from 0). Qed.


(** What the stages after the filter rely on: the lists are paired, no
    record stands twice in them, and the sorted arrays hold the same
    records. *)
Definition sorted_views (ints : Intersections) : Prop :=
  ∃ s1 s2, int_points1_sorted ints = Some s1 ∧
           int_points2_sorted ints = Some s2 ∧
           s1 ≡ₚ int_points1 ints ∧ s2 ≡ₚ int_points2 ints.

Definition crossings_paired (rs : list IntPoint) (ints : Intersections)
  : Prop :=
  paired rs (int_points1 ints) (int_points2 ints) ∧
  NoDup (int_points1 ints ++ int_points2 ints) ∧
  sorted_views ints.

Lemma wp_sortIntersections ints w :
  (∀ r, r ∈ int_points1 ints ++ int_points2 ints → is_Some (recs w !! r)) →
  wp False (sortIntersections ints)
    (λ ints' w', store w' = store w ∧
       int_points1 ints' = int_points1 ints ∧
       int_points2 ints' = int_points2 ints ∧
       sorted_views ints' ∧
       ∀ r, ∃ f, recs w' !! r = f <$> recs w !! r ∧
                 ∀ x, id (f x) = id x ∧ pt (f x) = pt x) w.
Proof.
  intros Hv. unfold sortIntersections.
  apply wp_bind. eapply wp_mono.
  { apply wp_getSortedArray. intros r Hr. apply Hv. set_solver. }
  intros s1 w1 (Hst1 & Hrs1 & ->).
  apply wp_bind. eapply wp_mono.
  { apply wp_getSortedArray. intros r Hr. rewrite Hrs1.
    apply fmap_is_Some, Hv. set_solver. }
  intros s2 w2 (Hst2 & Hrs2 & ->). apply wp_ret. simpl.
  split; [congruence|]. split; [done|]. split; [done|]. split.
  { eexists _, _. split; [done|]. split; [done|]. simpl.
    split; apply js_sort_perm. }
  intros r. eexists. split.
  { rewrite Hrs2, Hrs1, <- option_fmap_compose. done. }
  intros x. simpl. by repeat destruct (decide _).
Qed.

Lemma squeeze_paired P Q w :
  lockstep (recs w) P Q → NoDup (P ++ Q) →
  wp False
    (p1 ← filter_live P;
     p2 ← filter_live Q;
     renumber p1;;
     renumber p2;;
     sortIntersections (mkIntersections p1 p2 (Some []) (Some [])))
    (λ ints' w', store w' = store w ∧ crossings_paired (recs w') ints') w.
Proof.
  intros Hl Hnd.
  apply wp_bind, wp_filter_live; [eauto using lockstep_valid_l|].
  apply wp_bind, wp_filter_live; [eauto using lockstep_valid_r|].
  set (p1 := keep_live (recs w) P). set (p2 := keep_live (recs w) Q).
  assert (NoDup (p1 ++ p2)) as Hnd12.
  { eapply sublist_NoDup; [done|]. apply sublist_app; apply keep_live_sublist. }
  apply NoDup_app in Hnd12 as Hnd12'. destruct Hnd12' as (Hnd1 & Hdisj & Hnd2).
  pose proof (keep_live_lockstep _ _ _ Hl) as HF. fold p1 p2 in HF.
  assert (∀ r, r ∈ p1 → is_Some (recs w !! r)) as Hv1.
  { intros r Hr. eapply lockstep_valid_l; [done|].
    eapply elem_of_sublist; [done|apply keep_live_sublist]. }
  assert (∀ r, r ∈ p2 → is_Some (recs w !! r)) as Hv2.
  { intros r Hr. eapply lockstep_valid_r; [done|].
    eapply elem_of_sublist; [done|apply keep_live_sublist]. }
  apply wp_bind. eapply wp_mono; [by apply wp_renumber|].
  intros _ w1 (Hst1 & Hin1 & Hout1).
  apply wp_bind. eapply wp_mono.
  { apply wp_renumber; [done|]. intros r Hr. rewrite Hout1; [by apply Hv2|].
    intros Hr'. by eapply Hdisj. }
  intros _ w2 (Hst2 & Hin2 & Hout2).
  eapply wp_mono.
  { apply wp_sortIntersections. simpl. intros r [Hr|Hr]%elem_of_app.
    - rewrite Hout2 by (by apply Hdisj).
      apply list_elem_of_lookup_1 in Hr as [i Hi].
      destruct (Hin1 i r Hi) as (x & _ & ->). eauto.
    - apply list_elem_of_lookup_1 in Hr as [i Hi].
      destruct (Hin2 i r Hi) as (x & _ & ->). eauto. }
  intros ints' w3 (Hst3 & HP & HQ & Hsv & Hrs3). simpl in HP, HQ.
  split; [congruence|]. split; [|split; [by rewrite HP, HQ|done]].
  rewrite HP, HQ. split; [by eapply Forall2_length|].
  intros i p q Hp Hq.
  destruct (Forall2_lookup_lr _ _ _ _ _ _ HF Hp Hq) as (x & y & Hx & Hy & Hpt).
  destruct (Hin1 i p Hp) as (x' & Hx' & Hx1).
  destruct (Hin2 i q Hq) as (y' & Hy' & Hy2).
  assert (p ∉ p2) as Hp2.
  { apply Hdisj. by eapply list_elem_of_lookup_2. }
  assert (q ∉ p1) as Hq1.
  { intros Hq1. eapply Hdisj; [done|]. by eapply list_elem_of_lookup_2. }
  rewrite Hout1 in Hy' by done. rewrite <- Hout2 in Hx1 by done.
  destruct (Hrs3 p) as (f & Hfp & Hf). destruct (Hrs3 q) as (g & Hgq & Hg).
  rewrite Hx1 in Hfp. rewrite Hy2 in Hgq. simplify_eq.
  eexists _, _. split; [done|]. split; [done|].
  destruct (Hf (set_id (Z.of_nat i) x)) as [-> ->].
  destruct (Hg (set_id (Z.of_nat i) y)) as [-> ->]. done.
Qed.


Lemma world_eq (w w' : World) :
  recs w' = recs w → store w' = store w → w' = w.
Proof. destruct w, w'. simpl. by intros -> ->. Qed.

Lemma wp_sweep1 w P Q r0 rest s :
  NoDup (P ++ Q) → NoDup (r0 :: rest) → (∀ r, r ∈ rest → r ∈ P) →
  sweep1_inv w P Q [r0] s w →
  wp False (fold_each rest s (mark_sweep1 Q))
    (λ s' w', store w' = store w ∧ lockstep (recs w') P Q ∧
              (s'.2 = false → recs w' = recs w)) w.
Proof.
  intros Hnd Hnds Hsub Hinv. eapply wp_mono.
  { apply (wp_fold_each _ _ _ _
      (λ pre s' w', sweep1_inv w P Q (r0 :: pre) s' w')); [done|].
    intros pre x post s' w' -> Hi.
    eapply wp_mono; [apply sweep1_step; [done| | |done]|].
    - apply Hsub. set_solver.
    - apply NoDup_cons in Hnds as [Hr0 Hrest].
      apply NoDup_app in Hrest as (_ & Hdisj & _).
      intros [->|Hx]%elem_of_cons; [set_solver|].
      apply (Hdisj x); set_solver.
    - intros s'' w'' Hi'. done. }
  intros s' w' (? & ? & _ & _ & ?). done.
Qed.

Lemma wp_sweep2 w0 w P Q q0 rest s :
  NoDup (P ++ Q) → NoDup (q0 :: rest) → (∀ r, r ∈ rest → r ∈ Q) →
  sweep2_inv w0 P Q [q0] s w →
  wp False (fold_each rest s (mark_sweep2 P))
    (λ s' w', store w' = store w0 ∧ lockstep (recs w') P Q ∧
              (s'.2 = false → recs w' = recs w0)) w.
Proof.
  intros Hnd Hnds Hsub Hinv. eapply wp_mono.
  { apply (wp_fold_each _ _ _ _
      (λ pre s' w', sweep2_inv w0 P Q (q0 :: pre) s' w')); [done|].
    intros pre x post s' w' -> Hi.
    eapply wp_mono; [apply sweep2_step; [done| | |done]|].
    - apply Hsub. set_solver.
    - apply NoDup_cons in Hnds as [Hr0 Hrest].
      apply NoDup_app in Hrest as (_ & Hdisj & _).
      intros [->|Hx]%elem_of_cons; [set_solver|].
      apply (Hdisj x); set_solver.
    - intros s'' w'' Hi'. done. }
  intros s' w' (? & ? & _ & ?). done.
Qed.

Lemma wp_filterDuplicatedIntersections ints w :
  crossings_paired (recs w) ints →
  wp False (filterDuplicatedIntersections ints)
    (λ ints' w', store w' = store w ∧ crossings_paired (recs w') ints') w.
Proof.
  intros (Hp & Hnd & s1 & s2 & Hs1 & Hs2 & Hperm1 & Hperm2).
  unfold filterDuplicatedIntersections.
  destruct (decide _) as [Hlt|Hge].
  { apply wp_ret. split; [done|]. split; [done|]. split; [done|].
    by exists s1, s2. }
  set (P := int_points1 ints) in *. set (Q := int_points2 ints) in *.
  pose proof (paired_lockstep _ _ _ Hp) as Hl.
  assert (length Q = length P) as HlenQ by (by destruct Hp).
  rewrite Hs1. apply wp_bind, wp_deref.
  destruct s1 as [|r0 rest1]; [apply Permutation_length in Hperm1; simpl in *; lia|].
  assert (r0 ∈ P) as Hr0 by (rewrite <- Hperm1; set_solver).
  assert (NoDup (r0 :: rest1)) as Hnd1.
  { rewrite Hperm1. by apply NoDup_app in Hnd as (? & _). }
  apply list_elem_of_lookup_1 in Hr0 as Hr0'. destruct Hr0' as [i0 Hi0].
  destruct (lockstep_partner _ _ _ _ _ Hl Hi0) as [q0 Hq0].
  destruct Hp as [_ Hp]. destruct (Hp i0 r0 q0 Hi0 Hq0)
    as (x0 & y0 & Hx0 & Hy0 & Hidx & Hidy & Hpt0).
  simpl. eapply wp_bind, wp_field_Some; [done|].
  rewrite Hidx, js_index_nat, Hq0.
  apply wp_bind. eapply wp_mono.
  { apply (wp_sweep1 w P Q r0); [done|done| |].
    - intros r Hr. rewrite <- Hperm1. set_solver.
    - split; [done|]. split; [done|]. split.
      + intros r Hr Hnr. apply list_elem_of_lookup_1 in Hr as [i Hi].
        destruct (lockstep_partner _ _ _ _ _ Hl Hi) as [q Hq].
        destruct (Hp i r q Hi Hq) as (x & y & Hx & Hy & Hix & _).
        exists x. split; [done|]. lia.
      + split; [|done]. exists r0, q0. simpl.
        split; [done|]. split; [done|]. split; [set_solver|].
        split; [|split; [done|by eapply list_elem_of_lookup_2]].
        exists x0. split; [done|]. lia. }
  intros [[ref1 ref2] sq1] w1 (Hst1 & Hl1 & Hsq1). simpl in Hsq1.
  rewrite Hs2. apply wp_bind, wp_deref.
  destruct s2 as [|q1 rest2]; [apply Permutation_length in Hperm2; simpl in *; lia|].
  assert (q1 ∈ Q) as Hq1 by (rewrite <- Hperm2; set_solver).
  assert (NoDup (q1 :: rest2)) as Hnd2.
  { rewrite Hperm2. by apply NoDup_app in Hnd as (_ & _ & ?). }
  destruct (lockstep_valid_r _ _ _ _ Hl1 Hq1) as [y1 Hy1].
  simpl. eapply wp_bind, wp_field_Some; [done|].
  apply wp_bind. eapply wp_mono.
  { apply (wp_sweep2 w w1 P Q q1); [done|done| |].
    - intros r Hr. rewrite <- Hperm2. set_solver.
    - split; [done|]. split; [done|]. split; [|done].
      exists q1. simpl. split; [done|]. split; [done|]. split; [set_solver|].
      intros Hun. apply list_elem_of_lookup_1 in Hq1 as [k Hk].
      destruct (unmarked_index' _ _ _ _ _ Hl1 Hk Hun) as (y & Hy & Hidk).
      rewrite Hy1 in Hy. injection Hy as <-.
      destruct (lockstep_partner' _ _ _ _ _ Hl1 Hk) as [p Hpk].
      exists p. rewrite Hidk, js_index_nat.
      split; [done|]. by eapply list_elem_of_lookup_2. }
  intros [[ref1' ref2'] sq2] w2 (Hst2 & Hl2 & Hsq2). simpl in Hsq2.
  destruct sq2.
  - eapply wp_mono; [by apply squeeze_paired|].
    intros ints' w' [Hst' Hcp]. split; [congruence|done].
  - apply wp_ret. rewrite (world_eq w w2) by auto.
    split; [done|]. split; [by split|]. split; [done|]. by exists (r0 :: rest1), (q1 :: rest2).
Qed.

(** [X19] The duplicate filter keeps the two crossing lists paired.  When
    the lists are paired before the call (equal length,
    [P[i].id = Q[i].id = i], the points of [P[i]] and [Q[i]] equal under
    epsilon, no record twice, the sorted arrays holding the same records),
    the call returns, and the lists are paired after it, also after a squeeze
    and the re-numbering. *)
Theorem filterDuplicatedIntersections_keeps_pairing ints w :
  crossings_paired (recs w) ints →
  ∃ ints' w',
    filterDuplicatedIntersections ints w = Normal (ints', w') ∧
    store w' = store w ∧
    crossings_paired (recs w') ints'.
Proof.
  intros Hp. by apply wp_returns, wp_filterDuplicatedIntersections.
Qed.

(** [C10]: with fewer than two records in the first crossing list, the
    duplicate filter returns at once: the result is the argument (both
    lists and both sorted arrays) and the world is as it was, so no record
    has another id and no record is marked. *)
Theorem filterDuplicatedIntersections_short ints w :
  length (int_points1 ints) < 2 →
  filterDuplicatedIntersections ints w = Normal (ints, w).
Proof.
  intros Hl. unfold filterDuplicatedIntersections.
  destruct (decide _); [reflexivity | lia].
Qed.

End Filter.

(** ** The splitter *)

Section Splitter.
Context `{RingStore}.

Lemma vertex_flags (a b : bool) :
  let iv := if b then Z.lor (if a then Z.lor NOT_VERTEX START_VERTEX
                             else NOT_VERTEX) END_VERTEX
            else (if a then Z.lor NOT_VERTEX START_VERTEX else NOT_VERTEX) in
  (Z.land iv START_VERTEX ≠ 0%Z ↔ a = true) ∧
  (Z.land iv END_VERTEX ≠ 0%Z ↔ b = true).
Proof. destruct a, b; compute; split; split; congruence. Qed.

(** A record whose [edge_before] is an edge of a ring; [ended] says that the
    edge ends at the point of the record. *)
Definition on_ring (w : World) (ended : bool) (r : ipref) : Prop :=
  ∃ x e, recs w !! r = Some x ∧ edge_before x = Some e ∧ live (store w) e ∧
         (ended = true →
          equalTo (shape_end (e_shape (store w) e)) (pt x) = true).

Lemma wp_split_step polygon (l : list ipref) r w (done_ : ipref → bool) :
  r ∈ l →
  (∀ r', r' ∈ l → on_ring w (done_ r') r') →
  wp False (split_step polygon r)
    (λ _ w', ∀ r', r' ∈ l →
       on_ring w' (done_ r' || bool_decide (r' = r)) r') w.
Proof.
  intros Hr Hall. destruct (Hall r Hr) as (x & e & Hx & He & Hlive & _).
  unfold split_step. apply wp_bind, wp_get_rec. rewrite Hx.
  rewrite He. apply wp_bind, wp_deref, wp_bind, wp_get_store.
  destruct (vertex_flags (equalTo (shape_start (e_shape (store w) e)) (pt x))
              (equalTo (shape_end (e_shape (store w) e)) (pt x)))
    as [Hstart Hend].
  apply wp_bind, wp_upd_rec.
  assert (∀ w',
    store w' = store w →
    (∀ r', r' ≠ r → recs w' !! r' = recs w !! r') →
    (∃ x' e', recs w' !! r = Some x' ∧ pt x' = pt x ∧
       edge_before x' = Some e' ∧ live (store w) e' ∧
       equalTo (shape_end (e_shape (store w) e')) (pt x) = true) →
    ∀ r', r' ∈ l → on_ring w' (done_ r' || bool_decide (r' = r)) r')
    as Hpure.
  { intros w' Hst Hother (x' & e' & Hx' & Hpt & He' & Hl' & Hend') r' Hr'.
    destruct (decide (r' = r)) as [->|Hne].
    - exists x', e'. rewrite Hst, Hpt. done.
    - destruct (Hall r' Hr') as (y & ey & Hy & Hey & Hly & Hdone).
      exists y, ey. rewrite Hst, Hother by done.
      rewrite bool_decide_eq_false_2, orb_false_r by done. done. }
  destruct (decide _) as [Hs|Hs]; [|destruct (decide _) as [He'|He']].
  - apply Hstart in Hs.
    destruct (live_prev _ _ Hlive) as (p & Hp & Hlp & Hpe).
    apply wp_bind, wp_upd_rec, wp_upd_rec. simpl.
    apply Hpure; [done| |].
    + intros r' Hne. simpl. by rewrite !list_lookup_alter_ne.
    + eexists _, p. simpl. rewrite !list_lookup_alter_eq, Hx. simpl.
      split; [done|]. split; [done|]. split; [done|]. split; [done|].
      by rewrite Hpe.
  - apply Hend in He'. apply wp_ret. simpl.
    apply Hpure; [done| |].
    + intros r' Hne. simpl. by rewrite !list_lookup_alter_ne.
    + eexists _, e. simpl. rewrite !list_lookup_alter_eq, Hx. simpl. done.
  - assert (equalTo (shape_start (e_shape (store w) e)) (pt x) = false) as Hs'.
    { apply not_true_is_false. intros Ht. by apply Hs, Hstart. }
    assert (equalTo (shape_end (e_shape (store w) e)) (pt x) = false) as He''.
    { apply not_true_is_false. intros Ht. by apply He', Hend. }
    destruct (addVertex_ends (store w) polygon (pt x) e Hlive Hs' He'')
      as (Hln & Hne & Hold).
    destruct (addVertex (store w) polygon (pt x) e) as [st' ne] eqn:Hadd.
    simpl in *. apply wp_bind, wp_put_store, wp_upd_rec. simpl.
    intros r' Hr'. destruct (decide (r' = r)) as [->|Hner].
    + eexists _, ne. simpl. rewrite !list_lookup_alter_eq, Hx. simpl.
      split; [done|]. done.
    + destruct (Hall r' Hr') as (y & ey & Hy & Hey & Hly & Hdone).
      exists y, ey. simpl. rewrite !list_lookup_alter_ne by done.
      rewrite bool_decide_eq_false_2, orb_false_r by done.
      destruct (Hold ey Hly) as [Hly' Hends]. rewrite Hends. done.
Qed.


Lemma on_ring_weaken w (b b' : bool) r :
  (b' = true → b = true) → on_ring w b r → on_ring w b' r.
Proof.
  intros Hb (x & e & ? & ? & ? & Hend). exists x, e.
  repeat (split; [done|]). auto.
Qed.

(** After the second loop, for the records of a prefix. *)
Definition linked (w : World) (after_set : bool) (r : ipref) : Prop :=
  ∃ x eb, recs w !! r = Some x ∧ edge_before x = Some eb ∧
    live (store w) eb ∧
    equalTo (shape_end (e_shape (store w) eb)) (pt x) = true ∧
    (after_set = true → edge_after x = e_next (store w) eb).

Lemma linked_weaken w (b b' : bool) r :
  (b' = true → b = true) → linked w b r → linked w b' r.
Proof.
  intros Hb (x & e & ? & ? & ? & ? & Hend). exists x, e.
  repeat (split; [done|]). auto.
Qed.

Lemma wp_link_step (l : list ipref) r w (done_ : ipref → bool) :
  r ∈ l →
  (∀ r', r' ∈ l → linked w (done_ r') r') →
  wp False (link_step r)
    (λ _ w', store w' = store w ∧
       ∀ r', r' ∈ l → linked w' (done_ r' || bool_decide (r' = r)) r') w.
Proof.
  intros Hr Hall. destruct (Hall r Hr) as (x & e & Hx & He & Hlive & Hend & _).
  unfold link_step. apply wp_bind, wp_get_rec. rewrite Hx, He.
  apply wp_bind, wp_deref, wp_bind, wp_get_store, wp_upd_rec. simpl.
  split; [done|]. intros r' Hr'. unfold linked. simpl.
  destruct (decide (r' = r)) as [->|Hne].
  - eexists _, e. rewrite list_lookup_alter_eq, Hx. simpl. done.
  - destruct (Hall r' Hr') as (y & ey & Hy & Hey & Hly & Hendy & Hdone).
    exists y, ey. rewrite list_lookup_alter_ne by done.
    rewrite bool_decide_eq_false_2, orb_false_r by done. done.
Qed.

(** [C4].  On a store that keeps its rings closed ([RingStore]), and for
    records whose [edge_before] is an edge of a ring, [splitByIntersections]
    returns, and then every record has [edge_after == edge_before.next],
    the shape of [edge_before] ends at the point of the record and the shape
    of [edge_after] starts there, both under [equalTo]. *)
Theorem splitByIntersections_links polygon (l : list ipref) w :
  (∀ r, r ∈ l → ∃ x e, recs w !! r = Some x ∧ edge_before x = Some e ∧
                       live (store w) e) →
  ∃ w', splitByIntersections polygon (Some l) w = Normal (tt, w') ∧
    ∀ r, r ∈ l →
      ∃ x eb ea, recs w' !! r = Some x ∧
        edge_before x = Some eb ∧ edge_after x = Some ea ∧
        e_next (store w') eb = Some ea ∧
        equalTo (shape_end (e_shape (store w') eb)) (pt x) = true ∧
        equalTo (shape_start (e_shape (store w') ea)) (pt x) = true.
Proof.
  intros Hpre.
  cut (wp False (splitByIntersections polygon (Some l))
         (λ _ w', ∀ r, r ∈ l → linked w' true r) w).
  { intros Hwp. apply wp_returns in Hwp as ([] & w' & Hrun & Hpost).
    exists w'. split; [done|]. intros r Hr.
    destruct (Hpost r Hr) as (x & eb & Hx & Heb & Hlive & Hend & Hafter).
    destruct (live_next _ _ Hlive) as (n & Hn & _ & Hstart).
    exists x, eb, n. rewrite Hafter by done.
    repeat (split; [done|]). by rewrite Hstart. }
  simpl. apply wp_bind. eapply wp_mono.
  { apply (wp_for_each _ _ _
      (λ pre w', ∀ r, r ∈ l → on_ring w' (bool_decide (r ∈ pre)) r)).
    - intros r Hr. destruct (Hpre r Hr) as (x & e & ? & ? & ?).
      exists x, e. done.
    - intros pre x post w' Hl Hinv.
      eapply wp_mono; [eapply wp_split_step; [|exact Hinv]|].
      + subst. set_solver.
      + intros u w'' Hpost r Hr. eapply on_ring_weaken; [|by apply Hpost].
        intros Hin. apply bool_decide_eq_true in Hin.
        apply orb_true_iff. rewrite !bool_decide_eq_true. set_solver. }
  intros u w1 Hring. eapply wp_mono.
  { apply (wp_for_each _ _ _
      (λ pre w', ∀ r, r ∈ l → linked w' (bool_decide (r ∈ pre)) r)).
    - intros r Hr. destruct (Hring r Hr) as (x & e & ? & ? & ? & Hend).
      exists x, e. rewrite bool_decide_eq_true_2 in Hend by done.
      repeat (split; [by auto|]). done.
    - intros pre x post w' Hl Hinv.
      eapply wp_mono; [eapply wp_link_step; [|exact Hinv]|].
      + subst. set_solver.
      + intros u' w'' [_ Hpost] r Hr. eapply linked_weaken; [|by apply Hpost].
        intros Hin. apply bool_decide_eq_true in Hin.
        apply orb_true_iff. rewrite !bool_decide_eq_true. set_solver. }
  intros u2 w2 Hpost r Hr. eapply linked_weaken; [|by apply Hpost].
  intros _. by apply bool_decide_eq_true.
Qed.


End Splitter.

(** ** Rings of the reference store *)

Module RectRings.
Import Rect.

(** Every edge of the store lies on a closed ring whose shapes follow each
    other. *)
Definition ring_ok (st : state) : Prop :=
  ∀ e, e < length (edges st) →
    ∃ n p, o_next (edge_at st e) = Some n ∧ n < length (edges st) ∧
           o_prev (edge_at st e) = Some p ∧ p < length (edges st) ∧
           o_prev (edge_at st n) = Some e ∧
           o_next (edge_at st p) = Some e ∧
           (o_shape (edge_at st n)).1 = (o_shape (edge_at st e)).2.

Definition on_ring_edge (st : state) (e : nat) : Prop :=
  ring_ok st ∧ e < length (edges st).

Lemma edge_at_alter f st e y :
  edge_at (alter_edge f st e) y =
  if decide (e = y ∧ y < length (edges st)) then f (edge_at st y)
  else edge_at st y.
Proof.
  unfold edge_at, alter_edge. simpl. rewrite list_lookup_alter.
  destruct (decide (e = y)) as [->|Hne].
  - destruct (edges st !! y) as [o|] eqn:E; simpl.
    + rewrite decide_True; [done|]. split; [done|]. by eapply lookup_lt_Some.
    + rewrite decide_False; [done|]. intros [_ Hlt].
      apply lookup_ge_None in E. lia.
  - rewrite decide_False by tauto. done.
Qed.

Definition new_edge (st : state) (p : point) (e : nat) : edge_obj :=
  mkEdge ((o_shape (edge_at st e)).1, p) (Some e) (o_prev (edge_at st e))
    (o_face (edge_at st e)) (o_arc_length (edge_at st e)) None None None None.

Lemma add_vertex_edges st poly p e q :
  o_prev (edge_at st e) = Some q →
  edges (add_vertex st poly p e).1 =
  alter (λ o, put_arc_length
                (o_arc_length o + seg_length ((o_shape (edge_at st e)).1, p))%Z
                (put_prev (Some (length (edges st)))
                   (put_shape (p, (o_shape o).2) o))) e
    (alter (put_next (Some (length (edges st)))) q
       (edges st ++ [new_edge st p e])).
Proof.
  intros Hq. unfold add_vertex, new_edge. rewrite Hq. simpl.
  destruct (o_face (edge_at st e)); reflexivity.
Qed.

Lemma add_vertex_length st poly p e q :
  o_prev (edge_at st e) = Some q →
  length (edges (add_vertex st poly p e).1) = S (length (edges st)).
Proof.
  intros Hq. erewrite add_vertex_edges by done.
  rewrite !length_alter, length_app. simpl. lia.
Qed.

Lemma add_vertex_lookup st poly p e q y :
  o_prev (edge_at st e) = Some q →
  e < length (edges st) → q < length (edges st) → y < length (edges st) →
  edge_at (add_vertex st poly p e).1 y =
  let o1 := if decide (y = q)
            then put_next (Some (length (edges st))) (edge_at st y)
            else edge_at st y in
  if decide (y = e)
  then put_arc_length
         (o_arc_length o1 + seg_length ((o_shape (edge_at st e)).1, p))%Z
         (put_prev (Some (length (edges st)))
            (put_shape (p, (o_shape o1).2) o1))
  else o1.
Proof.
  intros Hq He Hql Hy. unfold edge_at at 1. erewrite add_vertex_edges by done.
  rewrite !list_lookup_alter, !lookup_app_l by done.
  destruct (lookup_lt_is_Some_2 (edges st) y Hy) as [o Ho].
  assert (edge_at st y = o) as Hat by (unfold edge_at; by rewrite Ho).
  rewrite Hat. simpl.
  destruct (decide (e = y)) as [->|Hne]; destruct (decide (q = y)) as [->|Hqy];
    rewrite ?Ho; simpl; repeat (destruct (decide _); try done).
Qed.

Lemma add_vertex_lookup_new st poly p e q :
  o_prev (edge_at st e) = Some q →
  e < length (edges st) → q < length (edges st) →
  edge_at (add_vertex st poly p e).1 (length (edges st)) = new_edge st p e.
Proof.
  intros Hq He Hql. unfold edge_at at 1. erewrite add_vertex_edges by done.
  rewrite !list_lookup_alter_ne by lia.
  rewrite lookup_app_r by done. by rewrite Nat.sub_diag.
Qed.

Lemma add_vertex_next st poly p e q y :
  o_prev (edge_at st e) = Some q →
  e < length (edges st) → q < length (edges st) → y < length (edges st) →
  o_next (edge_at (add_vertex st poly p e).1 y) =
  if decide (y = q) then Some (length (edges st)) else o_next (edge_at st y).
Proof.
  intros Hq He Hql Hy. erewrite add_vertex_lookup by done. simpl.
  by repeat destruct (decide _).
Qed.

Lemma add_vertex_prev st poly p e q y :
  o_prev (edge_at st e) = Some q →
  e < length (edges st) → q < length (edges st) → y < length (edges st) →
  o_prev (edge_at (add_vertex st poly p e).1 y) =
  if decide (y = e) then Some (length (edges st)) else o_prev (edge_at st y).
Proof.
  intros Hq He Hql Hy. erewrite add_vertex_lookup by done. simpl.
  by repeat destruct (decide _).
Qed.

Lemma add_vertex_shape st poly p e q y :
  o_prev (edge_at st e) = Some q →
  e < length (edges st) → q < length (edges st) → y < length (edges st) →
  o_shape (edge_at (add_vertex st poly p e).1 y) =
  if decide (y = e) then (p, (o_shape (edge_at st e)).2)
  else o_shape (edge_at st y).
Proof.
  intros Hq He Hql Hy. erewrite add_vertex_lookup by done. simpl.
  repeat destruct (decide _); subst; done.
Qed.

Lemma add_vertex_ring st poly p e :
  ring_ok st → e < length (edges st) →
  ring_ok (add_vertex st poly p e).1.
Proof.
  intros Hok He y Hy.
  destruct (Hok e He) as (ne & q & Hne & Hnel & Hq & Hql & Hpne & Hnq & Hse).
  erewrite add_vertex_length in * by done.
  pose proof (add_vertex_lookup_new st poly p e q Hq He Hql) as Hnew.
  pose proof (λ y, add_vertex_next st poly p e q y Hq He Hql) as Hnext.
  pose proof (λ y, add_vertex_prev st poly p e q y Hq He Hql) as Hprev.
  pose proof (λ y, add_vertex_shape st poly p e q y Hq He Hql) as Hshape.
  unfold new_edge in Hnew. rewrite Hq in Hnew.
  destruct (decide (y = length (edges st))) as [->|Hyn].
  - exists e, q. rewrite Hnew. simpl.
    rewrite Hprev, Hnext, Hshape by done.
    rewrite !decide_True by done. simpl. repeat split; try done; lia.
  - assert (y < length (edges st)) as Hy' by lia.
    destruct (Hok y Hy')
      as (ny & py & Hny & Hnyl & Hpy & Hpyl & Hpny & Hnpy & Hsy).
    rewrite Hnext, Hprev, Hshape by done.
    exists (if decide (y = q) then length (edges st) else ny),
           (if decide (y = e) then length (edges st) else py).
    destruct (decide (y = q)) as [Hyq|Hyq], (decide (y = e)) as [Hye|Hye].
    + (* a ring of one edge *)
      subst y. subst q. rewrite Hnew. simpl.
      assert (ne = e) as -> by congruence.
      repeat split; try done; try lia.
    + subst y. rewrite Hnew. simpl. rewrite Hnext by done.
      assert (py ≠ q) by (intros ->; congruence).
      rewrite decide_False by done.
      assert (ny = e) as -> by congruence.
      repeat split; try done; try lia.
    + subst y. rewrite Hnew. simpl. rewrite Hprev, Hshape by done.
      assert (py = q) as -> by congruence. assert (ny = ne) as -> by congruence.
      assert (ne ≠ e) by (intros ->; congruence).
      rewrite !decide_False by done.
      repeat split; try done; try lia.
    + rewrite Hprev, Hnext, Hshape by done.
      assert (ny ≠ e) by (intros ->; congruence).
      assert (py ≠ q) by (intros ->; congruence).
      rewrite !decide_False by done.
      repeat split; try done; lia.
Qed.


End RectRings.

(** ** The chain excisor *)

Section Excisor.
Context `{PolygonStore}.

(** The rule of the specification for deleting the chain between two
    crossings, on the boundary values [bf] and [bt] of its end edges and the
    overlap flag [ov] of the first. *)
Definition overlap_has (ov : option Z) (flag : Z) : Prop :=
  Z.land (default 0%Z ov) flag ≠ 0%Z.

Definition spec_delete_chain (op : Z) (is_res : bool)
    (bf bt : option Inclusion) (ov : option Z) : Prop :=
  (op = BOOLEAN_UNION ∧ bf = Some INSIDE ∧ bt = Some INSIDE) ∨
  (op = BOOLEAN_INTERSECT ∧ bf = Some OUTSIDE ∧ bt = Some OUTSIDE) ∨
  (op = BOOLEAN_SUBTRACT ∧ is_res = false ∧
     (bf = Some OUTSIDE ∨ bt = Some OUTSIDE)) ∨
  (op = BOOLEAN_SUBTRACT ∧ is_res = true ∧
     (bf = Some INSIDE ∨ bt = Some INSIDE)) ∨
  (bf = Some BOUNDARY ∧ bt = Some BOUNDARY ∧ overlap_has ov OVERLAP_SAME ∧
     is_res = true) ∨
  (bf = Some BOUNDARY ∧ bt = Some BOUNDARY ∧ overlap_has ov OVERLAP_OPPOSITE).

Lemma has_flag_spec ov flag : has_flag ov flag = true ↔ overlap_has ov flag.
Proof.
  unfold has_flag, overlap_has. rewrite negb_true_iff, bool_decide_eq_false.
  done.
Qed.

Lemma chain_not_relevant_spec op is_res bf bt ov :
  chain_not_relevant op is_res bf bt ov = true ↔
  spec_delete_chain op is_res bf bt ov.
Proof.
  unfold chain_not_relevant, spec_delete_chain.
  rewrite !orb_true_iff, !andb_true_iff, !orb_true_iff, !bool_decide_eq_true,
    !has_flag_spec, negb_true_iff.
  destruct is_res; intuition congruence.
Qed.

(** [intPointsPullCount] only reads, and counts the current record. *)
Lemma wp_pull_scan cur cf rest n w :
  wp True (pull_scan cur cf rest n) (λ k w', w' = w ∧ n ≤ k) w.
Proof.
  revert n. induction rest as [|x rest IH]; intros n; simpl.
  - by apply wp_ret.
  - apply wp_bind, wp_field. destruct (_ ≫= _); [|done].
    destruct (decide _); [by apply wp_ret|].
    apply wp_bind, wp_field. destruct (_ ≫= _); [|done].
    apply wp_bind, wp_field. destruct (_ ≫= _); [|done].
    destruct (negb _); [by apply wp_ret|].
    apply wp_bind, wp_field. destruct (_ ≫= _); [|done].
    apply wp_bind, wp_field. destruct (_ ≫= _); [|done].
    destruct (decide _); [by apply wp_ret|].
    apply wp_bind, wp_field. destruct (_ ≫= _); [|done].
    apply wp_bind, wp_field. destruct (_ ≫= _); [|done].
    destruct (decide _); [by apply wp_ret|].
    eapply wp_mono; [apply IH|]. intros k w' [-> Hk]. split; [done|lia].
Qed.

Lemma wp_intPointsPullCount l n cf w :
  wp True (intPointsPullCount l n cf) (λ k w', w' = w ∧ 1 ≤ k) w.
Proof.
  unfold intPointsPullCount. destruct (decide _); [by apply wp_ret|].
  destruct n; [apply wp_pull_scan | by apply wp_ret].
Qed.

Lemma alter_idemp {A} (f : A → A) r (l : list A) :
  (∀ x, f (f x) = f x) → alter f r (alter f r l) = alter f r l.
Proof.
  intros Hf. apply list_eq. intros i.
  destruct (decide (r = i)) as [->|].
  - rewrite !list_lookup_alter_eq. destruct (l !! i); simpl; [|done].
    by rewrite Hf.
  - by rewrite !list_lookup_alter_ne.
Qed.

(** Assigning the same field of the same record once or more. *)
Lemma wp_repeat_upd {A} E (ks : list A) r f w Q :
  (∀ x, f (f x) = f x) → ks ≠ [] →
  Q tt (mkWorld (alter f r (recs w)) (store w)) →
  wp E (for_each ks (λ _, c ← deref (Some r); upd_rec c f)) Q w.
Proof.
  intros Hf. revert w. induction ks as [|k ks IH]; intros w Hne HQ; [done|].
  simpl. apply wp_bind, wp_bind, wp_deref, wp_upd_rec.
  destruct ks as [|k' ks]; [by apply wp_ret|].
  apply IH; [done|]. simpl. by rewrite alter_idemp.
Qed.


Lemma seq_nonempty i k : 1 ≤ k → seq i k ≠ [].
Proof. destruct k; [lia|done]. Qed.

(** The crossing that follows the pull of [k] records at index [i]: the
    record after the pull when it lies on the same face, else the first
    crossing of the face. *)
Definition following (rs : list IntPoint) (l : list ipref) (i k : nat)
    (f : option Face) (first : option nat) (nn : nat) : Prop :=
  (nn = i + k ∧ ∃ r y, l !! (i + k) = Some r ∧ rs !! r = Some y ∧ face y = f) ∨
  (first = Some nn ∧
   ¬ (∃ r y, l !! (i + k) = Some r ∧ rs !! r = Some y ∧ face y = f)).

(** What one turn of the loop does to the store and to the records. *)
Definition chain_step_post (polygon : Poly) (op : Z) (l : list ipref)
    (is_res : bool) (i : nat) (cur_face : option Face) (first : option nat)
    (w : World) (out : nat * option Face * option nat) (w' : World) : Prop :=
  i < out.1.1 ∧
  ∃ cur x f, l !! i = Some cur ∧ recs w !! cur = Some x ∧ face x = Some f ∧
    out.1.2 = Some f ∧
    out.2 = (if decide (face x ≠ cur_face) then Some i else first) ∧
    (face_isEmpty (store w) f = true → w' = w ∧ out.1.1 = i + 1) ∧
    (face_isEmpty (store w) f = false →
       ∃ k nn next xn ef et,
         intPointsPullCount l (Some i) (Some f) w = Normal (k, w) ∧
         1 ≤ k ∧ out.1.1 = i + k ∧
         following (recs w) l i k (face x) out.2 nn ∧
         l !! nn = Some next ∧ recs w !! next = Some xn ∧
         edge_after x = Some ef ∧ edge_before xn = Some et ∧
         (spec_delete_chain op is_res (e_bv (store w) ef) (e_bv (store w) et)
            (e_overlap (store w) ef) →
          store w' = removeChain (store w) polygon f ef et ∧
          ∀ r, recs w' !! r =
               (λ y, (if decide (r = next) then set_edge_before None y else y))
                 <$> ((λ y, if decide (r = cur) then set_edge_after None y
                            else y) <$> recs w !! r)) ∧
         (¬ spec_delete_chain op is_res (e_bv (store w) ef)
              (e_bv (store w) et) (e_overlap (store w) ef) →
          w' = w)).

Lemma wp_chain_step polygon op l is_res i cur_face first w :
  wp True (chain_step polygon op l is_res i cur_face first)
    (chain_step_post polygon op l is_res i cur_face first w) w.
Proof.
  unfold chain_step.
  apply wp_bind, wp_field. destruct (l !! i) as [cur|] eqn:Hcur; [|done].
  simpl. destruct (recs w !! cur) as [x|] eqn:Hx; [|done].
  set (first' := if decide (face x ≠ cur_face) then Some i else first).
  assert ((if decide (face x ≠ cur_face) then (Some i, face x)
           else (first, cur_face)) = (first', face x)) as ->.
  { unfold first'. destruct (decide (face x ≠ cur_face)) as [|Heq]; [done|].
    destruct (decide (face x = cur_face)) as [<-|]; done. }
  apply wp_bind, wp_deref. destruct (face x) as [f|] eqn:Hf; [|done].
  apply wp_bind, wp_get_store.
  destruct (face_isEmpty (store w) f) eqn:Hempty.
  { apply wp_ret. split; [simpl; lia|]. exists cur, x, f.
    rewrite Hf. split_and!; try done. intros ?; congruence. }
  apply wp_bind.
  pose proof (wp_intPointsPullCount l (Some i) (Some f) w) as Hpc.
  unfold wp in Hpc. unfold wp at 1.
  destruct (intPointsPullCount l (Some i) (Some f) w) as [[k w1]|] eqn:Hpull;
    [|done].
  destruct Hpc as [-> Hk]. simpl.
  apply wp_bind.
  assert (wp True
    (if decide (i + k < length l)
     then g ← field (l !! (i + k)) face;
          h ← field (Some cur) face;
          if decide (g = h) then mret (Some (i + k)) else mret first'
     else mret first')
    (λ nnum w1, w1 = w ∧ ∀ nn, nnum = Some nn →
        following (recs w) l i k (Some f) first' nn) w) as Hnext.
  { destruct (decide (i + k < length l)) as [Hlt|Hge].
    - apply wp_bind, wp_field.
      destruct (l !! (i + k)) as [r|] eqn:Hr; [|done]. simpl.
      destruct (recs w !! r) as [y|] eqn:Hy; [|done].
      eapply wp_bind, wp_field_Some; [done|]. rewrite Hf.
      destruct (decide (face y = Some f)) as [Hg|Hg]; apply wp_ret;
        (split; [done|]); intros nn Hnn.
      + left. injection Hnn as <-. eauto 10.
      + right. split; [done|]. intros (r' & y' & ? & ? & ?). simplify_eq.
    - apply wp_ret. split; [done|]. intros nn Hnn. right. split; [done|].
      intros (r' & y' & Hr' & _). apply lookup_lt_Some in Hr'. lia. }
  eapply wp_mono; [exact Hnext|]. clear Hnext.
  intros nnum w1 [-> Hfollow]. simpl.
  apply wp_bind. eapply wp_mono; [apply wp_intPointsPullCount|].
  intros k2 w1 [-> Hk2]. simpl.
  eapply wp_bind, wp_field_Some; [done|].
  apply wp_bind, wp_field.
  destruct nnum as [nn|]; [|done]. simpl.
  destruct (l !! nn) as [next|] eqn:Hnext; [|done]. simpl.
  destruct (recs w !! next) as [xn|] eqn:Hxn; [|done].
  apply wp_bind, wp_deref. destruct (edge_after x) as [ef|] eqn:Hef; [|done].
  apply wp_bind, wp_deref. destruct (edge_before xn) as [et|] eqn:Het; [|done].
  apply wp_bind, wp_get_store.
  assert (∀ w', (spec_delete_chain op is_res (e_bv (store w) ef)
            (e_bv (store w) et) (e_overlap (store w) ef) →
          store w' = removeChain (store w) polygon f ef et ∧
          ∀ r, recs w' !! r =
               (λ y, (if decide (r = next) then set_edge_before None y else y))
                 <$> ((λ y, if decide (r = cur) then set_edge_after None y
                            else y) <$> recs w !! r)) →
         (¬ spec_delete_chain op is_res (e_bv (store w) ef)
              (e_bv (store w) et) (e_overlap (store w) ef) →
          w' = w) →
    chain_step_post polygon op l is_res i cur_face first w
      (i + k - 1 + 1, Some f, first') w') as Hpost.
  { intros w' Hyes Hno. split; [simpl; lia|]. exists cur, x, f.
    rewrite Hf. split_and!; try done; [intros ?; congruence|].
    intros _. exists k, nn, next, xn, ef, et.
    split_and!; try done; [simpl; lia|by apply Hfollow]. }
  apply wp_bind.
  destruct (chain_not_relevant _ _ _ _ _) eqn:Hrule.
  - apply chain_not_relevant_spec in Hrule.
    apply wp_bind, wp_modify_store.
    apply wp_bind, wp_repeat_upd; [done|by apply seq_nonempty|].
    apply wp_repeat_upd; [done|by apply seq_nonempty|].
    apply wp_ret. simpl. apply Hpost; [|done]. intros _.
    split; [done|]. intros r. simpl.
    destruct (decide (r = next)) as [Hn|Hn], (decide (r = cur)) as [Hc|Hc];
      subst;
      rewrite ?list_lookup_alter_eq, ?list_lookup_alter_ne by done;
      rewrite ?list_lookup_alter_eq, ?list_lookup_alter_ne by done;
      match goal with |- context [recs w !! ?r] => by destruct (recs w !! r) end.
  - apply wp_ret, wp_ret. apply Hpost; [|done].
    intros Hyes%chain_not_relevant_spec. congruence.
Qed.


(** The loop of [removeNotRelevantChains] needs no more turns than there are
    records left: more turns change nothing. *)
Lemma chain_loop_turns polygon op l is_res n m i cur_face first w :
  length l - i ≤ n → length l - i ≤ m →
  chain_loop n polygon op l is_res i cur_face first w =
  chain_loop m polygon op l is_res i cur_face first w.
Proof.
  revert m i cur_face first w.
  induction n as [|n IH]; intros [|m] i cur_face first w Hn Hm; simpl;
    try done.
  - destruct (decide _); [lia|done].
  - destruct (decide _); [lia|done].
  - destruct (decide _) as [Hlt|]; [|done].
    rewrite !bind_run.
    pose proof (wp_chain_step polygon op l is_res i cur_face first w) as Hwp.
    unfold wp in Hwp.
    destruct (chain_step polygon op l is_res i cur_face first w)
      as [[[[i' cf'] first'] w']|]; [|done].
    destruct Hwp as [Hadv _]. simpl in Hadv. apply IH; lia.
Qed.

End Excisor.

(** ** Runs of the engine on the reference store *)

(** Exact geometry. *)
Module Exact.
Import Rect RectRings.

#[local] Instance exact_oracle : PrimitiveOracle := oracle 0.
#[local] Instance exact_store : PolygonStore := pstore 0.

(** The reference store keeps rings closed. *)
Lemma ring_next st e :
  on_ring_edge st e →
  ∃ n, o_next (edge_at st e) = Some n ∧ on_ring_edge st n ∧
       (o_shape (edge_at st n)).1 = (o_shape (edge_at st e)).2.
Proof.
  intros [Hok He].
  destruct (Hok e He) as (n & p & Hn & Hnl & _ & _ & _ & _ & Hs).
  exists n. done.
Qed.

Lemma ring_prev st e :
  on_ring_edge st e →
  ∃ p, o_prev (edge_at st e) = Some p ∧ on_ring_edge st p ∧
       (o_shape (edge_at st p)).2 = (o_shape (edge_at st e)).1.
Proof.
  intros [Hok He].
  destruct (Hok e He) as (n & p & _ & _ & Hp & Hpl & _ & Hnp & _).
  destruct (Hok p Hpl) as (n' & p' & Hn' & _ & _ & _ & _ & _ & Hs).
  exists p. split; [done|]. split; [done|].
  assert (n' = e) as -> by congruence. done.
Qed.

Lemma ring_add_vertex st poly p e :
  on_ring_edge st e →
  on_ring_edge (add_vertex st poly p e).1 (add_vertex st poly p e).2 ∧
  (o_shape (edge_at (add_vertex st poly p e).1 (add_vertex st poly p e).2)).2
    = p ∧
  ∀ x, on_ring_edge st x →
    on_ring_edge (add_vertex st poly p e).1 x ∧
    (o_shape (edge_at (add_vertex st poly p e).1 x)).2 =
    (o_shape (edge_at st x)).2.
Proof.
  intros [Hok He].
  destruct (Hok e He) as (n & q & _ & _ & Hq & Hql & _ & _ & _).
  assert ((add_vertex st poly p e).2 = length (edges st)) as -> by done.
  split; [|split].
  - split; [by apply add_vertex_ring|].
    erewrite add_vertex_length by done. lia.
  - erewrite add_vertex_lookup_new by done. done.
  - intros x [_ Hx]. split.
    + split; [by apply add_vertex_ring|].
      erewrite add_vertex_length by done. lia.
    + erewrite add_vertex_shape by done. by destruct (decide _); subst.
Qed.

Lemma exact_equalTo (p : point) : equalTo p p = true.
Proof. simpl. rewrite !Z.sub_diag. done. Qed.

#[local] Instance exact_rings : RingStore.
Proof.
  refine {| live := on_ring_edge |}.
  - exact ring_next.
  - exact ring_prev.
  - intros st poly p e Hl _ _.
    destruct (ring_add_vertex st poly p e Hl) as (Hnew & Hend & Hold).
    split; [exact Hnew|]. split; [|exact Hold].
    change (equalTo (o_shape (edge_at (add_vertex st poly p e).1
                                (add_vertex st poly p e).2)).2 p = true).
    rewrite Hend. apply exact_equalTo.
Defined.

Definition A : list point := [(0,0);(0,4);(4,4);(4,0)]%Z.
Definition B2 : list point := [(4,4);(4,8);(8,8);(8,4)]%Z.
Definition B3 : list point := [(2,2);(2,6);(6,6);(6,2)]%Z.

(** The square [A] alone, and with a second square. *)
Definition one : state := (add_polygon empty A).1.
Definition two (b : list point) : state := (add_polygon one b).1.

(** A record at [p] between the edges [eb] and [ea] of face [0]. *)
Definition crossing (i : Z) (p : point) (arc : Z) (eb ea : option nat)
  : IntPoint :=
  mkIntPoint i p arc eb ea (Some 0) END_VERTEX (Some 0%Z).

Definition ring_world : World :=
  mkWorld [crossing 0 (2, 4)%Z 6 (Some 1) None] one.

Lemma one_ring : ring_ok one.
Proof.
  intros e He. change (e < 4) in He.
  destruct e as [|[|[|[|e]]]]; [| | | |lia];
    eexists _, _;
    (split; [vm_compute; reflexivity|]); (split; [vm_compute; lia|]);
    (split; [vm_compute; reflexivity|]); (split; [vm_compute; lia|]);
    (split; [vm_compute; reflexivity|]); split; vm_compute; reflexivity.
Qed.

Lemma splitByIntersections_links_witness :
  ∃ w', splitByIntersections 0 (Some [0]) ring_world = Normal (tt, w') ∧
    ∀ r, r ∈ [0] →
      ∃ x eb ea, recs w' !! r = Some x ∧
        edge_before x = Some eb ∧ edge_after x = Some ea ∧
        e_next (store w') eb = Some ea ∧
        equalTo (shape_end (e_shape (store w') eb)) (pt x) = true ∧
        equalTo (shape_start (e_shape (store w') ea)) (pt x) = true.
Proof.
  apply (splitByIntersections_links 0 [0] ring_world).
  intros r Hr. apply list_elem_of_singleton in Hr as ->.
  eexists _, 1. split; [reflexivity|]. split; [reflexivity|].
  split; [exact one_ring | vm_compute; lia].
Defined.

Definition wrap_world : World := mkWorld [] one.

Lemma addToIntPoints_arc_length_witness :
  ∃ l' w', addToIntPoints 3 (0, 0)%Z [] wrap_world = Normal (l', w') ∧
    ∃ r, recs w' = recs wrap_world ++ [r] ∧ arc_length r = 0%Z.
Proof.
  destruct (observe_Some
              (@addToIntPoints exact_oracle exact_store 3 (0, 0)%Z [])
              wrap_world (λ _ _, tt) tt) as (l' & w' & Hrun & _);
    [vm_compute; reflexivity|].
  exists l', w'. split; [exact Hrun|].
  destruct (@addToIntPoints_arc_length exact_oracle exact_store 3
              (0, 0)%Z [] wrap_world l' w')
    as (r & len & _ & Hr & _ & Hlen & _ & Hend & _).
  - vm_compute. discriminate.
  - exact Hrun.
  - exists r. split; [exact Hr|].
    assert (len = 4%Z) as -> by (apply Hlen; vm_compute; done).
    destruct Hend as (next & Hnext & ->); [vm_compute; reflexivity|].
    assert (next = 0) as ->.
    { assert (e_next (store wrap_world) 3 = Some 0) as Hn
        by (vm_compute; reflexivity).
      congruence. }
    vm_compute. reflexivity.
Defined.

Lemma addToIntPoints_degenerate_witness :
  addToIntPoints 1 (9, 9)%Z [] wrap_world = Normal ([], wrap_world).
Proof.
  apply (@addToIntPoints_degenerate exact_oracle exact_store).
  vm_compute. reflexivity.
Defined.

(** Two squares that touch at a corner, after the split: the crossing is
    found twice on each. *)
Definition corner_world : World :=
  mkWorld [crossing 0 (4, 4)%Z 8 (Some 1) (Some 2);
           crossing 0 (4, 4)%Z 0 (Some 7) (Some 4);
           crossing 1 (4, 4)%Z 8 (Some 1) (Some 2);
           crossing 1 (4, 4)%Z 0 (Some 7) (Some 4)] (two B2).
Definition corner_crossings : Intersections :=
  mkIntersections [0; 2] [1; 3] (Some [0; 2]) (Some [1; 3]).

Lemma corner_paired : crossings_paired (recs corner_world) corner_crossings.
Proof.
  split; [|split].
  - split; [reflexivity|]. intros i p q Hp Hq.
    destruct i as [|[|i]]; simplify_eq/=; eexists _, _;
      (split; [reflexivity|]); (split; [reflexivity|]); done.
  - apply (bool_decide_unpack _). vm_compute. reflexivity.
  - eexists _, _. split; [reflexivity|]. split; [reflexivity|]. done.
Qed.

Lemma filterDuplicatedIntersections_keeps_pairing_witness :
  ∃ ints' w',
    filterDuplicatedIntersections corner_crossings corner_world
      = Normal (ints', w') ∧
    store w' = store corner_world ∧
    crossings_paired (recs w') ints'.
Proof.
  apply (filterDuplicatedIntersections_keeps_pairing corner_crossings
           corner_world).
  exact corner_paired.
Defined.

Lemma filterDuplicatedIntersections_short_witness :
  filterDuplicatedIntersections (mkIntersections [0] [1] (Some [0]) (Some [1]))
    corner_world
  = Normal (mkIntersections [0] [1] (Some [0]) (Some [1]), corner_world).
Proof.
  apply (@filterDuplicatedIntersections_short exact_oracle exact_store).
  simpl. lia.
Defined.

(** The square [A] with the edges 1 and 2 inside the other operand, a
    crossing found twice at the corner (0,4) and one at the corner (4,0). *)
Definition inside_edges (st : state) : state :=
  alter_edge (put_bv (Some INSIDE)) (alter_edge (put_bv (Some INSIDE)) st 1) 2.
Definition pull_world : World :=
  mkWorld [crossing 0 (0, 4)%Z 4 (Some 0) (Some 1);
           crossing 1 (0, 4)%Z 4 (Some 0) (Some 1);
           crossing 2 (4, 0)%Z 12 (Some 2) (Some 3)] (inside_edges one).

(** [C2]: a run of [removeNotRelevantChains] that removes a chain and leaves
    a record of the from-pull with its [edge_after].  The records 0 and 1
    are one pull (same point, same [edge_before], same [edge_after]: the
    pull of record 0 counts two records); the chain from edge 1 to edge 2 is
    removed (the face keeps the edges 0 and 3), [edge_after] of record 0 and
    [edge_before] of record 2 are cleared, and record 1 still has
    [edge_after = 1]. *)
Theorem removeNotRelevantChains_pull_kept :
  (∃ w0, intPointsPullCount [0; 1; 2] (Some 0) (Some 0) pull_world
           = Normal (2, w0)) ∧
  ∃ u w',
    removeNotRelevantChains 0 BOOLEAN_UNION (Some [0; 1; 2]) true pull_world
      = Normal (u, w') ∧
    (faces (store w'),
     edge_after <$> recs w' !! 0,
     edge_after <$> recs w' !! 1,
     edge_before <$> recs w' !! 2)
    = ([[0; 3]], Some None, Some (Some 1), Some None).
Proof.
  split.
  - destruct (observe_Some
                (intPointsPullCount [0; 1; 2] (Some 0) (Some 0)) pull_world
                (λ n _, n) 2) as (n & w0 & Hrun & ->);
      [vm_compute; reflexivity|].
    by exists w0.
  - apply (observe_Some
             (removeNotRelevantChains 0 BOOLEAN_UNION (Some [0; 1; 2]) true)
             pull_world).
    vm_compute. reflexivity.
Qed.

(** A store that is told that the edges 9 and 17 are inside the other
    polygon and every other edge outside. *)
Definition told (st : state) : state :=
  mkState (edges st) (faces st) (polygon_edges st) (polygon_faces st)
    (λ e poly, if decide (e = 9 ∨ e = 17) then Some INSIDE else Some OUTSIDE)
    (overlap_of st).
Definition dead_end_world : World := mkWorld [] (told (two B3)).

(** The stages of [booleanOpBinary] up to the end of [swapLinks]. *)
Definition until_swapLinks (polygon1 polygon2 : Poly) (op : Z) : M unit :=
  res_poly ← call_clone polygon1;
  wrk_poly ← call_clone polygon2;
  intersections ← collect_sort_split_filter res_poly wrk_poly;
  filterNotRelevantEdges res_poly wrk_poly intersections op;;
  copyWrkToRes res_poly wrk_poly op (int_points2 intersections);;
  swapLinks res_poly wrk_poly intersections.

(** [C3]: a call of [unify] that returns a polygon although a crossing is
    left as a dead end.  After [swapLinks] the record 0 has an [edge_before]
    and no [edge_after]; the call goes on and returns the result polygon,
    and the record still has no [edge_after]. *)
Theorem unify_returns_with_dead_end :
  (∃ u w1,
     until_swapLinks 0 1 BOOLEAN_UNION dead_end_world = Normal (u, w1) ∧
     (edge_before <$> recs w1 !! 0, edge_after <$> recs w1 !! 0)
     = (Some (Some 16), Some None)) ∧
  ∃ res w',
    unify 0 1 dead_end_world = Normal (res, w') ∧
    (res, edge_before <$> recs w' !! 0, edge_after <$> recs w' !! 0)
    = (2, Some (Some 16), Some None).
Proof.
  split.
  - apply (observe_Some (until_swapLinks 0 1 BOOLEAN_UNION) dead_end_world).
    vm_compute. reflexivity.
  - apply (observe_Some (unify 0 1) dead_end_world).
    vm_compute. reflexivity.
Qed.

(** [C6], as stated, does not hold of the sorter: on two squares that touch
    at a corner the sorted list of the first has the records 0 and 2 next to
    each other, of one face (face 0) and of equal arc length (8), and their
    [edge_before] are the edges 1 and 2. *)
Definition touching_world : World := mkWorld [] (two B2).

Lemma sorter_equal_run_edges_differ :
  ∃ ints w',
    (getIntersections 0 1 ≫= sortIntersections) touching_world
      = Normal (ints, w') ∧
    (int_points1_sorted ints,
     (λ x, (face x, arc_length x, edge_before x)) <$> recs w' !! 0,
     (λ x, (face x, arc_length x, edge_before x)) <$> recs w' !! 2,
     EQ 8%Z 8%Z)
    = (Some [0; 2], Some (Some 0, 8%Z, Some 1), Some (Some 0, 8%Z, Some 2),
       true).
Proof.
  apply (observe_Some (getIntersections 0 1 ≫= sortIntersections)
           touching_world).
  vm_compute. reflexivity.
Qed.

End Exact.

(** Tolerant geometry: points and lengths within one unit are equal. *)
Module Tolerant.
Import Rect.

#[local] Instance tolerant_oracle : PrimitiveOracle := oracle 1.
#[local] Instance tolerant_store : PolygonStore := pstore 1.

Definition A : list point := [(0,0);(0,4);(4,4);(4,0)]%Z.
Definition B1 : list point := [(5,2);(5,9);(8,9);(8,2)]%Z.
Definition near : state := (add_polygon (add_polygon empty A).1 B1).1.

Lemma tolerant_GT_asym (a b : Z) : GT a b = true → GT b a = false.
Proof.
  simpl. intros Hab. apply bool_decide_eq_true in Hab.
  apply bool_decide_eq_false. lia.
Qed.

Lemma tolerant_LT_not_GT (a b : Z) : LT a b = true → GT a b = false.
Proof.
  simpl. intros Hab. apply bool_decide_eq_true in Hab.
  apply bool_decide_eq_false. lia.
Qed.

Definition crossing (f : nat) (arc : Z) : IntPoint :=
  mkIntPoint 0 (0, 0)%Z arc None None (Some f) NOT_VERTEX None.
Definition unsorted_world : World :=
  mkWorld [crossing 7 9; crossing 3 2; crossing 7 5] near.

Lemma getSortedArray_order_witness :
  ∃ s w', getSortedArray [0; 1; 2] unsorted_world = Normal (s, w') ∧
          s ≡ₚ [0; 1; 2].
Proof.
  destruct (@getSortedArray_order tolerant_oracle tolerant_store
              tolerant_GT_asym tolerant_LT_not_GT [0; 1; 2] unsorted_world)
    as (s & w' & Hrun & Hperm & _).
  - intros r Hr. destruct r as [|[|[|r]]]; [by eexists..|].
    exfalso. set_solver.
  - by exists s, w'.
Defined.

End Tolerant.

(** * Further properties of the stages *)

(** ** The collector, as a whole *)

Section Collecting.
Context `{PolygonStore}.

(** What a call of [addToIntPoints] that emits a record does. *)
Definition emitted (edge : Edge) (p : Point) (l : list ipref) (w : World)
    (l' : list ipref) (w' : World) : Prop :=
  ∃ r, l' = l ++ [length (recs w)] ∧ recs w' = recs w ++ [r] ∧
       store w' = store w ∧
       id r = Z.of_nat (length l) ∧ pt r = p ∧
       edge_before r = Some edge ∧ edge_after r = None ∧
       face r = e_face (store w) edge ∧ faceId r = None.

Lemma wp_addToIntPoints edge p l w :
  shape_split (e_shape (store w) edge) p ≠ [] →
  wp True (addToIntPoints edge p l) (emitted edge p l w) w.
Proof.
  intros Hne. unfold addToIntPoints.
  apply wp_bind, wp_get_store.
  destruct (decide _) as [Hz|_].
  { destruct (shape_split _ _); [done | discriminate]. }
  apply wp_bind.
  apply (wp_mono _ _ (λ _ w', w' = w)).
  { destruct (_ !! 0) as [[s0|]|]; [destruct (_ !! 1) as [[s1|]|]| |
      destruct (_ !! 1) as [[s1|]|]]; simpl;
      try (by apply wp_ret); by apply wp_bind, wp_deref. }
  intros len ? ->. apply wp_bind.
  apply (wp_mono _ _ (λ _ w', w' = w)).
  { destruct (decide _); [|by apply wp_ret].
    apply wp_bind, wp_deref. destruct (e_next _ _); [|done]. by apply wp_ret. }
  intros arc ? ->. apply wp_bind, wp_new_rec, wp_ret.
  eexists. simpl. split; [done|]. split; [done|]. done.
Qed.

(** The two crossing lists of a run of the collector from [w0]: they name
    records made since [w0], each once, and the records at one index have
    that index as [id] and one point. *)
Definition collected (w0 w : World) (ints : Intersections) : Prop :=
  store w = store w0 ∧
  (∃ new, recs w = recs w0 ++ new) ∧
  int_points1_sorted ints = None ∧ int_points2_sorted ints = None ∧
  length (int_points1 ints) = length (int_points2 ints) ∧
  NoDup (int_points1 ints ++ int_points2 ints) ∧
  (∀ r, r ∈ int_points1 ints ++ int_points2 ints →
     length (recs w0) ≤ r < length (recs w)) ∧
  ∀ i p q, int_points1 ints !! i = Some p → int_points2 ints !! i = Some q →
    ∃ x y, recs w !! p = Some x ∧ recs w !! q = Some y ∧
      id x = Z.of_nat i ∧ id y = Z.of_nat i ∧ pt x = pt y.

Lemma collected_start w0 : collected w0 w0 (mkIntersections [] [] None None).
Proof.
  split; [done|]. split; [by exists []; rewrite app_nil_r|].
  split; [done|]. split; [done|]. split; [done|].
  split; [constructor|]. split; [intros r Hr; set_solver|].
  intros i p q Hp. done.
Qed.

Lemma collected_step w0 w ints edge1 edge2 p :
  collected w0 w ints →
  shape_split (e_shape (store w0) edge1) p ≠ [] →
  shape_split (e_shape (store w0) edge2) p ≠ [] →
  wp True
    (l1 ← addToIntPoints edge1 p (int_points1 ints);
     l2 ← addToIntPoints edge2 p (int_points2 ints);
     mret (mkIntersections l1 l2 (int_points1_sorted ints)
             (int_points2_sorted ints)))
    (λ ints' w', collected w0 w' ints') w.
Proof.
  intros (Hst & [new Hnew] & Hs1 & Hs2 & Hlen & Hnd & Hrange & Hpair) H1 H2.
  apply wp_bind. eapply wp_mono.
  { apply wp_addToIntPoints. by rewrite Hst. }
  intros l1 w1 (r1 & -> & Hr1 & Hst1 & Hid1 & Hpt1 & _).
  apply wp_bind. eapply wp_mono.
  { apply wp_addToIntPoints. by rewrite Hst1, Hst. }
  intros l2 w2 (r2 & -> & Hr2 & Hst2 & Hid2 & Hpt2 & _).
  apply wp_ret. unfold collected. simpl.
  assert (length (recs w1) = S (length (recs w))) as Hl1.
  { rewrite Hr1, length_app. simpl. lia. }
  assert (length (recs w2) = S (S (length (recs w)))) as Hl2.
  { rewrite Hr2, length_app. simpl. lia. }
  split; [congruence|]. split.
  { exists (new ++ [r1; r2]). rewrite Hr2, Hr1, Hnew, <- !app_assoc. done. }
  split; [done|]. split; [done|].
  split; [rewrite !length_app; simpl; lia|].
  assert (length (recs w0) ≤ length (recs w)) as Hle.
  { rewrite Hnew, length_app. lia. }
  split.
  { assert (∀ r, r ∈ int_points1 ints ++ int_points2 ints →
              r ≠ length (recs w) ∧ r ≠ length (recs w1)) as Hfresh.
    { intros r Hr. apply Hrange in Hr. lia. }
    apply NoDup_app in Hnd as (Hn1 & Hdis & Hn2).
    apply NoDup_app. split; [|split].
    - apply NoDup_app. split; [done|]. split; [|apply NoDup_singleton].
      intros x Hx Hy. apply list_elem_of_singleton in Hy.
      destruct (Hfresh x) as [? ?]; [set_solver|congruence].
    - intros x Hx Hy. apply elem_of_app in Hx, Hy.
      rewrite !list_elem_of_singleton in Hx, Hy.
      destruct Hx as [Hx|Hx], Hy as [Hy|Hy].
      + by eapply Hdis.
      + destruct (Hfresh x) as [? ?]; [set_solver|congruence].
      + destruct (Hfresh x) as [? ?]; [set_solver|congruence].
      + lia.
    - apply NoDup_app. split; [done|]. split; [|apply NoDup_singleton].
      intros x Hx Hy. apply list_elem_of_singleton in Hy.
      destruct (Hfresh x) as [? ?]; [set_solver|congruence]. }
  split.
  { intros r Hr.
    assert (r ∈ int_points1 ints ++ int_points2 ints ∨
            r = length (recs w) ∨ r = length (recs w1)) as [Hold|[->| ->]]
      by set_solver.
    - specialize (Hrange r Hold). lia.
    - lia.
    - lia. }
  intros i a b Ha Hb.
  destruct (decide (i < length (int_points1 ints))) as [Hi|Hi].
  - rewrite lookup_app_l in Ha by done.
    rewrite lookup_app_l in Hb by lia.
    destruct (Hpair i a b Ha Hb) as (x & y & Hx & Hy & Hrest).
    exists x, y. rewrite Hr2, Hr1.
    rewrite !lookup_app_l by
      (rewrite ?length_app; simpl;
       apply lookup_lt_Some in Hx; apply lookup_lt_Some in Hy; lia).
    done.
  - assert (i = length (int_points1 ints)) as ->.
    { apply lookup_lt_Some in Ha. rewrite length_app in Ha. simpl in Ha. lia. }
    rewrite list_lookup_middle in Ha by done.
    rewrite list_lookup_middle in Hb by done.
    injection Ha as <-. injection Hb as <-.
    exists r1, r2. rewrite Hr2.
    split.
    { rewrite lookup_app_l by lia. rewrite Hr1.
      by rewrite list_lookup_middle. }
    split; [by rewrite list_lookup_middle|].
    split; [done|]. split; [by rewrite Hid2, Hlen | congruence].
Qed.

(** The edges and points that the collector meets in a store. *)
Definition meets (st : St) (polygon1 polygon2 : Poly) (edge1 edge2 : Edge)
    (p : Point) : Prop :=
  edge1 ∈ poly_edges st polygon1 ∧
  edge2 ∈ edges_search st polygon2 (e_box st edge1) ∧
  p ∈ shape_intersect (e_shape st edge1) (e_shape st edge2).

Lemma wp_getIntersections polygon1 polygon2 w :
  (∀ edge1 edge2 p, meets (store w) polygon1 polygon2 edge1 edge2 p →
     shape_split (e_shape (store w) edge1) p ≠ [] ∧
     shape_split (e_shape (store w) edge2) p ≠ []) →
  wp True (getIntersections polygon1 polygon2)
    (λ ints w', collected w w' ints) w.
Proof.
  intros Hsplit. unfold getIntersections. apply wp_bind, wp_get_store.
  apply (wp_fold_each _ _ _ _ (λ _ ints w', collected w w' ints)).
  { apply collected_start. }
  intros pre1 edge1 post1 s1 w1 Hl1 Hc1.
  apply wp_bind, wp_get_store.
  assert (store w1 = store w) as Hst1 by (by destruct Hc1).
  rewrite Hst1.
  apply (wp_fold_each _ _ _ _ (λ _ ints w', collected w w' ints)); [done|].
  intros pre2 edge2 post2 s2 w2 Hl2 Hc2.
  apply wp_bind, wp_get_store.
  assert (store w2 = store w) as Hst2 by (by destruct Hc2).
  rewrite Hst2.
  apply (wp_fold_each _ _ _ _ (λ _ ints w', collected w w' ints)); [done|].
  intros pre3 p post3 s3 w3 Hl3 Hc3.
  destruct (Hsplit edge1 edge2 p) as [Hs1 Hs2].
  { split; [rewrite Hl1; set_solver|].
    split; [rewrite Hl2; set_solver | rewrite Hl3; set_solver]. }
  by apply collected_step.
Qed.

(** The test of the hypothesis on the splits, for a store whose polygons
    are given. *)
Definition splits_everywhere (st : St) (polygon1 polygon2 : Poly) : bool :=
  forallb (λ edge1,
    forallb (λ edge2,
      forallb (λ p,
        match shape_split (e_shape st edge1) p,
              shape_split (e_shape st edge2) p with
        | _ :: _, _ :: _ => true
        | _, _ => false
        end)
        (shape_intersect (e_shape st edge1) (e_shape st edge2)))
      (edges_search st polygon2 (e_box st edge1)))
    (poly_edges st polygon1).

Lemma splits_everywhere_meets st polygon1 polygon2 edge1 edge2 p :
  splits_everywhere st polygon1 polygon2 = true →
  meets st polygon1 polygon2 edge1 edge2 p →
  shape_split (e_shape st edge1) p ≠ [] ∧
  shape_split (e_shape st edge2) p ≠ [].
Proof.
  intros Hall (H1 & H2 & Hp). unfold splits_everywhere in Hall.
  rewrite forallb_forall in Hall.
  specialize (Hall edge1 (proj1 (list_elem_of_In _ _) H1)).
  rewrite forallb_forall in Hall.
  specialize (Hall edge2 (proj1 (list_elem_of_In _ _) H2)).
  rewrite forallb_forall in Hall.
  specialize (Hall p (proj1 (list_elem_of_In _ _) Hp)).
  destruct (shape_split (e_shape st edge1) p); [done|].
  destruct (shape_split (e_shape st edge2) p); done.
Qed.

(** [X2] When no split of a crossing is empty, the lists that [getIntersections]
    returns are of one length, name new records, each once, and the records
    at index [i] of the two lists have [id = i] and the same point; the
    store and the records that existed are as they were. *)
Theorem getIntersections_collected polygon1 polygon2 w ints w' :
  (∀ edge1 edge2 p, meets (store w) polygon1 polygon2 edge1 edge2 p →
     shape_split (e_shape (store w) edge1) p ≠ [] ∧
     shape_split (e_shape (store w) edge2) p ≠ []) →
  getIntersections polygon1 polygon2 w = Normal (ints, w') →
  collected w w' ints.
Proof.
  intros Hsplit Hrun.
  pose proof (wp_getIntersections polygon1 polygon2 w Hsplit) as Hwp.
  exact (wp_Normal True _ _ w ints w' Hwp Hrun).
Qed.

End Collecting.

(** ** What a stage leaves as it is

    [frame R S m]: a run of [m] that returns makes no record and loses none,
    takes every record to one that is [R]-related to it, and the store to an
    [S]-related one. *)

Section Frames.
Context `{PolygonStore}.
Variables (R : IntPoint → IntPoint → Prop) (S : St → St → Prop).
Context `{!PreOrder R, !PreOrder S}.

Definition within (w w' : World) : Prop :=
  Forall2 R (recs w) (recs w') ∧ S (store w) (store w').

Definition frame {A} (m : M A) : Prop :=
  ∀ w, wp True m (λ _ w', within w w') w.

Lemma within_refl w : within w w.
Proof. split; reflexivity. Qed.

Lemma within_trans w1 w2 w3 : within w1 w2 → within w2 w3 → within w1 w3.
Proof.
  intros [Hr1 Hs1] [Hr2 Hs2]. split.
  - by transitivity (recs w2).
  - by transitivity (store w2).
Qed.

Lemma frame_ret {A} (a : A) : frame (mret a).
Proof. intros w. apply wp_ret, within_refl. Qed.

Lemma frame_bind {A B} (m : M A) (k : A → M B) :
  frame m → (∀ a, frame (k a)) → frame (m ≫= k).
Proof.
  intros Hm Hk w. apply wp_bind. eapply wp_mono; [apply Hm|].
  intros a w1 H1. eapply wp_mono; [apply Hk|].
  intros b w2 H2. exact (within_trans _ _ _ H1 H2).
Qed.

Lemma frame_deref {A} (o : option A) : frame (deref o).
Proof. intros w. apply wp_deref. destruct o; [apply within_refl | done]. Qed.

Lemma frame_get_store : frame get_store.
Proof. intros w. apply wp_get_store, within_refl. Qed.

Lemma frame_get_recs : frame get_recs.
Proof. intros w. apply wp_get_recs, within_refl. Qed.

Lemma frame_get_rec r : frame (get_rec r).
Proof.
  intros w. apply wp_get_rec. destruct (_ !! _); [apply within_refl | done].
Qed.

Lemma frame_field {A} o (f : IntPoint → A) : frame (field o f).
Proof.
  unfold field. apply frame_bind; [apply frame_deref|]. intros r.
  apply frame_bind; [apply frame_get_rec|]. intros x. apply frame_ret.
Qed.

Lemma frame_upd_rec r f : (∀ x, R x (f x)) → frame (upd_rec r f).
Proof.
  intros Hf w. apply wp_upd_rec. split; [|simpl; reflexivity]. simpl.
  apply Forall2_same_length_lookup. split; [by rewrite length_alter|].
  intros i x y Hx Hy. destruct (decide (i = r)) as [->|Hne].
  - rewrite list_lookup_alter_eq, Hx in Hy. simpl in Hy.
    injection Hy as <-. apply Hf.
  - rewrite list_lookup_alter_ne in Hy by done.
    assert (x = y) as -> by congruence. reflexivity.
Qed.

Lemma frame_modify_store f : (∀ st, S st (f st)) → frame (modify_store f).
Proof.
  intros Hf w. apply wp_modify_store. split; [reflexivity | apply Hf].
Qed.

Lemma frame_put_store st : (∀ a b, S a b) → frame (put_store st).
Proof. intros Hs w. apply wp_put_store. split; [reflexivity | apply Hs]. Qed.

Lemma frame_for_each {A} (l : list A) body :
  (∀ x, frame (body x)) → frame (for_each l body).
Proof.
  intros Hb. induction l as [|x l IH]; simpl; [apply frame_ret|].
  apply frame_bind; [apply Hb | done].
Qed.

Lemma frame_fold_each {A B} (l : list A) (s : B) body :
  (∀ s x, frame (body s x)) → frame (fold_each l s body).
Proof.
  intros Hb. revert s. induction l as [|x l IH]; intros s; simpl;
    [apply frame_ret|].
  apply frame_bind; [apply Hb | done].
Qed.

Lemma frame_run {A} (m : M A) w a w' :
  frame m → m w = Normal (a, w') → within w w'.
Proof.
  intros Hm Hrun. exact (wp_Normal True m _ w a w' (Hm w) Hrun).
Qed.

End Frames.

Create HintDb frames.

Ltac frame_rule l := apply l; try exact _.

Ltac frame_head :=
  first
    [ solve [auto with frames]
    | frame_rule frame_ret | frame_rule frame_deref
    | frame_rule frame_get_store | frame_rule frame_get_recs
    | frame_rule frame_get_rec | frame_rule frame_field
    | frame_rule frame_upd_rec; solve [auto]
    | frame_rule frame_modify_store; solve [auto]
    | frame_rule frame_put_store; solve [auto]
    | frame_rule frame_for_each; intros ?
    | frame_rule frame_fold_each; intros ? ? ].

Ltac frame_step :=
  lazymatch goal with
  | |- frame _ _ (_ ≫= _) => frame_rule frame_bind; [|intros ?]
  | |- frame _ _ (if decide ?P then _ else _) => destruct (decide P)
  | |- frame _ _ (if ?b then _ else _) => destruct b
  | |- frame _ _ (match ?o with Some _ => _ | None => _ end) => destruct o
  | |- frame _ _ (let '(_, _) := ?p in _) => destruct p
  | |- frame _ _ ((let '(_, _) := ?p in _) _) => destruct p
  | |- frame _ _ (let _ := _ in _) => cbv zeta
  | |- frame _ _ _ => frame_head
  end.

Ltac frame_go := repeat frame_step.

Section Stages.
Context `{PolygonStore}.
Variables (R : IntPoint → IntPoint → Prop) (S : St → St → Prop).
Context `{!PreOrder R, !PreOrder S}.

Abbreviation frame := (frame R S).

(** The capabilities of a stage: the assignments to records and the
    methods of the store that it uses. *)
Definition may_number : Prop :=
  (∀ v x, R x (set_id v x)) ∧ (∀ v x, R x (set_faceId v x)).
Definition may_link : Prop :=
  (∀ v x, R x (set_edge_before v x)) ∧ (∀ v x, R x (set_edge_after v x)).
Definition may_unlink : Prop :=
  (∀ x, R x (set_edge_before None x)) ∧ (∀ x, R x (set_edge_after None x)).
Definition may_flag : Prop := ∀ v x, R x (set_is_vertex v x).
Definition may_face : Prop := ∀ v x, R x (set_ip_face v x).
Definition any_store : Prop := ∀ a b, S a b.

Lemma frame_same_edges c1 r1 c2 r2 : frame (same_edges c1 r1 c2 r2).
Proof. unfold same_edges. frame_go. Qed.
#[local] Hint Resolve frame_same_edges : frames.

Lemma frame_getSortedArray l : may_number → frame (getSortedArray l).
Proof. intros [Hid Hfid]. unfold getSortedArray. frame_go. Qed.
#[local] Hint Resolve frame_getSortedArray : frames.

Lemma frame_sortIntersections ints :
  may_number → frame (sortIntersections ints).
Proof. intros Hn. unfold sortIntersections. frame_go. Qed.
#[local] Hint Resolve frame_sortIntersections : frames.

Lemma frame_mark_sweep1 l s c : may_number → frame (mark_sweep1 l s c).
Proof. intros [Hid Hfid]. unfold mark_sweep1. frame_go. Qed.
#[local] Hint Resolve frame_mark_sweep1 : frames.

Lemma frame_mark_sweep2 l s c : may_number → frame (mark_sweep2 l s c).
Proof. intros [Hid Hfid]. unfold mark_sweep2. frame_go. Qed.
#[local] Hint Resolve frame_mark_sweep2 : frames.

Lemma frame_filter_live l : frame (filter_live l).
Proof. induction l as [|x l IH]; simpl; frame_go. Qed.
#[local] Hint Resolve frame_filter_live : frames.

Lemma frame_renumber l : may_number → frame (renumber l).
Proof. intros [Hid Hfid]. unfold renumber. frame_go. Qed.
#[local] Hint Resolve frame_renumber : frames.

Lemma frame_filterDuplicatedIntersections ints :
  may_number → frame (filterDuplicatedIntersections ints).
Proof.
  intros Hn. pose proof Hn as [Hid Hfid].
  unfold filterDuplicatedIntersections. frame_go.
Qed.
#[local] Hint Resolve frame_filterDuplicatedIntersections : frames.

Lemma frame_split_step polygon r :
  may_link → may_flag → any_store → frame (split_step polygon r).
Proof.
  intros [Hb Ha] Hf Hs. unfold split_step. frame_go.
Qed.
#[local] Hint Resolve frame_split_step : frames.

Lemma frame_link_step r : may_link → frame (link_step r).
Proof. intros [Hb Ha]. unfold link_step. frame_go. Qed.
#[local] Hint Resolve frame_link_step : frames.

Lemma frame_splitByIntersections polygon l :
  may_link → may_flag → any_store →
  frame (splitByIntersections polygon l).
Proof.
  intros Hl Hf Hs. pose proof Hl as [Hb Ha].
  unfold splitByIntersections. frame_go.
Qed.
#[local] Hint Resolve frame_splitByIntersections : frames.

Lemma frame_find_on_face l f : frame (find_on_face l f).
Proof. induction l as [|x l IH]; simpl; frame_go. Qed.
#[local] Hint Resolve frame_find_on_face : frames.

Lemma frame_getNotIntersectedFaces poly l :
  frame (getNotIntersectedFaces poly l).
Proof. unfold getNotIntersectedFaces. frame_go. Qed.
#[local] Hint Resolve frame_getNotIntersectedFaces : frames.

Lemma frame_calcInclusionForNotIntersectedFaces fs poly2 :
  any_store → frame (calcInclusionForNotIntersectedFaces fs poly2).
Proof. intros Hs. unfold calcInclusionForNotIntersectedFaces. frame_go. Qed.
#[local] Hint Resolve frame_calcInclusionForNotIntersectedFaces : frames.

Lemma frame_initializeInclusionFlags l :
  any_store → frame (initializeInclusionFlags l).
Proof. intros Hs. unfold initializeInclusionFlags. frame_go. Qed.
#[local] Hint Resolve frame_initializeInclusionFlags : frames.

Lemma frame_calculateInclusionFlags l polygon :
  any_store → frame (calculateInclusionFlags l polygon).
Proof. intros Hs. unfold calculateInclusionFlags. frame_go. Qed.
#[local] Hint Resolve frame_calculateInclusionFlags : frames.

Lemma frame_boundary_ends a b : frame (boundary_ends a b).
Proof. unfold boundary_ends. frame_go. Qed.
#[local] Hint Resolve frame_boundary_ends : frames.

Lemma frame_boundary_chain a b : frame (boundary_chain a b).
Proof. unfold boundary_chain. frame_go. Qed.
#[local] Hint Resolve frame_boundary_chain : frames.

Lemma frame_overlap_step ints n s i :
  any_store → frame (overlap_step ints n s i).
Proof. intros Hs. unfold overlap_step. frame_go. Qed.
#[local] Hint Resolve frame_overlap_step : frames.

Lemma frame_setOverlappingFlags ints :
  any_store → frame (setOverlappingFlags ints).
Proof. intros Hs. unfold setOverlappingFlags. frame_go. Qed.
#[local] Hint Resolve frame_setOverlappingFlags : frames.

Lemma frame_pull_scan cur f rest n : frame (pull_scan cur f rest n).
Proof. revert n. induction rest as [|x rest IH]; intros n; simpl; frame_go. Qed.
#[local] Hint Resolve frame_pull_scan : frames.

Lemma frame_intPointsPullCount l n f : frame (intPointsPullCount l n f).
Proof. unfold intPointsPullCount. frame_go. Qed.
#[local] Hint Resolve frame_intPointsPullCount : frames.

Lemma frame_chain_step polygon op l is_res i cur_face first :
  may_unlink → any_store →
  frame (chain_step polygon op l is_res i cur_face first).
Proof. intros [Hb Ha] Hs. unfold chain_step. frame_go. Qed.
#[local] Hint Resolve frame_chain_step : frames.

Lemma frame_chain_loop turns polygon op l is_res i cur_face first :
  may_unlink → any_store →
  frame (chain_loop turns polygon op l is_res i cur_face first).
Proof.
  intros Hu Hs. revert i cur_face first.
  induction turns as [|turns IH]; intros i cur_face first; simpl; frame_go.
Qed.
#[local] Hint Resolve frame_chain_loop : frames.

Lemma frame_removeNotRelevantChains polygon op l is_res :
  may_unlink → any_store →
  frame (removeNotRelevantChains polygon op l is_res).
Proof.
  intros Hu Hs. pose proof Hu as [Hb Ha].
  unfold removeNotRelevantChains. frame_go.
Qed.
#[local] Hint Resolve frame_removeNotRelevantChains : frames.

Lemma frame_removeNotRelevantNotIntersectedFaces polygon fs op is_res :
  any_store →
  frame (removeNotRelevantNotIntersectedFaces polygon fs op is_res).
Proof.
  intros Hs. unfold removeNotRelevantNotIntersectedFaces. frame_go.
Qed.
#[local] Hint Resolve frame_removeNotRelevantNotIntersectedFaces : frames.

Lemma frame_filterNotRelevantEdges res_poly wrk_poly ints op :
  may_unlink → any_store →
  frame (filterNotRelevantEdges res_poly wrk_poly ints op).
Proof.
  intros Hu Hs. pose proof Hu as [Hb Ha].
  unfold filterNotRelevantEdges. frame_go.
Qed.
#[local] Hint Resolve frame_filterNotRelevantEdges : frames.

Lemma frame_copyWrkToRes res_polygon wrk_polygon op l :
  any_store → frame (copyWrkToRes res_polygon wrk_polygon op l).
Proof. intros Hs. unfold copyWrkToRes. frame_go. Qed.
#[local] Hint Resolve frame_copyWrkToRes : frames.

Lemma frame_connect a b : may_link → any_store → frame (connect a b).
Proof. intros [Hb Ha] Hs. unfold connect. frame_go. Qed.
#[local] Hint Resolve frame_connect : frames.

Lemma frame_needs_swap x : frame (needs_swap x).
Proof. unfold needs_swap. frame_go. Qed.
#[local] Hint Resolve frame_needs_swap : frames.

Lemma frame_offers_continuation x : frame (offers_continuation x).
Proof. unfold offers_continuation. frame_go. Qed.
#[local] Hint Resolve frame_offers_continuation : frames.

Lemma frame_touching_case sorted r :
  may_link → any_store → frame (touching_case sorted r).
Proof.
  intros Hl Hs. pose proof Hl as [Hb Ha]. unfold touching_case. frame_go.
Qed.
#[local] Hint Resolve frame_touching_case : frames.

Lemma frame_swap_step ints i :
  may_link → any_store → frame (swap_step ints i).
Proof.
  intros Hl Hs. pose proof Hl as [Hb Ha]. unfold swap_step. frame_go.
Qed.
#[local] Hint Resolve frame_swap_step : frames.

Lemma frame_swapLinks res_polygon wrk_polygon ints :
  may_link → any_store → frame (swapLinks res_polygon wrk_polygon ints).
Proof.
  intros Hl Hs. pose proof Hl as [Hb Ha]. unfold swapLinks. frame_go.
Qed.
#[local] Hint Resolve frame_swapLinks : frames.

Lemma frame_removeOldFaces polygon l :
  may_face → any_store → frame (removeOldFaces polygon l).
Proof. intros Hf Hs. unfold removeOldFaces. frame_go. Qed.
#[local] Hint Resolve frame_removeOldFaces : frames.

Lemma frame_mark_restored f l : may_face → frame (mark_restored f l).
Proof. intros Hf. unfold mark_restored. frame_go. Qed.
#[local] Hint Resolve frame_mark_restored : frames.

Lemma frame_restore_step polygon l other r :
  may_face → any_store → frame (restore_step polygon l other r).
Proof. intros Hf Hs. unfold restore_step. frame_go. Qed.
#[local] Hint Resolve frame_restore_step : frames.

Lemma frame_restoreFaces polygon l other :
  may_face → any_store → frame (restoreFaces polygon l other).
Proof. intros Hf Hs. unfold restoreFaces. frame_go. Qed.
#[local] Hint Resolve frame_restoreFaces : frames.

Lemma frame_swapLinksAndRestore res_poly wrk_poly ints op :
  may_link → may_face → any_store →
  frame (swapLinksAndRestore res_poly wrk_poly ints op).
Proof.
  intros Hl Hf Hs. pose proof Hl as [Hb Ha].
  unfold swapLinksAndRestore. frame_go.
Qed.

End Stages.

Section StageFrames.
Context `{PolygonStore}.

(** The same crossing but for the numbering: [id] and [faceId] apart. *)
Definition renumbered (x y : IntPoint) : Prop :=
  pt y = pt x ∧ arc_length y = arc_length x ∧
  edge_before y = edge_before x ∧ edge_after y = edge_after x ∧
  face y = face x ∧ is_vertex y = is_vertex x.

(** The same crossing but for its place on the polygon: [edge_before],
    [edge_after] and [is_vertex] apart. *)
Definition resplit (x y : IntPoint) : Prop :=
  id y = id x ∧ pt y = pt x ∧ arc_length y = arc_length x ∧
  face y = face x ∧ faceId y = faceId x.

(** The same crossing, with the links it had or without them. *)
Definition unlinked (x y : IntPoint) : Prop :=
  id y = id x ∧ pt y = pt x ∧ arc_length y = arc_length x ∧
  face y = face x ∧ is_vertex y = is_vertex x ∧ faceId y = faceId x ∧
  (edge_before y = edge_before x ∨ edge_before y = None) ∧
  (edge_after y = edge_after x ∨ edge_after y = None).

(** The same crossing but for its links and its face. *)
Definition restitched (x y : IntPoint) : Prop :=
  id y = id x ∧ pt y = pt x ∧ arc_length y = arc_length x ∧
  is_vertex y = is_vertex x ∧ faceId y = faceId x.

#[local] Instance renumbered_preorder : PreOrder renumbered.
Proof.
  split; [by intros x|].
  intros x y z (? & ? & ? & ? & ? & ?) (? & ? & ? & ? & ? & ?).
  unfold renumbered. split_and!; congruence.
Qed.

#[local] Instance resplit_preorder : PreOrder resplit.
Proof.
  split; [by intros x|].
  intros x y z (? & ? & ? & ? & ?) (? & ? & ? & ? & ?).
  unfold resplit. split_and!; congruence.
Qed.

#[local] Instance unlinked_preorder : PreOrder unlinked.
Proof.
  split.
  { intros x. unfold unlinked. split_and!; auto. }
  intros x y z (? & ? & ? & ? & ? & ? & Hb1 & Ha1)
    (? & ? & ? & ? & ? & ? & Hb2 & Ha2).
  unfold unlinked. split_and!; try congruence.
  - destruct Hb1, Hb2; [left|right|right|right]; congruence.
  - destruct Ha1, Ha2; [left|right|right|right]; congruence.
Qed.

#[local] Instance restitched_preorder : PreOrder restitched.
Proof.
  split; [by intros x|].
  intros x y z (? & ? & ? & ? & ?) (? & ? & ? & ? & ?).
  unfold restitched. split_and!; congruence.
Qed.

#[local] Instance any_store_preorder : PreOrder (λ _ _ : St, True).
Proof. by split. Qed.

Lemma wp_any {A} (m : M A) w : wp True m (λ _ _, True) w.
Proof. unfold wp. by destruct (m w) as [[? ?]|]. Qed.

Lemma wp_filter_live_sublist l w :
  wp True (filter_live l) (λ l' w', w' = w ∧ sublist l' l) w.
Proof.
  induction l as [|x l IH]; simpl.
  - by apply wp_ret.
  - apply wp_bind, wp_field. simpl. destruct (recs w !! x); [|done].
    apply wp_bind. eapply wp_mono; [exact IH|].
    intros l' w' [-> Hsub]. apply wp_ret. split; [done|].
    destruct (decide _); by constructor.
Qed.

Lemma filterDuplicatedIntersections_sublists ints w :
  wp True (filterDuplicatedIntersections ints)
    (λ ints' _, sublist (int_points1 ints') (int_points1 ints) ∧
                sublist (int_points2 ints') (int_points2 ints)) w.
Proof.
  unfold filterDuplicatedIntersections.
  destruct (decide _); [by apply wp_ret|].
  apply wp_bind, wp_deref. destruct (int_points1_sorted ints); [|done].
  apply wp_bind, wp_field. destruct (_ ≫= _); [|done].
  apply wp_bind. apply (wp_mono _ _ (λ _ _, True)); [apply wp_any|].
  intros [[? ?] sq1] w1 _.
  apply wp_bind, wp_deref. destruct (int_points2_sorted ints); [|done].
  apply wp_bind, wp_field. destruct (_ ≫= _); [|done].
  apply wp_bind. apply (wp_mono _ _ (λ _ _, True)); [apply wp_any|].
  intros [[? ?] sq2] w2 _. destruct sq2; [|by apply wp_ret].
  apply wp_bind. eapply wp_mono; [apply wp_filter_live_sublist|].
  intros p1 w3 [-> Hp1].
  apply wp_bind. eapply wp_mono; [apply wp_filter_live_sublist|].
  intros p2 w3 [-> Hp2].
  apply wp_bind. apply (wp_mono _ _ (λ _ _, True)); [apply wp_any|].
  intros _ w4 _.
  apply wp_bind. apply (wp_mono _ _ (λ _ _, True)); [apply wp_any|].
  intros _ w5 _. unfold sortIntersections.
  apply wp_bind. apply (wp_mono _ _ (λ _ _, True)); [apply wp_any|].
  intros s1 w6 _.
  apply wp_bind. apply (wp_mono _ _ (λ _ _, True)); [apply wp_any|].
  intros s2 w7 _. by apply wp_ret.
Qed.

(** [X5] The duplicate filter, on any input: a call that returns has left the
    store as it was, has made no record and lost none, has changed no field
    of a record but [id] and [faceId], and returns lists that are sublists
    of the lists it was given. *)
Theorem filterDuplicatedIntersections_frame ints w ints' w' :
  filterDuplicatedIntersections ints w = Normal (ints', w') →
  store w' = store w ∧ Forall2 renumbered (recs w) (recs w') ∧
  sublist (int_points1 ints') (int_points1 ints) ∧
  sublist (int_points2 ints') (int_points2 ints).
Proof.
  intros Hrun.
  assert (frame renumbered eq (filterDuplicatedIntersections ints)) as Hf.
  { apply frame_filterDuplicatedIntersections; try exact _.
    split; intros v x; done. }
  destruct (frame_run renumbered eq _ w ints' w' Hf Hrun) as [Hr Hs].
  split; [done|]. split; [done|].
  exact (wp_Normal True _ _ w ints' w'
           (filterDuplicatedIntersections_sublists ints w) Hrun).
Qed.

Lemma resplit_run polygon l w u w' :
  splitByIntersections polygon l w = Normal (u, w') →
  Forall2 resplit (recs w) (recs w').
Proof.
  intros Hrun.
  refine (proj1 (frame_run resplit (λ _ _, True) _ w u w' _ Hrun)).
  apply frame_splitByIntersections; try exact _; try done.
Qed.

(** [X6] The splitter: a call that returns has made no record and lost none, and
    has changed no field of a record but [edge_before], [edge_after] and
    [is_vertex]. *)
Theorem splitByIntersections_frame polygon l w u w' :
  splitByIntersections polygon l w = Normal (u, w') →
  length (recs w') = length (recs w) ∧ Forall2 resplit (recs w) (recs w').
Proof.
  intros Hrun. pose proof (resplit_run polygon l w u w' Hrun) as Hrel.
  split; [|exact Hrel]. symmetry. by eapply Forall2_length.
Qed.

(** [X7] The stage that classifies and excises: a call that returns has made no
    record and lost none; a record has the [edge_before] it had or none,
    the [edge_after] it had or none, and its other fields as they were. *)
Theorem filterNotRelevantEdges_unlinks res_poly wrk_poly ints op w u w' :
  filterNotRelevantEdges res_poly wrk_poly ints op w = Normal (u, w') →
  Forall2 unlinked (recs w) (recs w').
Proof.
  intros Hrun.
  refine (proj1 (frame_run unlinked (λ _ _, True) _ w u w' _ Hrun)).
  apply frame_filterNotRelevantEdges; try exact _; try done.
  split; intros x; unfold unlinked; simpl; split_and!; auto.
Qed.

(** [X8] The restitcher: a call that returns has made no record and lost none,
    and has changed no field of a record but [edge_before], [edge_after]
    and [face]. *)
Theorem swapLinksAndRestore_frame res_poly wrk_poly ints op w u w' :
  swapLinksAndRestore res_poly wrk_poly ints op w = Normal (u, w') →
  Forall2 restitched (recs w) (recs w').
Proof.
  intros Hrun.
  refine (proj1 (frame_run restitched (λ _ _, True) _ w u w' _ Hrun)).
  apply frame_swapLinksAndRestore; try exact _; try done.
Qed.

End StageFrames.

Section Pipeline.
Context `{PolygonStore}.

Lemma paired_resplit rs rs' P Q :
  Forall2 resplit rs rs' → paired rs P Q → paired rs' P Q.
Proof.
  intros Hrel [Hlen Hp]. split; [done|]. intros i p q Hpi Hqi.
  destruct (Hp i p q Hpi Hqi) as (x & y & Hx & Hy & Hidx & Hidy & Hpt).
  destruct (Forall2_lookup_l _ _ _ _ _ Hrel Hx) as (x' & Hx' & Hrx).
  destruct (Forall2_lookup_l _ _ _ _ _ Hrel Hy) as (y' & Hy' & Hry).
  destruct Hrx as (Hi1 & Hp1 & _). destruct Hry as (Hi2 & Hp2 & _).
  exists x', y'. rewrite Hi1, Hi2, Hp1, Hp2. done.
Qed.

(** The lists are paired when the duplicate filter is called. *)
Lemma paired_before_filter res_poly wrk_poly w i1 w1 i2 w2 u3 w3 u4 w4 :
  (∀ p, equalTo p p = true) →
  (∀ edge1 edge2 p, meets (store w) res_poly wrk_poly edge1 edge2 p →
     shape_split (e_shape (store w) edge1) p ≠ [] ∧
     shape_split (e_shape (store w) edge2) p ≠ []) →
  getIntersections res_poly wrk_poly w = Normal (i1, w1) →
  sortIntersections i1 w1 = Normal (i2, w2) →
  splitByIntersections res_poly (int_points1_sorted i2) w2
    = Normal (u3, w3) →
  splitByIntersections wrk_poly (int_points2_sorted i2) w3
    = Normal (u4, w4) →
  crossings_paired (recs w4) i2.
Proof.
  intros Hrefl Hsplit Hget Hsort Hsp1 Hsp2.
  pose proof (wp_Normal True _ _ w i1 w1
                (wp_getIntersections res_poly wrk_poly w Hsplit) Hget)
    as (_ & _ & _ & _ & Hlen & Hnd & Hrange & Hpair).
  assert (∀ r, r ∈ int_points1 i1 ++ int_points2 i1 →
            is_Some (recs w1 !! r)) as Hvalid.
  { intros r Hr. apply lookup_lt_is_Some. apply Hrange in Hr. lia. }
  pose proof (wp_Normal _ _ _ _ _ _ (wp_sortIntersections i1 w1 Hvalid)
                Hsort) as (_ & HP & HQ & Hviews & Hrecs).
  assert (paired (recs w2) (int_points1 i2) (int_points2 i2)) as Hp2.
  { rewrite HP, HQ. split; [done|]. intros i p q Hpi Hqi.
    destruct (Hpair i p q Hpi Hqi) as (x & y & Hx & Hy & Hidx & Hidy & Hpt).
    destruct (Hrecs p) as (f & Hf & Hfx). destruct (Hrecs q) as (g & Hg & Hgy).
    exists (f x), (g y). rewrite Hf, Hx, Hg, Hy. simpl.
    destruct (Hfx x) as [-> ->]. destruct (Hgy y) as [-> ->].
    rewrite Hpt. by rewrite Hrefl. }
  apply resplit_run in Hsp1, Hsp2.
  split; [|split; [by rewrite HP, HQ | done]].
  eapply paired_resplit; [exact Hsp2|].
  eapply paired_resplit; [exact Hsp1|done].
Qed.

Lemma stages_paired res_poly wrk_poly w i1 w1 i2 w2 u3 w3 u4 w4 ints w' :
  (∀ p, equalTo p p = true) →
  (∀ edge1 edge2 p, meets (store w) res_poly wrk_poly edge1 edge2 p →
     shape_split (e_shape (store w) edge1) p ≠ [] ∧
     shape_split (e_shape (store w) edge2) p ≠ []) →
  getIntersections res_poly wrk_poly w = Normal (i1, w1) →
  sortIntersections i1 w1 = Normal (i2, w2) →
  splitByIntersections res_poly (int_points1_sorted i2) w2
    = Normal (u3, w3) →
  splitByIntersections wrk_poly (int_points2_sorted i2) w3
    = Normal (u4, w4) →
  filterDuplicatedIntersections i2 w4 = Normal (ints, w') →
  crossings_paired (recs w') ints.
Proof.
  intros Hrefl Hsplit Hget Hsort Hsp1 Hsp2 Hrun.
  pose proof (paired_before_filter res_poly wrk_poly w i1 w1 i2 w2 u3 w3 u4 w4
                Hrefl Hsplit Hget Hsort Hsp1 Hsp2) as Hcp.
  pose proof (wp_filterDuplicatedIntersections i2 w4 Hcp) as Hwp.
  exact (proj2 (wp_Normal _ _ _ _ _ _ Hwp Hrun)).
Qed.

(** [C1] The pairing of the crossings after the duplicate filter, as
    [booleanOpBinary] and [calculateIntersections] reach it: after the
    collector, the sorter and the splitter of both polygons.  When the
    shapes split at every crossing that their intersection reports (no
    split is empty) and a point equals itself under [equalTo], the filter
    returns, also when it squeezes and numbers the lists again, and the two
    lists it returns have one length, the records at index [i] of both have
    [id = i], and their points are equal under [equalTo]. *)
Theorem filterDuplicatedIntersections_pairing
    res_poly wrk_poly w i1 w1 i2 w2 u3 w3 u4 w4 :
  (∀ p, equalTo p p = true) →
  (∀ edge1 edge2 p, meets (store w) res_poly wrk_poly edge1 edge2 p →
     shape_split (e_shape (store w) edge1) p ≠ [] ∧
     shape_split (e_shape (store w) edge2) p ≠ []) →
  getIntersections res_poly wrk_poly w = Normal (i1, w1) →
  sortIntersections i1 w1 = Normal (i2, w2) →
  splitByIntersections res_poly (int_points1_sorted i2) w2
    = Normal (u3, w3) →
  splitByIntersections wrk_poly (int_points2_sorted i2) w3
    = Normal (u4, w4) →
  ∃ ints w',
    filterDuplicatedIntersections i2 w4 = Normal (ints, w') ∧
    length (int_points1 ints) = length (int_points2 ints) ∧
    ∀ i p q,
      int_points1 ints !! i = Some p → int_points2 ints !! i = Some q →
      ∃ x y, recs w' !! p = Some x ∧ recs w' !! q = Some y ∧
        id x = Z.of_nat i ∧ id y = Z.of_nat i ∧
        equalTo (pt x) (pt y) = true.
Proof.
  intros Hrefl Hsplit Hget Hsort Hsp1 Hsp2.
  pose proof (paired_before_filter res_poly wrk_poly w i1 w1 i2 w2 u3 w3 u4 w4
                Hrefl Hsplit Hget Hsort Hsp1 Hsp2) as Hcp.
  pose proof (wp_filterDuplicatedIntersections i2 w4 Hcp) as Hwp.
  apply wp_returns in Hwp as (ints & w' & Hrun & _ & [Hlen Hpair] & _).
  exists ints, w'. split; [exact Hrun|]. split; [exact Hlen|exact Hpair].
Qed.

(** [X3] From the collector to the duplicate filter.  When no split of a
    crossing is empty and a point equals itself under [equalTo], the lists
    that the filter returns are paired: of one length, the records at index
    [i] with [id = i] and points equal under [equalTo], no record twice,
    and each sorted array a permutation of its list. *)
Theorem collect_sort_split_filter_paired res_poly wrk_poly w ints w' :
  (∀ p, equalTo p p = true) →
  (∀ edge1 edge2 p, meets (store w) res_poly wrk_poly edge1 edge2 p →
     shape_split (e_shape (store w) edge1) p ≠ [] ∧
     shape_split (e_shape (store w) edge2) p ≠ []) →
  collect_sort_split_filter res_poly wrk_poly w = Normal (ints, w') →
  crossings_paired (recs w') ints.
Proof.
  intros Hrefl Hsplit Hrun. unfold collect_sort_split_filter in Hrun.
  apply bind_Normal in Hrun as (i1 & w1 & Hget & Hrun).
  apply bind_Normal in Hrun as (i2 & w2 & Hsort & Hrun).
  apply bind_Normal in Hrun as (u3 & w3 & Hsp1 & Hrun).
  apply bind_Normal in Hrun as (u4 & w4 & Hsp2 & Hrun).
  by eapply (stages_paired res_poly wrk_poly w).
Qed.

End Pipeline.

Section Faces.
Context `{PolygonStore}.

(** No record of [l] lies on the face [f]. *)
Definition not_crossed (rs : list IntPoint) (l : list ipref) (f : Face)
  : Prop :=
  Forall (λ r, face_of rs r ≠ Some f) l.

Lemma wp_find_on_face l f w :
  (∀ r, r ∈ l → is_Some (recs w !! r)) →
  wp False (find_on_face l (Some f))
    (λ o w', w' = w ∧ (o = None ↔ not_crossed (recs w) l f)) w.
Proof.
  induction l as [|r l IH]; intros Hv; simpl.
  - apply wp_ret. split; [done|]. split; [constructor|done].
  - destruct (Hv r) as [x Hx]; [set_solver|].
    apply wp_bind. eapply wp_field_Some; [done|].
    destruct (decide _) as [Heq|Hne].
    + apply wp_ret. split; [done|]. split; [done|].
      intros Hall. apply Forall_cons in Hall as [Hr _].
      unfold face_of in Hr. rewrite Hx in Hr. done.
    + eapply wp_mono; [apply IH; intros; apply Hv; set_solver|].
      intros o w' [-> Ho]. split; [done|]. rewrite Ho.
      unfold not_crossed. rewrite Forall_cons.
      unfold face_of at 2. rewrite Hx. simpl. tauto.
Qed.

(** [X9] [getNotIntersectedFaces] returns the faces of the polygon that no
    record of the list lies on, in the order of the polygon, and changes
    nothing. *)
Theorem getNotIntersectedFaces_filter poly l w :
  (∀ r, r ∈ l → is_Some (recs w !! r)) →
  getNotIntersectedFaces poly l w =
  Normal (filter (not_crossed (recs w) l) (poly_faces (store w) poly), w).
Proof.
  intros Hv.
  cut (wp False (getNotIntersectedFaces poly l)
         (λ fs w', fs = filter (not_crossed (recs w) l)
                          (poly_faces (store w) poly) ∧ w' = w) w).
  { intros Hwp. apply wp_returns in Hwp as (fs & w' & -> & -> & ->). done. }
  unfold getNotIntersectedFaces. apply wp_bind, wp_get_store.
  eapply wp_mono.
  { apply (wp_fold_each _ _ _ _
      (λ pre acc w', acc = filter (not_crossed (recs w) l) pre ∧ w' = w)).
    - done.
    - intros pre f post acc w1 Hl [-> ->].
      apply wp_bind. eapply wp_mono; [by apply wp_find_on_face|].
      intros o w2 [-> Ho]. rewrite filter_app, filter_cons, filter_nil.
      destruct o as [r|].
      + apply wp_ret. rewrite decide_False; [by rewrite app_nil_r|].
        intros Hn. apply Ho in Hn. done.
      + apply wp_ret. rewrite decide_True; [done|]. by apply Ho. }
  intros fs w' [-> ->]. done.
Qed.

(** The rule of [removeNotRelevantNotIntersectedFaces] on the boundary value
    of the first edge of a face. *)
Definition spec_delete_face (op : Z) (is_res : bool) (rel : option Inclusion)
  : Prop :=
  (op = BOOLEAN_UNION ∧ rel = Some INSIDE) ∨
  (op = BOOLEAN_SUBTRACT ∧ rel = Some INSIDE ∧ is_res = true) ∨
  (op = BOOLEAN_SUBTRACT ∧ rel = Some OUTSIDE ∧ is_res = false) ∨
  (op = BOOLEAN_INTERSECT ∧ rel = Some OUTSIDE).

#[local] Instance spec_delete_face_dec op is_res rel :
  Decision (spec_delete_face op is_res rel).
Proof. unfold spec_delete_face. apply _. Defined.

(** The store after the turn of the loop for the face [f]. *)
Definition drop_face (polygon : Poly) (op : Z) (is_res : bool) (st : St)
    (f : Face) : St :=
  match face_first st f with
  | Some e =>
      if decide (spec_delete_face op is_res (e_bv st e))
      then deleteFace st polygon f else st
  | None => st
  end.

Lemma face_rule op is_res rel :
  bool_decide (op = BOOLEAN_UNION) && bool_decide (rel = Some INSIDE)
  || bool_decide (op = BOOLEAN_SUBTRACT) && bool_decide (rel = Some INSIDE)
     && is_res
  || bool_decide (op = BOOLEAN_SUBTRACT) && bool_decide (rel = Some OUTSIDE)
     && negb is_res
  || bool_decide (op = BOOLEAN_INTERSECT) && bool_decide (rel = Some OUTSIDE)
  = true ↔ spec_delete_face op is_res rel.
Proof.
  unfold spec_delete_face.
  rewrite !orb_true_iff, !andb_true_iff, !bool_decide_eq_true,
    negb_true_iff.
  destruct is_res; intuition congruence.
Qed.

(** [X10] [removeNotRelevantNotIntersectedFaces], when it returns, has deleted
    from the polygon, in the order of the list, the faces whose first edge
    is inside for a union, inside on the result polygon or outside on the
    other for a subtraction, outside for an intersection, and only those;
    no record is changed. *)
Theorem removeNotRelevantNotIntersectedFaces_rule polygon fs op is_res w u w' :
  removeNotRelevantNotIntersectedFaces polygon fs op is_res w
    = Normal (u, w') →
  recs w' = recs w ∧
  store w' = foldl (drop_face polygon op is_res) (store w) fs.
Proof.
  intros Hrun.
  cut (wp True (removeNotRelevantNotIntersectedFaces polygon fs op is_res)
         (λ _ w', recs w' = recs w ∧
                  store w' = foldl (drop_face polygon op is_res) (store w) fs)
         w).
  { intros Hwp. exact (wp_Normal _ _ _ _ _ _ Hwp Hrun). }
  clear Hrun. unfold removeNotRelevantNotIntersectedFaces.
  apply (wp_for_each _ _ _
    (λ pre w', recs w' = recs w ∧
               store w' = foldl (drop_face polygon op is_res) (store w) pre)).
  { done. }
  intros pre f post w1 Hl [Hr Hs].
  apply wp_bind, wp_get_store, wp_bind, wp_deref.
  destruct (face_first (store w1) f) as [e|] eqn:Hfirst; [|done].
  rewrite foldl_app. simpl. rewrite <- Hs. unfold drop_face at 1.
  rewrite Hfirst. cbv zeta.
  destruct (decide (spec_delete_face op is_res (e_bv (store w1) e)))
    as [Hd|Hd].
  - apply face_rule in Hd. rewrite Hd. apply wp_modify_store. done.
  - assert (∀ b : bool, ¬ (b = true) → b = false) as Hnot
      by (by intros []).
    rewrite (Hnot _ (λ Hb, Hd (proj1 (face_rule _ _ _) Hb))).
    apply wp_ret. done.
Qed.

End Faces.

Section Restitching.
Context `{PolygonStore}.

Lemma bind_TypeError {A B} (m : M A) (k : A → M B) w :
  m w = TypeError → (m ≫= k) w = TypeError.
Proof. intros Hm. by rewrite bind_run, Hm. Qed.

Lemma bind_throws {A B} (m : M A) (k : A → M B) w :
  (∀ a w1, k a w1 = TypeError) → (m ≫= k) w = TypeError.
Proof.
  intros Hk. rewrite bind_run. destruct (m w) as [[a w1]|]; [apply Hk|done].
Qed.

Lemma for_each_throws {A} (l : list A) body x w :
  x ∈ l → (∀ w1, body x w1 = TypeError) → for_each l body w = TypeError.
Proof.
  intros Hx Hb. revert w. induction l as [|y l IH]; intros w; [set_solver|].
  simpl. apply elem_of_cons in Hx as [<-|Hx].
  - by apply bind_TypeError.
  - apply bind_throws. intros _ w1. by apply IH.
Qed.

Lemma for_each_idle {A} (l : list A) body w :
  (∀ x, x ∈ l → body x w = Normal (tt, w)) →
  for_each l body w = Normal (tt, w).
Proof.
  induction l as [|y l IH]; intros Hb; [done|].
  simpl. rewrite bind_run, Hb by set_solver. apply IH.
  intros x Hx. apply Hb. set_solver.
Qed.

Lemma needs_swap_undefined w : needs_swap None w = TypeError.
Proof. reflexivity. Qed.

Lemma swap_step_undefined ints i w :
  int_points2 ints !! i = None → swap_step ints i w = TypeError.
Proof.
  intros Hq. unfold swap_step. rewrite Hq.
  apply bind_throws. intros p w1.
  apply bind_throws. intros b w2.
  apply bind_throws. intros _ w3. reflexivity.
Qed.

(** [X11] [swapLinks] reads the two lists index by index: when the second list is
    shorter than the first, the call throws. *)
Theorem swapLinks_short_second_list res_polygon wrk_polygon ints w :
  length (int_points2 ints) < length (int_points1 ints) →
  swapLinks res_polygon wrk_polygon ints w = TypeError.
Proof.
  intros Hlen. unfold swapLinks. destruct (decide _) as [Hz|_]; [lia|].
  apply (for_each_throws _ _ (length (int_points2 ints))).
  - apply elem_of_seq. lia.
  - intros w1. apply swap_step_undefined. by apply lookup_ge_None.
Qed.

(** A record for which [restoreFaces] makes no face: a link is missing, or
    the record has a face, or one of its two edges has a face. *)
Definition settled (w : World) (r : ipref) : Prop :=
  ∃ x, recs w !! r = Some x ∧
    (edge_before x = None ∨ edge_after x = None ∨ is_Some (face x) ∨
     ∃ last first, edge_before x = Some last ∧ edge_after x = Some first ∧
       (is_Some (e_face (store w) first) ∨ is_Some (e_face (store w) last))).

Lemma restore_step_settled polygon l other r w :
  settled w r → restore_step polygon l other r w = Normal (tt, w).
Proof.
  intros (x & Hx & Hcase). unfold restore_step.
  rewrite bind_run. unfold get_rec. rewrite Hx. simpl.
  destruct (edge_before x) as [last|] eqn:Hb; [|done].
  destruct (edge_after x) as [first|] eqn:Ha; [|done].
  destruct (decide (is_Some (face x))) as [|Hf]; [done|].
  rewrite bind_run. simpl.
  destruct (decide (is_Some (e_face (store w) first))) as [|Hef]; [done|].
  destruct (decide (is_Some (e_face (store w) last))) as [|Hel]; [done|].
  destruct Hcase as [?|[?|[?|(? & ? & ? & ? & [?|?])]]]; simplify_eq; done.
Qed.

(** [X12] [restoreFaces] leaves everything as it is when every record of the
    list is a dead end (a link is missing), or has a face, or has an edge
    that has a face. *)
Theorem restoreFaces_settled polygon l other w :
  (∀ r, r ∈ l → settled w r) →
  restoreFaces polygon l other w = Normal (tt, w).
Proof.
  intros Hall. unfold restoreFaces. apply for_each_idle.
  intros r Hr. by apply restore_step_settled, Hall.
Qed.

(** [X13] [removeOldFaces] returns when the records of the list exist; then the
    records of the list have no [face], and nothing else of a record is
    changed. *)
Theorem removeOldFaces_clears polygon l w :
  (∀ r, r ∈ l → is_Some (recs w !! r)) →
  ∃ w', removeOldFaces polygon l w = Normal (tt, w') ∧
    ∀ r, recs w' !! r =
         (λ x, if decide (r ∈ l) then set_ip_face None x else x)
           <$> recs w !! r.
Proof.
  intros Hv.
  cut (wp False (removeOldFaces polygon l)
         (λ _ w', ∀ r, recs w' !! r =
            (λ x, if decide (r ∈ l) then set_ip_face None x else x)
              <$> recs w !! r) w).
  { intros Hwp. apply wp_returns in Hwp as ([] & w' & Hrun & Hpost). eauto. }
  unfold removeOldFaces.
  apply (wp_for_each _ _ _
    (λ pre w', ∀ r, recs w' !! r =
       (λ x, if decide (r ∈ pre) then set_ip_face None x else x)
         <$> recs w !! r)).
  { intros r. by destruct (recs w !! r). }
  intros pre r post w1 Hl Hinv.
  destruct (Hv r) as [x Hx]; [rewrite Hl; set_solver|].
  assert (∃ x1, recs w1 !! r = Some x1) as [x1 Hx1].
  { rewrite Hinv, Hx. simpl. eauto. }
  apply wp_bind. eapply wp_field_Some; [done|].
  apply wp_bind, wp_modify_store, wp_bind, wp_upd_rec.
  apply wp_bind. eapply wp_field_Some.
  { simpl. by rewrite list_lookup_alter_eq, Hx1. }
  apply (wp_bind _ _ _ _ _). apply (wp_mono _ _
    (λ _ w', recs w' = alter (set_ip_face None) r (recs w1))).
  { destruct (edge_before _); [by apply wp_modify_store | by apply wp_ret]. }
  intros _ w2 Hw2.
  apply wp_bind. eapply wp_field_Some.
  { by rewrite Hw2, list_lookup_alter_eq, Hx1. }
  apply (wp_mono _ _
    (λ _ w', recs w' = alter (set_ip_face None) r (recs w1))).
  { destruct (edge_after _); [by apply wp_modify_store | by apply wp_ret]. }
  intros _ w3 Hw3 r'. rewrite Hw3.
  destruct (decide (r' = r)) as [->|Hne].
  - rewrite list_lookup_alter_eq, Hinv.
    destruct (recs w !! r) as [y|]; [simpl|done].
    rewrite (decide_True (P := r ∈ pre ++ [r])) by set_solver.
    by destruct (decide _).
  - rewrite list_lookup_alter_ne, Hinv by done.
    destruct (recs w !! r') as [y|]; [simpl|done].
    destruct (decide (r' ∈ pre)) as [Hin|Hin].
    + rewrite (decide_True (P := r' ∈ pre ++ [r])) by set_solver. done.
    + rewrite (decide_False (P := r' ∈ pre ++ [r])) by set_solver. done.
Qed.

End Restitching.

Section Pulls.
Context `{PolygonStore}.

(** The record [nxt] goes on the pull of the record [cur] on the face
    [cf]: [cur] is on that face, and [nxt] has its point, under [equalTo],
    and its two edges. *)
Definition continues (rs : list IntPoint) (cf : option Face)
    (cur : option ipref) (nxt : ipref) : Prop :=
  ∃ x y, cur ≫= (rs !!.) = Some x ∧ rs !! nxt = Some y ∧
    face x = cf ∧ equalTo (pt y) (pt x) = true ∧
    edge_before y = edge_before x ∧ edge_after y = edge_after x.

Lemma field_Normal {A} o (g : IntPoint → A) w v w' :
  field o g w = Normal (v, w') →
  ∃ r z, o = Some r ∧ recs w !! r = Some z ∧ v = g z ∧ w' = w.
Proof.
  unfold field. destruct o as [r|]; [|discriminate].
  rewrite bind_run. simpl. rewrite bind_run. unfold get_rec.
  destruct (recs w !! r) as [z|] eqn:Hz; [|discriminate]. simpl.
  unfold mret, M_ret. intros Hm. injection Hm as Hv Hw. subst.
  by exists r, z.
Qed.

Lemma pull_scan_run cur cf rest c w k w' :
  pull_scan cur cf rest c w = Normal (k, w') →
  w' = w ∧ ∃ m, k = c + m ∧ m ≤ length rest ∧
    (∀ j nxt, j < m → rest !! j = Some nxt → continues (recs w) cf cur nxt) ∧
    (∀ nxt, rest !! m = Some nxt → ¬ continues (recs w) cf cur nxt).
Proof.
  revert c. induction rest as [|nxt rest IH]; intros c Hrun; simpl in Hrun.
  { injection Hrun as <- <-. split; [done|]. exists 0.
    split; [lia|]. split; [done|]. split; [intros; lia | done]. }
  assert (∀ w1, Normal (c, w1) = Normal (k, w') → w1 = w →
            ¬ continues (recs w) cf cur nxt →
            w' = w ∧ ∃ m, k = c + m ∧ m ≤ length (nxt :: rest) ∧
              (∀ j n, j < m → (nxt :: rest) !! j = Some n →
                 continues (recs w) cf cur n) ∧
              (∀ n, (nxt :: rest) !! m = Some n →
                 ¬ continues (recs w) cf cur n)) as Hstop.
  { intros w1 [= <- <-] -> Hno. split; [done|]. exists 0.
    split; [lia|]. split; [simpl; lia|]. split; [intros; lia|].
    intros n [= <-]. done. }
  assert (∀ {A} (g : IntPoint → A) r z v w1,
            recs w !! r = Some z → field (Some r) g w = Normal (v, w1) →
            v = g z ∧ w1 = w) as Hread.
  { intros A g r z v w1 Hz Hg.
    apply field_Normal in Hg as (r' & z' & [= <-] & Hz' & -> & ->).
    split; [congruence|done]. }
  apply bind_Normal in Hrun as (f & w1 & Hf & Hrun).
  apply field_Normal in Hf as (c0 & x & -> & Hx & -> & ->).
  destruct (decide (face x ≠ cf)) as [Hface|Hface].
  { eapply Hstop; [done..|]. intros (x' & y & Hx' & _ & Hfx & _).
    simpl in Hx'. congruence. }
  apply dec_stable in Hface.
  apply bind_Normal in Hrun as (p1 & w1 & Hp1 & Hrun).
  apply field_Normal in Hp1 as (nxt' & y & [= <-] & Hy & -> & ->).
  apply bind_Normal in Hrun as (p2 & w1 & Hp2 & Hrun).
  apply (Hread _ _ _ _ _ _ Hx) in Hp2 as [-> ->].
  destruct (equalTo (pt y) (pt x)) eqn:Heq; simpl in Hrun; cycle 1.
  { eapply Hstop; [done..|]. intros (x' & y' & Hx' & Hy' & _ & He & _).
    simpl in Hx'. congruence. }
  apply bind_Normal in Hrun as (a & w1 & Ha & Hrun).
  apply (Hread _ _ _ _ _ _ Hy) in Ha as [-> ->].
  apply bind_Normal in Hrun as (b & w1 & Hb & Hrun).
  apply (Hread _ _ _ _ _ _ Hx) in Hb as [-> ->].
  destruct (decide (edge_before y ≠ edge_before x)) as [Hne|Hbe].
  { eapply Hstop; [done..|]. intros (x' & y' & Hx' & Hy' & _ & _ & He & _).
    simpl in Hx'. congruence. }
  apply dec_stable in Hbe.
  apply bind_Normal in Hrun as (a & w1 & Ha & Hrun).
  apply (Hread _ _ _ _ _ _ Hy) in Ha as [-> ->].
  apply bind_Normal in Hrun as (b & w1 & Hb & Hrun).
  apply (Hread _ _ _ _ _ _ Hx) in Hb as [-> ->].
  destruct (decide (edge_after y ≠ edge_after x)) as [Hne|Hae].
  { eapply Hstop; [done..|]. intros (x' & y' & Hx' & Hy' & _ & _ & _ & He).
    simpl in Hx'. congruence. }
  apply dec_stable in Hae.
  apply IH in Hrun as (-> & m & -> & Hm & Hall & Hend).
  split; [done|]. exists (S m). split; [lia|]. split; [simpl; lia|].
  split.
  - intros j n Hj Hn. destruct j as [|j].
    + injection Hn as <-. exists x, y. done.
    + apply (Hall j); [lia|done].
  - intros n Hn. by apply Hend.
Qed.

(** [X14] [intPointsPullCount] from the record at index [n], for a list of more
    than one record: the count [k] is at least one, the [k - 1] records
    that follow the record at [n] go on its pull, and the record after
    them, if there is one, does not.  Nothing is changed. *)
Theorem intPointsPullCount_run l n cf w k w' :
  length l ≠ 1 →
  intPointsPullCount l (Some n) cf w = Normal (k, w') →
  w' = w ∧ 1 ≤ k ∧ (n < length l → n + k ≤ length l) ∧
  (∀ j nxt, 1 ≤ j < k → l !! (n + j) = Some nxt →
     continues (recs w) cf (l !! n) nxt) ∧
  (∀ nxt, l !! (n + k) = Some nxt → ¬ continues (recs w) cf (l !! n) nxt).
Proof.
  intros Hlen Hrun. unfold intPointsPullCount in Hrun.
  rewrite decide_False in Hrun by done.
  apply pull_scan_run in Hrun as (-> & m & -> & Hm & Hall & Hend).
  rewrite length_drop in Hm.
  split; [done|]. split; [lia|]. split; [lia|]. split.
  - intros j nxt Hj Hn. apply (Hall (j - 1)); [lia|].
    rewrite lookup_drop. rewrite <- Hn. f_equal. lia.
  - intros nxt Hn. apply Hend. rewrite lookup_drop. rewrite <- Hn.
    f_equal. lia.
Qed.

End Pulls.

(** ** The chain excisor, as a whole *)

Section Excision.
Context `{PolygonStore}.






















End Excision.

Section Points.
Context `{PolygonStore}.

Lemma points_of_Normal l w ps w' :
  points_of l w = Normal (ps, w') →
  w' = w ∧ Forall2 (λ r p, ∃ x, recs w !! r = Some x ∧ pt x = p) l ps.
Proof.
  revert ps w'. induction l as [|r l IH]; intros ps w' Hrun; simpl in Hrun.
  - injection Hrun as <- <-. split; [done|constructor].
  - apply bind_Normal in Hrun as (p & w1 & Hp & Hrun).
    apply field_Normal in Hp as (r' & x & [= <-] & Hx & -> & ->).
    apply bind_Normal in Hrun as (ps' & w2 & Hps & Hrun).
    apply IH in Hps as [-> Hall]. injection Hrun as <- <-.
    split; [done|]. constructor; [eauto | done].
Qed.

Lemma call_clone_Normal p w c w' :
  call_clone p w = Normal (c, w') →
  c = (clone (store w) p).2 ∧ store w' = (clone (store w) p).1 ∧
  recs w' = recs w.
Proof.
  unfold call_clone. destruct (clone (store w) p) as [st' c'].
  intros [= <- <-]. done.
Qed.

(** [X4] [calculateIntersections]: when no split of a crossing of the two clones
    is empty and a point equals itself under [equalTo], the two arrays of
    points that are returned have one length, and every point of the first
    is equal to a point of the second under [equalTo]. *)
Theorem calculateIntersections_arrays polygon1 polygon2 w ps1 ps2 w' :
  (∀ p, equalTo p p = true) →
  (∀ edge1 edge2 p,
     let c1 := clone (store w) polygon1 in
     let c2 := clone c1.1 polygon2 in
     meets c2.1 c1.2 c2.2 edge1 edge2 p →
     shape_split (e_shape c2.1 edge1) p ≠ [] ∧
     shape_split (e_shape c2.1 edge2) p ≠ []) →
  calculateIntersections polygon1 polygon2 w = Normal ((ps1, ps2), w') →
  length ps1 = length ps2 ∧
  ∀ p, p ∈ ps1 → ∃ q, q ∈ ps2 ∧ equalTo p q = true.
Proof.
  intros Hrefl Hsplit Hrun. unfold calculateIntersections in Hrun.
  apply bind_Normal in Hrun as (res & w1 & Hc1 & Hrun).
  apply bind_Normal in Hrun as (wrk & w2 & Hc2 & Hrun).
  apply call_clone_Normal in Hc1 as (-> & Hst1 & _).
  apply call_clone_Normal in Hc2 as (-> & Hst2 & _).
  apply bind_Normal in Hrun as (i1 & v1 & Hget & Hrun).
  apply bind_Normal in Hrun as (i2 & v2 & Hsort & Hrun).
  apply bind_Normal in Hrun as (u3 & v3 & Hsp1 & Hrun).
  apply bind_Normal in Hrun as (u4 & v4 & Hsp2 & Hrun).
  apply bind_Normal in Hrun as (ints & v5 & Hfil & Hrun).
  assert (crossings_paired (recs v5) ints) as ([Hlen Hpair] & Hnd & Hviews).
  { eapply (stages_paired
              (clone (store w) polygon1).2 (clone (store w1) polygon2).2 w2);
      [done| |done..].
    rewrite Hst2, !Hst1. exact Hsplit. }
  destruct Hviews as (s1 & s2 & Hs1 & Hs2 & Hperm1 & Hperm2).
  rewrite Hs1, Hs2 in Hrun. simpl in Hrun.
  apply bind_Normal in Hrun as (s1' & v6 & [= <- <-] & Hrun).
  apply bind_Normal in Hrun as (q1 & v6 & Hq1 & Hrun).
  apply points_of_Normal in Hq1 as [-> Hq1].
  apply bind_Normal in Hrun as (s2' & v6 & [= <- <-] & Hrun).
  apply bind_Normal in Hrun as (q2 & v6 & Hq2 & Hrun).
  apply points_of_Normal in Hq2 as [-> Hq2].
  injection Hrun as <- <- <-.
  split.
  { rewrite <- (Forall2_length _ _ _ Hq1), <- (Forall2_length _ _ _ Hq2).
    by rewrite Hperm1, Hperm2. }
  intros p Hp. apply list_elem_of_lookup in Hp as [j Hj].
  destruct (Forall2_lookup_r _ _ _ _ _ Hq1 Hj) as (r & Hr & x & Hx & <-).
  assert (r ∈ int_points1 ints) as Hin.
  { rewrite <- Hperm1. by eapply list_elem_of_lookup_2. }
  apply list_elem_of_lookup in Hin as [i Hi].
  destruct (lookup_lt_is_Some_2 (int_points2 ints) i) as [q Hq].
  { rewrite <- Hlen. by eapply lookup_lt_Some. }
  destruct (Hpair i r q Hi Hq) as (x' & y & Hx' & Hy & _ & _ & Heq).
  assert (x' = x) as -> by congruence.
  assert (q ∈ s2) as Hqs.
  { rewrite Hperm2. by eapply list_elem_of_lookup_2. }
  apply list_elem_of_lookup in Hqs as [k Hk].
  destruct (Forall2_lookup_l _ _ _ _ _ Hq2 Hk) as (pq & Hpq & y' & Hy' & <-).
  assert (y' = y) as -> by congruence.
  exists (pt y). split; [by eapply list_elem_of_lookup_2 | done].
Qed.

End Points.

(** A region of the store: the objects whose handle is at or above a mark,
    one mark for polygons, one for faces and one for edges. *)
Record region := mkRegion { polys_from : nat; faces_from : nat; edges_from : nat }.

Definition fresh_poly (g : region) (p : Poly) : Prop := polys_from g ≤ p.
Definition fresh_face (g : region) (f : Face) : Prop := faces_from g ≤ f.
Definition fresh_edge (g : region) (e : Edge) : Prop := edges_from g ≤ e.
Definition fresh_face_opt (g : region) (o : option Face) : Prop :=
  ∀ f, o = Some f → fresh_face g f.
Definition fresh_edge_opt (g : region) (o : option Edge) : Prop :=
  ∀ e, o = Some e → fresh_edge g e.

(** Modelled from the spec: the contract of the polygon store on the objects
    of the caller, whose code ([Polygon.clone], [Polygon.reverse] and the
    other methods of the container) is not part of this file.  [clone()] is
    deep (section 6.3): it makes new objects and leaves every object that
    existed as it was.  [sound g st] says that the objects of the region [g]
    (made since the marks [g] were taken) refer to objects of [g] only, and
    [keeps g st st'] that the objects outside [g] are the same in [st] and
    [st'].  A method called on objects of the region gives objects of the
    region and keeps the others. *)
Class CloneStore `{PolygonStore} := {
  sound : region → St → Prop;
  keeps : region → St → St → Prop;
  keeps_refl : ∀ g st, keeps g st st;
  keeps_trans : ∀ g st1 st2 st3,
    keeps g st1 st2 → keeps g st2 st3 → keeps g st1 st3;
  (* reading *)
  next_fresh : ∀ g st e n,
    sound g st → fresh_edge g e → e_next st e = Some n → fresh_edge g n;
  prev_fresh : ∀ g st e n,
    sound g st → fresh_edge g e → e_prev st e = Some n → fresh_edge g n;
  face_fresh : ∀ g st e f,
    sound g st → fresh_edge g e → e_face st e = Some f → fresh_face g f;
  first_fresh : ∀ g st f e,
    sound g st → fresh_face g f → face_first st f = Some e → fresh_edge g e;
  last_fresh : ∀ g st f e,
    sound g st → fresh_face g f → face_last st f = Some e → fresh_edge g e;
  face_edges_fresh : ∀ g st f e,
    sound g st → fresh_face g f → e ∈ face_edges st f → fresh_edge g e;
  poly_edges_fresh : ∀ g st p e,
    sound g st → fresh_poly g p → e ∈ poly_edges st p → fresh_edge g e;
  poly_faces_fresh : ∀ g st p f,
    sound g st → fresh_poly g p → f ∈ poly_faces st p → fresh_face g f;
  search_fresh : ∀ g st p b e,
    sound g st → fresh_poly g p → e ∈ edges_search st p b → fresh_edge g e;
  (* copying *)
  clone_fresh : ∀ g st p,
    sound g st →
    sound g (clone st p).1 ∧ keeps g st (clone st p).1 ∧
    fresh_poly g (clone st p).2;
  (* changing objects of the region *)
  reverse_fresh : ∀ g st p,
    sound g st → fresh_poly g p →
    sound g (reverse st p).1 ∧ keeps g st (reverse st p).1 ∧
    fresh_poly g (reverse st p).2;
  set_next_fresh : ∀ g st e v,
    sound g st → fresh_edge g e → fresh_edge_opt g v →
    sound g (set_next st e v) ∧ keeps g st (set_next st e v);
  set_prev_fresh : ∀ g st e v,
    sound g st → fresh_edge g e → fresh_edge_opt g v →
    sound g (set_prev st e v) ∧ keeps g st (set_prev st e v);
  set_face_fresh : ∀ g st e v,
    sound g st → fresh_edge g e → fresh_face_opt g v →
    sound g (set_face st e v) ∧ keeps g st (set_face st e v);
  set_bv_fresh : ∀ g st e v,
    sound g st → fresh_edge g e →
    sound g (set_bv st e v) ∧ keeps g st (set_bv st e v);
  set_bvStart_fresh : ∀ g st e v,
    sound g st → fresh_edge g e →
    sound g (set_bvStart st e v) ∧ keeps g st (set_bvStart st e v);
  set_bvEnd_fresh : ∀ g st e v,
    sound g st → fresh_edge g e →
    sound g (set_bvEnd st e v) ∧ keeps g st (set_bvEnd st e v);
  set_overlap_fresh : ∀ g st e v,
    sound g st → fresh_edge g e →
    sound g (set_overlap st e v) ∧ keeps g st (set_overlap st e v);
  setInclusion_fresh : ∀ g st e p,
    sound g st → fresh_edge g e → fresh_poly g p →
    sound g (setInclusion st e p) ∧ keeps g st (setInclusion st e p);
  setOverlap_fresh : ∀ g st e1 e2,
    sound g st → fresh_edge g e1 → fresh_edge g e2 →
    sound g (setOverlap st e1 e2) ∧ keeps g st (setOverlap st e1 e2);
  edges_add_fresh : ∀ g st p e,
    sound g st → fresh_poly g p → fresh_edge g e →
    sound g (edges_add st p e) ∧ keeps g st (edges_add st p e);
  faces_delete_fresh : ∀ g st p f,
    sound g st → fresh_poly g p →
    sound g (faces_delete st p f) ∧ keeps g st (faces_delete st p f);
  addVertex_fresh : ∀ g st p pt e,
    sound g st → fresh_poly g p → fresh_edge g e →
    sound g (addVertex st p pt e).1 ∧ keeps g st (addVertex st p pt e).1 ∧
    fresh_edge g (addVertex st p pt e).2;
  addFace_fresh : ∀ g st p first last,
    sound g st → fresh_poly g p → fresh_edge_opt g first → fresh_edge_opt g last →
    sound g (addFace st p first last).1 ∧
    keeps g st (addFace st p first last).1 ∧
    fresh_face g (addFace st p first last).2;
  removeChain_fresh : ∀ g st p f e1 e2,
    sound g st → fresh_poly g p → fresh_face g f → fresh_edge g e1 → fresh_edge g e2 →
    sound g (removeChain st p f e1 e2) ∧ keeps g st (removeChain st p f e1 e2);
  deleteFace_fresh : ∀ g st p f,
    sound g st → fresh_poly g p → fresh_face g f →
    sound g (deleteFace st p f) ∧ keeps g st (deleteFace st p f)
}.

Section Ownership.
Context `{CloneStore}.
Variables (g : region) (st0 : St).

(** A record whose edges and face are objects of the region. *)
Definition rec_fresh (x : IntPoint) : Prop :=
  fresh_edge_opt g (edge_before x) ∧ fresh_edge_opt g (edge_after x) ∧
  fresh_face_opt g (face x).

(** The invariant of a Boolean call: the store is sound, the objects of the
    caller are as they were in [st0], and the crossing records hold objects
    of the region. *)
Definition Inv (w : World) : Prop :=
  sound g (store w) ∧ keeps g st0 (store w) ∧ Forall rec_fresh (recs w).

Lemma Inv_rec w r x : Inv w → recs w !! r = Some x → rec_fresh x.
Proof.
  intros (_ & _ & Hall) Hx. rewrite Forall_forall in Hall. apply Hall.
  by eapply list_elem_of_lookup_2.
Qed.

Lemma Inv_store w st' :
  Inv w → sound g st' ∧ keeps g (store w) st' → Inv (mkWorld (recs w) st').
Proof.
  intros (Hs & Hk & Hall) [Hs' Hk']. split; [done|]. split; [|done].
  by eapply keeps_trans.
Qed.

Lemma Inv_upd w r f :
  Inv w → (∀ x, rec_fresh x → rec_fresh (f x)) →
  Inv (mkWorld (alter f r (recs w)) (store w)).
Proof.
  intros (Hs & Hk & Hall) Hf. split; [done|]. split; [done|]. simpl.
  rewrite Forall_forall in Hall. apply Forall_forall. intros y Hy.
  apply list_elem_of_lookup in Hy as [i Hi].
  destruct (decide (i = r)) as [->|Hne].
  - rewrite list_lookup_alter_eq in Hi.
    destruct (recs w !! r) as [x|] eqn:Hx; simplify_eq/=.
    apply Hf, Hall. by eapply list_elem_of_lookup_2.
  - rewrite list_lookup_alter_ne in Hi by done.
    apply Hall. by eapply list_elem_of_lookup_2.
Qed.

Lemma Inv_fresh w v :
  Inv w → rec_fresh v → Inv (mkWorld (recs w ++ [v]) (store w)).
Proof.
  intros (Hs & Hk & Hall) Hv. split; [done|]. split; [done|]. simpl.
  apply Forall_app. split; [done|]. by constructor.
Qed.


(** [ok R m]: run from a world that meets the invariant, [m] throws or
    returns a value that meets [R] and a world that meets the invariant. *)
Definition ok {A} (R : A → Prop) (m : M A) : Prop :=
  ∀ w, Inv w → wp True m (λ a w', Inv w' ∧ R a) w.

Lemma ok_ret {A} (R : A → Prop) a : R a → ok R (mret a).
Proof. intros Ha w Hw. by apply wp_ret. Qed.

Lemma ok_bind {A B} (R1 : A → Prop) (R : B → Prop) (m : M A) (k : A → M B) :
  ok R1 m → (∀ a, R1 a → ok R (k a)) → ok R (m ≫= k).
Proof.
  intros Hm Hk w Hw. apply wp_bind. eapply wp_mono; [by apply Hm|].
  intros a w' [Hw' Ha]. by apply Hk.
Qed.

Lemma ok_mono {A} (R1 R : A → Prop) (m : M A) :
  ok R1 m → (∀ a, R1 a → R a) → ok R m.
Proof.
  intros Hm HR w Hw. eapply wp_mono; [by apply Hm|].
  intros a w' [Hw' Ha]. auto.
Qed.

Lemma ok_deref {A} (o : option A) : ok (λ a, o = Some a) (deref o).
Proof. intros w Hw. apply wp_deref. by destruct o. Qed.

Lemma ok_get_store : ok (λ st, sound g st ∧ keeps g st0 st) get_store.
Proof. intros w Hw. apply wp_get_store. destruct Hw as (? & ? & ?). done. Qed.

Lemma ok_get_recs : ok (λ _, True) get_recs.
Proof. intros w Hw. by apply wp_get_recs. Qed.

Lemma ok_get_rec r : ok rec_fresh (get_rec r).
Proof.
  intros w Hw. apply wp_get_rec. destruct (recs w !! r) as [x|] eqn:Hx; [|done].
  split; [done|]. by eapply Inv_rec.
Qed.

Lemma ok_field {A} o (f : IntPoint → A) :
  ok (λ v, ∃ x, rec_fresh x ∧ v = f x) (field o f).
Proof.
  intros w Hw. apply wp_field. destruct o as [r|]; [|done]. simpl.
  destruct (recs w !! r) as [x|] eqn:Hx; [|done].
  split; [done|]. exists x. split; [by eapply Inv_rec | done].
Qed.

Lemma ok_field_deref {A} o (f : IntPoint → option A) :
  ok (λ v, ∃ x, rec_fresh x ∧ f x = Some v) (field o f ≫= deref).
Proof.
  eapply ok_bind; [apply ok_field|]. intros v (x & Hx & ->).
  eapply ok_mono; [apply ok_deref|]. intros a Ha. by exists x.
Qed.

Lemma ok_put_store st :
  sound g st → keeps g st0 st → ok (λ _, True) (put_store st).
Proof.
  intros Hs Hk w (_ & _ & Hall). apply wp_put_store. done.
Qed.

Lemma ok_modify_store f :
  (∀ st, sound g st → sound g (f st) ∧ keeps g st (f st)) →
  ok (λ _, True) (modify_store f).
Proof.
  intros Hf w Hw. apply wp_modify_store. split; [|done].
  apply Inv_store; [done|]. apply Hf. by destruct Hw.
Qed.

Lemma ok_upd_rec r f :
  (∀ x, rec_fresh x → rec_fresh (f x)) → ok (λ _, True) (upd_rec r f).
Proof.
  intros Hf w Hw. apply wp_upd_rec. split; [|done]. by apply Inv_upd.
Qed.

Lemma ok_new_rec v : rec_fresh v → ok (λ _, True) (new_rec v).
Proof.
  intros Hv w Hw. apply wp_new_rec. split; [|done]. by apply Inv_fresh.
Qed.

Lemma ok_for_each {A} (l : list A) body :
  (∀ x, x ∈ l → ok (λ _, True) (body x)) → ok (λ _, True) (for_each l body).
Proof.
  induction l as [|x l IH]; intros Hb; simpl.
  - by apply ok_ret.
  - eapply ok_bind; [apply Hb; set_solver|]. intros _ _.
    apply IH. intros y Hy. apply Hb. set_solver.
Qed.

Lemma ok_fold_each {A S} (J : S → Prop) (l : list A) (s : S) body :
  J s → (∀ s x, J s → x ∈ l → ok J (body s x)) → ok J (fold_each l s body).
Proof.
  revert s. induction l as [|x l IH]; intros s Hs Hb; simpl.
  - by apply ok_ret.
  - eapply ok_bind; [apply Hb; [done|set_solver]|]. intros s' Hs'.
    apply IH; [done|]. intros s'' y Hs'' Hy. apply Hb; [done|set_solver].
Qed.

Lemma ok_call_clone p : ok (fresh_poly g) (call_clone p).
Proof.
  intros w Hw. unfold wp, call_clone.
  destruct (clone_fresh g (store w) p) as (Hs & Hk & Hp);
    [by destruct Hw|].
  destruct (clone (store w) p) as [st' c]. simpl in *.
  split; [|done]. apply (Inv_store w st'); done.
Qed.

Lemma ok_call_reverse p : fresh_poly g p → ok (fresh_poly g) (call_reverse p).
Proof.
  intros Hp w Hw. unfold wp, call_reverse.
  destruct (reverse_fresh g (store w) p) as (Hs & Hk & Hp');
    [by destruct Hw|done|].
  destruct (reverse (store w) p) as [st' c]. simpl in *.
  split; [|done]. apply (Inv_store w st'); done.
Qed.

End Ownership.

(** Freshness of what was read from the store, from the hypotheses. *)
Ltac fresh_learn :=
  repeat match goal with
  | H1 : ∀ e, ?o = Some e → fresh_edge ?g e, H2 : ?o = Some ?a |- _ =>
      lazymatch goal with
      | _ : fresh_edge g a |- _ => fail
      | _ => pose proof (H1 a H2)
      end
  | H1 : ∀ e, ?o = Some e → fresh_face ?g e, H2 : ?o = Some ?a |- _ =>
      lazymatch goal with
      | _ : fresh_face g a |- _ => fail
      | _ => pose proof (H1 a H2)
      end
  | H : ?x ∈ poly_edges ?st ?p |- _ =>
      pose proof (poly_edges_fresh _ st p x ltac:(eassumption)
                    ltac:(eassumption) H); clear H
  | H : ?x ∈ poly_faces ?st ?p |- _ =>
      pose proof (poly_faces_fresh _ st p x ltac:(eassumption)
                    ltac:(eassumption) H); clear H
  | H : ?x ∈ edges_search ?st ?p ?b |- _ =>
      pose proof (search_fresh _ st p b x ltac:(eassumption)
                    ltac:(eassumption) H); clear H
  | H : ?x ∈ face_edges ?st ?f |- _ =>
      pose proof (face_edges_fresh _ st f x ltac:(eassumption)
                    ltac:(eassumption) H); clear H
  | H : face_first ?st ?f = Some ?e |- _ =>
      pose proof (first_fresh _ st f e ltac:(eassumption)
                    ltac:(eassumption) H); clear H
  | H : face_last ?st ?f = Some ?e |- _ =>
      pose proof (last_fresh _ st f e ltac:(eassumption)
                    ltac:(eassumption) H); clear H
  | H : e_next ?st ?e = Some ?n |- _ =>
      pose proof (next_fresh _ st e n ltac:(eassumption)
                    ltac:(eassumption) H); clear H
  | H : e_prev ?st ?e = Some ?n |- _ =>
      pose proof (prev_fresh _ st e n ltac:(eassumption)
                    ltac:(eassumption) H); clear H
  | H : e_face ?st ?e = Some ?f |- _ =>
      pose proof (face_fresh _ st e f ltac:(eassumption)
                    ltac:(eassumption) H); clear H
  end.

Ltac fresh_solve :=
  unfold rec_fresh, fresh_edge_opt, fresh_face_opt, set_id, set_edge_before,
    set_edge_after, set_ip_face, set_is_vertex, set_faceId in *;
  simpl in *; intros; destruct_and?; simplify_eq/=;
  try (split_and!; intros; simplify_eq/=);
  fresh_learn; eauto 3.

Ltac law_solve :=
  intros;
  first
    [ apply set_next_fresh | apply set_prev_fresh | apply set_face_fresh
    | apply set_bv_fresh | apply set_bvStart_fresh | apply set_bvEnd_fresh
    | apply set_overlap_fresh | apply setInclusion_fresh
    | apply setOverlap_fresh | apply edges_add_fresh
    | apply faces_delete_fresh | apply removeChain_fresh
    | apply deleteFace_fresh ];
  fresh_solve.

(** The rule for the code at the head of the goal. *)
Ltac ok_facts :=
  cbv beta in *;
  repeat match goal with
  | H : ∃ _, _ |- _ => destruct H as [? H]
  | H : _ ∧ _ |- _ => destruct H as [? ?]
  | H : True |- _ => clear H
  end; subst.

Ltac ok_head m :=
  lazymatch m with
  | field _ _ => apply ok_field
  | field _ _ ≫= _ => apply ok_field_deref
  | deref _ => apply ok_deref
  | get_store => apply ok_get_store
  | get_recs => apply ok_get_recs
  | get_rec _ => apply ok_get_rec
  | put_store _ =>
      apply ok_put_store; [assumption | by eauto using keeps_trans]
  | modify_store _ => apply ok_modify_store; solve [law_solve]
  | upd_rec _ _ => apply ok_upd_rec; solve [fresh_solve]
  | new_rec _ => apply ok_new_rec; solve [fresh_solve]
  | call_clone _ => apply ok_call_clone
  | call_reverse _ => apply ok_call_reverse; solve [fresh_solve]
  | for_each _ _ => apply ok_for_each; intros ? ?; ok_go
  | fold_each _ _ _ =>
      apply (ok_fold_each _ _ (λ _, True)); [done | intros ? ? _ ?; ok_go]
  | _ => solve [eauto with okdb]
  end
with ok_step :=
  lazymatch goal with
  | |- ok _ _ _ (mret _) => apply ok_ret
  | |- ok _ _ _ ((if _ then _ else _) ≫= _) =>
      eapply (ok_bind _ _ (λ _, True)); [ok_go | intros ? _]
  | |- ok _ _ _ ((match _ with Some _ => _ | None => _ end) ≫= _) =>
      eapply (ok_bind _ _ (λ _, True)); [ok_go | intros ? _]
  | |- ok _ _ _ (?m ≫= _) =>
      eapply ok_bind; [ok_head m | intros ? ?; ok_facts]
  | |- ok _ _ _ (if decide ?P then _ else _) => destruct (decide P)
  | |- ok _ _ _ (if ?b then _ else _) => destruct b eqn:?
  | |- ok _ _ _ (match ?o with Some _ => _ | None => _ end) =>
      destruct o eqn:?
  | |- ok _ _ _ (let '(_, _) := ?p in _) => destruct p eqn:?
  | |- ok _ _ _ ((let '(_, _) := ?p in _) _) => destruct p eqn:?
  | |- ok _ _ _ ?m => eapply ok_mono; [ok_head m | intros ? ?; ok_facts]
  end
with ok_go := repeat (ok_step; try done).

Create HintDb okdb.

Section Calls.
Context `{CloneStore}.
Variables (g : region) (st0 : St).

Abbreviation ok := (ok g st0).
Abbreviation any := (λ _, True).

#[local] Hint Extern 5 (fresh_edge _ _) => solve [fresh_solve] : okdb.
#[local] Hint Extern 5 (fresh_face _ _) => solve [fresh_solve] : okdb.

Lemma ok_addToIntPoints edge p l :
  fresh_edge g edge → ok any (addToIntPoints edge p l).
Proof.
  intros He. unfold addToIntPoints. ok_go.
Qed.
#[local] Hint Resolve ok_addToIntPoints : okdb.

Lemma ok_getIntersections p1 p2 :
  fresh_poly g p1 → fresh_poly g p2 → ok any (getIntersections p1 p2).
Proof. intros Hp1 Hp2. unfold getIntersections. ok_go. Qed.
#[local] Hint Resolve ok_getIntersections : okdb.

Lemma ok_getSortedArray l : ok any (getSortedArray l).
Proof. unfold getSortedArray. ok_go. Qed.
#[local] Hint Resolve ok_getSortedArray : okdb.

Lemma ok_sortIntersections ints : ok any (sortIntersections ints).
Proof. unfold sortIntersections. ok_go. Qed.
#[local] Hint Resolve ok_sortIntersections : okdb.

Lemma ok_split_step polygon r :
  fresh_poly g polygon → ok any (split_step polygon r).
Proof.
  intros Hp. unfold split_step. do 6 ok_step; [ok_go..|].
  pose proof (addVertex_fresh g a1 polygon (pt a) a0) as Hadd.
  destruct (addVertex a1 polygon (pt a) a0) as [st' newEdge].
  destruct Hadd as (Hs & Hk & He); [done|done|fresh_solve|]. simpl in *.
  ok_go.
Qed.
#[local] Hint Resolve ok_split_step : okdb.

Lemma ok_link_step r : ok any (link_step r).
Proof. unfold link_step. ok_go. Qed.
#[local] Hint Resolve ok_link_step : okdb.

Lemma ok_splitByIntersections polygon l :
  fresh_poly g polygon → ok any (splitByIntersections polygon l).
Proof. intros Hp. unfold splitByIntersections. ok_go. Qed.
#[local] Hint Resolve ok_splitByIntersections : okdb.

Lemma ok_same_edges c1 r1 c2 r2 : ok any (same_edges c1 r1 c2 r2).
Proof. unfold same_edges. ok_go. Qed.
#[local] Hint Resolve ok_same_edges : okdb.

Lemma ok_mark_sweep1 l s c : ok any (mark_sweep1 l s c).
Proof. unfold mark_sweep1. ok_go. Qed.
#[local] Hint Resolve ok_mark_sweep1 : okdb.

Lemma ok_mark_sweep2 l s c : ok any (mark_sweep2 l s c).
Proof.
  unfold mark_sweep2. ok_go.
Qed.
#[local] Hint Resolve ok_mark_sweep2 : okdb.

Lemma ok_filter_live l : ok any (filter_live l).
Proof. induction l as [|x l IH]; simpl; ok_go. Qed.
#[local] Hint Resolve ok_filter_live : okdb.

Lemma ok_renumber l : ok any (renumber l).
Proof. unfold renumber. ok_go. Qed.
#[local] Hint Resolve ok_renumber : okdb.

Lemma ok_filterDuplicatedIntersections ints :
  ok any (filterDuplicatedIntersections ints).
Proof. unfold filterDuplicatedIntersections. ok_go. Qed.
#[local] Hint Resolve ok_filterDuplicatedIntersections : okdb.

Lemma ok_find_on_face l f : ok any (find_on_face l f).
Proof. induction l as [|x l IH]; simpl; ok_go. Qed.
#[local] Hint Resolve ok_find_on_face : okdb.

Lemma ok_getNotIntersectedFaces poly l :
  fresh_poly g poly →
  ok (Forall (fresh_face g)) (getNotIntersectedFaces poly l).
Proof.
  intros Hp. unfold getNotIntersectedFaces. ok_step.
  apply ok_fold_each; [done|]. intros fs f Hfs Hf. ok_go.
  apply Forall_app. split; [done|]. constructor; [|done]. fresh_solve.
Qed.
#[local] Hint Resolve ok_getNotIntersectedFaces : okdb.

Lemma ok_calcInclusionForNotIntersectedFaces fs poly2 :
  Forall (fresh_face g) fs → fresh_poly g poly2 →
  ok any (calcInclusionForNotIntersectedFaces fs poly2).
Proof.
  intros Hfs Hp. unfold calcInclusionForNotIntersectedFaces.
  apply ok_for_each. intros f Hf.
  assert (fresh_face g f) by (rewrite Forall_forall in Hfs; auto).
  ok_go.
Qed.
#[local] Hint Resolve ok_calcInclusionForNotIntersectedFaces : okdb.

Lemma ok_initializeInclusionFlags l : ok any (initializeInclusionFlags l).
Proof. unfold initializeInclusionFlags. ok_go. Qed.
#[local] Hint Resolve ok_initializeInclusionFlags : okdb.

Lemma ok_calculateInclusionFlags l polygon :
  fresh_poly g polygon → ok any (calculateInclusionFlags l polygon).
Proof. intros Hp. unfold calculateInclusionFlags. ok_go. Qed.
#[local] Hint Resolve ok_calculateInclusionFlags : okdb.

Lemma ok_boundary_ends a b : ok any (boundary_ends a b).
Proof. unfold boundary_ends. ok_go. Qed.
#[local] Hint Resolve ok_boundary_ends : okdb.

Lemma ok_boundary_chain a b : ok any (boundary_chain a b).
Proof. unfold boundary_chain. ok_go. Qed.
#[local] Hint Resolve ok_boundary_chain : okdb.

Lemma ok_overlap_step ints n s i : ok any (overlap_step ints n s i).
Proof.
  unfold overlap_step. do 15 (ok_step; try done).
  eapply (ok_bind _ _ (λ p, fresh_edge_opt g p.1)).
  { ok_go; fresh_solve. }
  intros [edge_from2 edge_to2] Hef. ok_go.
Qed.
#[local] Hint Resolve ok_overlap_step : okdb.

Lemma ok_setOverlappingFlags ints : ok any (setOverlappingFlags ints).
Proof. unfold setOverlappingFlags. ok_go. Qed.
#[local] Hint Resolve ok_setOverlappingFlags : okdb.

Lemma ok_pull_scan cur f rest n : ok any (pull_scan cur f rest n).
Proof. revert n. induction rest as [|x rest IH]; intros n; simpl; ok_go. Qed.
#[local] Hint Resolve ok_pull_scan : okdb.

Lemma ok_intPointsPullCount l n f : ok any (intPointsPullCount l n f).
Proof. unfold intPointsPullCount. ok_go. Qed.
#[local] Hint Resolve ok_intPointsPullCount : okdb.

Lemma ok_chain_step polygon op l is_res i cur_face first :
  fresh_poly g polygon →
  ok any (chain_step polygon op l is_res i cur_face first).
Proof.
  intros Hp. unfold chain_step. do 3 (ok_step; try done).
  assert (fresh_face g a) as Hface.
  { destruct (decide (face x ≠ cur_face)) as [Hne|Heq].
    - injection Heqp as <- Hf. fresh_solve.
    - apply dec_stable in Heq. injection Heqp as <- ->. fresh_solve. }
  ok_go.
Qed.
#[local] Hint Resolve ok_chain_step : okdb.

Lemma ok_chain_loop turns polygon op l is_res i cur_face first :
  fresh_poly g polygon →
  ok any (chain_loop turns polygon op l is_res i cur_face first).
Proof.
  intros Hp. revert i cur_face first.
  induction turns as [|turns IH]; intros i cur_face first; simpl; ok_go.
Qed.
#[local] Hint Resolve ok_chain_loop : okdb.

Lemma ok_removeNotRelevantChains polygon op l is_res :
  fresh_poly g polygon →
  ok any (removeNotRelevantChains polygon op l is_res).
Proof. intros Hp. unfold removeNotRelevantChains. ok_go. Qed.
#[local] Hint Resolve ok_removeNotRelevantChains : okdb.

Lemma ok_removeNotRelevantNotIntersectedFaces polygon fs op is_res :
  fresh_poly g polygon → Forall (fresh_face g) fs →
  ok any (removeNotRelevantNotIntersectedFaces polygon fs op is_res).
Proof.
  intros Hp Hfs. unfold removeNotRelevantNotIntersectedFaces.
  apply ok_for_each. intros f Hf.
  assert (fresh_face g f) by (rewrite Forall_forall in Hfs; auto).
  ok_go.
Qed.
#[local] Hint Resolve ok_removeNotRelevantNotIntersectedFaces : okdb.

Lemma ok_filterNotRelevantEdges res_poly wrk_poly ints op :
  fresh_poly g res_poly → fresh_poly g wrk_poly →
  ok any (filterNotRelevantEdges res_poly wrk_poly ints op).
Proof. intros Hr Hw. unfold filterNotRelevantEdges. ok_go. Qed.
#[local] Hint Resolve ok_filterNotRelevantEdges : okdb.

Lemma ok_copyWrkToRes res_polygon wrk_polygon op l :
  fresh_poly g res_polygon → fresh_poly g wrk_polygon →
  ok any (copyWrkToRes res_polygon wrk_polygon op l).
Proof.
  intros Hr Hw. unfold copyWrkToRes. ok_step.
  apply ok_for_each. intros f Hf.
  assert (fresh_face g f) by fresh_solve.
  ok_step. eapply ok_bind.
  { apply ok_for_each. intros e He. apply ok_modify_store.
    intros st Hst. apply edges_add_fresh; [done|done|fresh_solve]. }
  intros _ _. ok_step. ok_step; [by ok_step|].
  apply ok_modify_store. intros st Hst.
  destruct (addFace_fresh g st res_polygon (face_first st f) (face_last st f))
    as (? & ? & ?); [done|done|fresh_solve|fresh_solve|done].
Qed.
#[local] Hint Resolve ok_copyWrkToRes : okdb.

Lemma ok_connect a b : ok any (connect a b).
Proof. unfold connect. ok_go. Qed.
#[local] Hint Resolve ok_connect : okdb.

Lemma ok_needs_swap x : ok any (needs_swap x).
Proof. unfold needs_swap. ok_go. Qed.
#[local] Hint Resolve ok_needs_swap : okdb.

Lemma ok_offers_continuation x : ok any (offers_continuation x).
Proof. unfold offers_continuation. ok_go. Qed.
#[local] Hint Resolve ok_offers_continuation : okdb.

Lemma ok_touching_case sorted r : ok any (touching_case sorted r).
Proof. unfold touching_case. ok_go. Qed.
#[local] Hint Resolve ok_touching_case : okdb.

Lemma ok_swap_step ints i : ok any (swap_step ints i).
Proof. unfold swap_step. ok_go. Qed.
#[local] Hint Resolve ok_swap_step : okdb.

Lemma ok_swapLinks res_polygon wrk_polygon ints :
  ok any (swapLinks res_polygon wrk_polygon ints).
Proof. unfold swapLinks. ok_go. Qed.
#[local] Hint Resolve ok_swapLinks : okdb.

Lemma ok_removeOldFaces polygon l :
  fresh_poly g polygon → ok any (removeOldFaces polygon l).
Proof. intros Hp. unfold removeOldFaces. ok_go. Qed.
#[local] Hint Resolve ok_removeOldFaces : okdb.

Lemma ok_mark_restored f l : fresh_face g f → ok any (mark_restored f l).
Proof. intros Hf. unfold mark_restored. ok_go. Qed.
#[local] Hint Resolve ok_mark_restored : okdb.

Lemma ok_restore_step polygon l other r :
  fresh_poly g polygon → ok any (restore_step polygon l other r).
Proof.
  intros Hp. unfold restore_step. do 7 (ok_step; try done).
  pose proof (addFace_fresh g a0 polygon (Some n0) (Some n)) as Hadd.
  destruct (addFace a0 polygon (Some n0) (Some n)) as [st' f].
  destruct Hadd as (Hs & Hk & Hf); [done|done|fresh_solve|fresh_solve|].
  simpl in *. ok_go.
Qed.
#[local] Hint Resolve ok_restore_step : okdb.

Lemma ok_restoreFaces polygon l other :
  fresh_poly g polygon → ok any (restoreFaces polygon l other).
Proof. intros Hp. unfold restoreFaces. ok_go. Qed.
#[local] Hint Resolve ok_restoreFaces : okdb.

Lemma ok_swapLinksAndRestore res_poly wrk_poly ints op :
  fresh_poly g res_poly → fresh_poly g wrk_poly →
  ok any (swapLinksAndRestore res_poly wrk_poly ints op).
Proof. intros Hr Hw. unfold swapLinksAndRestore. ok_go. Qed.
#[local] Hint Resolve ok_swapLinksAndRestore : okdb.

Lemma ok_booleanOpBinary polygon1 polygon2 op restore :
  ok any (booleanOpBinary polygon1 polygon2 op restore).
Proof. unfold booleanOpBinary. ok_go. Qed.
#[local] Hint Resolve ok_booleanOpBinary : okdb.

Lemma ok_clip_shapes poly : ok any (clip_shapes poly).
Proof. unfold clip_shapes. ok_go. Qed.
#[local] Hint Resolve ok_clip_shapes : okdb.

Lemma ok_points_of l : ok any (points_of l).
Proof. induction l as [|x l IH]; simpl; ok_go. Qed.
#[local] Hint Resolve ok_points_of : okdb.

Lemma ok_unify polygon1 polygon2 : ok any (unify polygon1 polygon2).
Proof. unfold unify. ok_go. Qed.

Lemma ok_subtract polygon1 polygon2 : ok any (subtract polygon1 polygon2).
Proof. unfold subtract. ok_go. Qed.

Lemma ok_intersect polygon1 polygon2 : ok any (intersect polygon1 polygon2).
Proof. unfold intersect. ok_go. Qed.

Lemma ok_innerClip polygon1 polygon2 : ok any (innerClip polygon1 polygon2).
Proof. unfold innerClip. ok_go. Qed.

Lemma ok_outerClip polygon1 polygon2 : ok any (outerClip polygon1 polygon2).
Proof. unfold outerClip. ok_go. Qed.

Lemma ok_calculateIntersections polygon1 polygon2 :
  ok any (calculateIntersections polygon1 polygon2).
Proof. unfold calculateIntersections. ok_go. Qed.

Lemma ok_booleanOpBinary_fresh polygon1 polygon2 op restore :
  ok (λ p, fresh_poly g p.1 ∧ fresh_poly g p.2)
    (booleanOpBinary polygon1 polygon2 op restore).
Proof. unfold booleanOpBinary. ok_go. Qed.

Lemma ok_unify_fresh polygon1 polygon2 :
  ok (fresh_poly g) (unify polygon1 polygon2).
Proof.
  unfold unify. eapply ok_bind; [apply ok_booleanOpBinary_fresh|].
  intros [res_poly wrk_poly] [Hr Hw]. by apply ok_ret.
Qed.

Lemma ok_intersect_fresh polygon1 polygon2 :
  ok (fresh_poly g) (intersect polygon1 polygon2).
Proof.
  unfold intersect. eapply ok_bind; [apply ok_booleanOpBinary_fresh|].
  intros [res_poly wrk_poly] [Hr Hw]. by apply ok_ret.
Qed.

Lemma ok_subtract_fresh polygon1 polygon2 :
  ok (fresh_poly g) (subtract polygon1 polygon2).
Proof.
  unfold subtract. eapply ok_bind; [apply ok_call_clone|].
  intros polygon2_tmp Htmp. eapply ok_bind; [by apply ok_call_reverse|].
  intros polygon2_reversed Hrev.
  eapply ok_bind; [apply ok_booleanOpBinary_fresh|].
  intros [res_poly wrk_poly] [Hr Hw]. by apply ok_ret.
Qed.

Lemma ok_run {A} (R : A → Prop) (m : M A) st a w' :
  sound g st → st0 = st → ok R m → m (mkWorld [] st) = Normal (a, w') →
  keeps g st (store w') ∧ R a.
Proof.
  intros Hs -> Hm Hrun.
  assert (Inv g st (mkWorld [] st)) as Hinv.
  { split; [done|]. split; [apply keeps_refl | constructor]. }
  destruct (wp_Normal _ _ _ _ _ _ (Hm _ Hinv) Hrun) as [(_ & Hk & _) HR].
  done.
Qed.

Lemma keeps_run {A} (m : M A) st a w' :
  sound g st → st0 = st → ok any m → m (mkWorld [] st) = Normal (a, w') →
  keeps g st (store w').
Proof.
  intros Hs -> Hm Hrun.
  assert (Inv g st (mkWorld [] st)) as Hinv.
  { split; [done|]. split; [apply keeps_refl | constructor]. }
  destruct (wp_Normal _ _ _ _ _ _ (Hm _ Hinv) Hrun) as [(_ & Hk & _) _].
  exact Hk.
Qed.

End Calls.

Section EntryPoints.
Context `{CloneStore}.

(** [X1] The entry points leave the objects of the caller as they are.  On a
    store that meets the [CloneStore] contract, for marks [g] for which the
    store is sound, a call of an entry point that returns has kept every
    object outside [g]: the polygons it was given, their faces and their
    edges.  [subtract] reverses a clone of a clone. *)
Theorem entry_points_keep_operands g st polygon1 polygon2 :
  sound g st →
  (∀ a w', unify polygon1 polygon2 (mkWorld [] st) = Normal (a, w') →
     keeps g st (store w')) ∧
  (∀ a w', subtract polygon1 polygon2 (mkWorld [] st) = Normal (a, w') →
     keeps g st (store w')) ∧
  (∀ a w', intersect polygon1 polygon2 (mkWorld [] st) = Normal (a, w') →
     keeps g st (store w')) ∧
  (∀ a w', innerClip polygon1 polygon2 (mkWorld [] st) = Normal (a, w') →
     keeps g st (store w')) ∧
  (∀ a w', outerClip polygon1 polygon2 (mkWorld [] st) = Normal (a, w') →
     keeps g st (store w')) ∧
  (∀ a w', calculateIntersections polygon1 polygon2 (mkWorld [] st)
             = Normal (a, w') →
     keeps g st (store w')).
Proof.
  intros Hs. split_and!; intros a w' Hrun;
    (eapply (keeps_run g st); [exact Hs | reflexivity | | exact Hrun]).
  - apply ok_unify.
  - apply ok_subtract.
  - apply ok_intersect.
  - apply ok_innerClip.
  - apply ok_outerClip.
  - apply ok_calculateIntersections.
Qed.

(** [C9] The entry points work on clones.  On a store that meets the
    [CloneStore] contract, for marks [g] for which the store is sound:
    [booleanOpBinary], with any operator and with or without the restitcher,
    returns two polygons made since the marks (its clones) and has kept
    every object made before the marks, the two polygons of the caller with
    their faces and edges among them; so have [unify], [intersect] and
    [subtract], whose result is the first of these clones, and [innerClip],
    [outerClip] and [calculateIntersections].  [subtract] calls [reverse] on
    a clone of its second polygon: a [reverse] of the polygon of the caller
    is outside the contract, which speaks of polygons made since the marks
    only. *)
Theorem entry_points_work_on_clones g st polygon1 polygon2 :
  sound g st →
  (∀ op restore res_poly wrk_poly w',
     booleanOpBinary polygon1 polygon2 op restore (mkWorld [] st)
       = Normal ((res_poly, wrk_poly), w') →
     keeps g st (store w') ∧ fresh_poly g res_poly ∧ fresh_poly g wrk_poly) ∧
  (∀ a w', subtract polygon1 polygon2 (mkWorld [] st) = Normal (a, w') →
     keeps g st (store w') ∧ fresh_poly g a) ∧
  (∀ a w', unify polygon1 polygon2 (mkWorld [] st) = Normal (a, w') →
     keeps g st (store w') ∧ fresh_poly g a) ∧
  (∀ a w', intersect polygon1 polygon2 (mkWorld [] st) = Normal (a, w') →
     keeps g st (store w') ∧ fresh_poly g a) ∧
  (∀ a w', innerClip polygon1 polygon2 (mkWorld [] st) = Normal (a, w') →
     keeps g st (store w')) ∧
  (∀ a w', outerClip polygon1 polygon2 (mkWorld [] st) = Normal (a, w') →
     keeps g st (store w')) ∧
  (∀ a w', calculateIntersections polygon1 polygon2 (mkWorld [] st)
             = Normal (a, w') →
     keeps g st (store w')).
Proof.
  intros Hs. split_and!.
  - intros op restore res_poly wrk_poly w' Hrun.
    exact (ok_run g st _ _ st _ w' Hs eq_refl
             (ok_booleanOpBinary_fresh g st polygon1 polygon2 op restore)
             Hrun).
  - intros a w' Hrun.
    exact (ok_run g st _ _ st a w' Hs eq_refl
             (ok_subtract_fresh g st polygon1 polygon2) Hrun).
  - intros a w' Hrun.
    exact (ok_run g st _ _ st a w' Hs eq_refl
             (ok_unify_fresh g st polygon1 polygon2) Hrun).
  - intros a w' Hrun.
    exact (ok_run g st _ _ st a w' Hs eq_refl
             (ok_intersect_fresh g st polygon1 polygon2) Hrun).
  - intros a w' Hrun.
    exact (keeps_run g st _ st a w' Hs eq_refl
             (ok_innerClip g st polygon1 polygon2) Hrun).
  - intros a w' Hrun.
    exact (keeps_run g st _ st a w' Hs eq_refl
             (ok_outerClip g st polygon1 polygon2) Hrun).
  - intros a w' Hrun.
    exact (keeps_run g st _ st a w' Hs eq_refl
             (ok_calculateIntersections g st polygon1 polygon2) Hrun).
Qed.

End EntryPoints.

(** ** The reference store meets the contract of [CloneStore] *)

Module RectClone.
Import Rect.

(** [P] holds of the entries of [xs] from index [n] on. *)
Definition above {A} (n : nat) (P : A → Prop) (xs : list A) : Prop :=
  ∀ i x, n ≤ i → xs !! i = Some x → P x.

Lemma above_alter {A} n (P : A → Prop) xs i h :
  above n P xs → (∀ x, P x → P (h x)) → above n P (alter h i xs).
Proof.
  intros Hxs Hh j y Hj Hy. destruct (decide (j = i)) as [->|Hne].
  - rewrite list_lookup_alter_eq in Hy.
    destruct (xs !! i) as [x|] eqn:Hx; [|done]. injection Hy as <-.
    apply Hh. by eapply Hxs.
  - rewrite list_lookup_alter_ne in Hy by done. by eapply Hxs.
Qed.

Lemma above_app {A} n (P : A → Prop) xs ys :
  above n P xs → Forall P ys → above n P (xs ++ ys).
Proof.
  intros Hxs Hys j y Hj Hy. apply lookup_app_Some in Hy as [Hy|[_ Hy]].
  - by eapply Hxs.
  - rewrite Forall_forall in Hys. apply Hys.
    by eapply list_elem_of_lookup_2.
Qed.

Section Region.
Variable g : region.

Definition links_fresh (o : edge_obj) : Prop :=
  fresh_edge_opt g (o_next o) ∧ fresh_edge_opt g (o_prev o) ∧
  fresh_face_opt g (o_face o).

(** The objects from the marks on refer to objects from the marks on. *)
Record marked (st : state) : Prop := mkMarked {
  edges_marked : edges_from g ≤ length (edges st);
  faces_marked : faces_from g ≤ length (faces st);
  polygon_edges_marked : polys_from g ≤ length (polygon_edges st);
  polygon_faces_marked : polys_from g ≤ length (polygon_faces st);
  edges_sound : above (edges_from g) links_fresh (edges st);
  faces_sound : above (faces_from g) (Forall (fresh_edge g)) (faces st);
  polygon_edges_sound :
    above (polys_from g) (Forall (fresh_edge g)) (polygon_edges st);
  polygon_faces_sound :
    above (polys_from g) (Forall (fresh_face g)) (polygon_faces st)
}.

(** The objects below the marks are the same. *)
Definition kept (st st' : state) : Prop :=
  take (edges_from g) (edges st') = take (edges_from g) (edges st) ∧
  take (faces_from g) (faces st') = take (faces_from g) (faces st) ∧
  take (polys_from g) (polygon_edges st')
    = take (polys_from g) (polygon_edges st) ∧
  take (polys_from g) (polygon_faces st')
    = take (polys_from g) (polygon_faces st).

Definition step (st st' : state) : Prop := marked st' ∧ kept st st'.

Lemma kept_refl st : kept st st.
Proof. by repeat split. Qed.

Lemma kept_trans st1 st2 st3 : kept st1 st2 → kept st2 st3 → kept st1 st3.
Proof.
  intros (? & ? & ? & ?) (? & ? & ? & ?). repeat split; congruence.
Qed.

Lemma step_refl st : marked st → step st st.
Proof. intros Hs. split; [done | apply kept_refl]. Qed.

Lemma step_then st st1 st2 :
  step st st1 → (marked st1 → step st1 st2) → step st st2.
Proof.
  intros [Hs1 Hk1] H2. destruct (H2 Hs1) as [Hs2 Hk2].
  split; [done | by eapply kept_trans].
Qed.

Lemma links_fresh_blank : links_fresh blank_edge.
Proof. by repeat split. Qed.

Lemma edge_at_fresh st e :
  marked st → fresh_edge g e → links_fresh (edge_at st e).
Proof.
  intros Hs He. unfold edge_at.
  destruct (edges st !! e) as [o|] eqn:Ho; [|apply links_fresh_blank].
  by eapply (edges_sound st Hs).
Qed.

Lemma face_list_fresh st f :
  marked st → fresh_face g f → Forall (fresh_edge g) (default [] (faces st !! f)).
Proof.
  intros Hs Hf. destruct (faces st !! f) as [l|] eqn:Hl; [|constructor].
  by eapply (faces_sound st Hs).
Qed.

Lemma polygon_edges_fresh st p :
  marked st → fresh_poly g p →
  Forall (fresh_edge g) (default [] (polygon_edges st !! p)).
Proof.
  intros Hs Hp. destruct (polygon_edges st !! p) as [l|] eqn:Hl;
    [|constructor].
  by eapply (polygon_edges_sound st Hs).
Qed.

Lemma polygon_faces_fresh st p :
  marked st → fresh_poly g p →
  Forall (fresh_face g) (default [] (polygon_faces st !! p)).
Proof.
  intros Hs Hp. destruct (polygon_faces st !! p) as [l|] eqn:Hl;
    [|constructor].
  by eapply (polygon_faces_sound st Hs).
Qed.

(** The four ways in which a method changes the store. *)
Lemma step_alter_edge st e h :
  marked st → fresh_edge g e → (∀ o, links_fresh o → links_fresh (h o)) →
  step st (alter_edge h st e).
Proof.
  intros Hs He Hh. split.
  - destruct Hs. split; simpl; try done.
    + by rewrite length_alter.
    + by apply above_alter.
  - repeat split; simpl; try done. by apply take_alter_ge.
Qed.

Lemma step_alter_face st f h :
  marked st → fresh_face g f →
  (∀ l, Forall (fresh_edge g) l → Forall (fresh_edge g) (h l)) →
  step st (with_faces st (alter h f (faces st))).
Proof.
  intros Hs Hf Hh. split.
  - destruct Hs. split; simpl; try done.
    + by rewrite length_alter.
    + by apply above_alter.
  - repeat split; simpl; try done. by apply take_alter_ge.
Qed.

Lemma step_alter_polygon_edges st p h :
  marked st → fresh_poly g p →
  (∀ l, Forall (fresh_edge g) l → Forall (fresh_edge g) (h l)) →
  step st (with_polygon_edges st (alter h p (polygon_edges st))).
Proof.
  intros Hs Hf Hh. split.
  - destruct Hs. split; simpl; try done.
    + by rewrite length_alter.
    + by apply above_alter.
  - repeat split; simpl; try done. by apply take_alter_ge.
Qed.

Lemma step_alter_polygon_faces st p h :
  marked st → fresh_poly g p →
  (∀ l, Forall (fresh_face g) l → Forall (fresh_face g) (h l)) →
  step st (with_polygon_faces st (alter h p (polygon_faces st))).
Proof.
  intros Hs Hf Hh. split.
  - destruct Hs. split; simpl; try done.
    + by rewrite length_alter.
    + by apply above_alter.
  - repeat split; simpl; try done. by apply take_alter_ge.
Qed.

Lemma step_new_edges st os :
  marked st → Forall links_fresh os → step st (with_edges st (edges st ++ os)).
Proof.
  intros Hs Hos. split.
  - destruct Hs. split; simpl; try done.
    + rewrite length_app. lia.
    + by apply above_app.
  - repeat split; simpl; try done. by apply take_app_le, Hs.
Qed.

Lemma step_new_faces st ls :
  marked st → Forall (Forall (fresh_edge g)) ls →
  step st (with_faces st (faces st ++ ls)).
Proof.
  intros Hs Hos. split.
  - destruct Hs. split; simpl; try done.
    + rewrite length_app. lia.
    + by apply above_app.
  - repeat split; simpl; try done. by apply take_app_le, Hs.
Qed.

Lemma remove_all_fresh {P : nat → Prop} c l :
  Forall P l → Forall P (remove_all c l).
Proof.
  intros Hl. unfold remove_all. rewrite Forall_forall in Hl.
  apply Forall_forall. intros x Hx. apply Hl.
  by apply list_elem_of_filter in Hx as [_ Hx].
Qed.

Lemma step_foldr_alter_edge st l (h : nat → edge_obj → edge_obj) :
  marked st → Forall (fresh_edge g) l →
  (∀ e o, links_fresh o → links_fresh (h e o)) →
  step st (foldr (λ e st, alter_edge (h e) st e) st l).
Proof.
  intros Hs Hl Hh. induction Hl as [|e l He Hl IH]; simpl.
  - by apply step_refl.
  - eapply step_then; [exact IH|]. intros Hs'.
    apply step_alter_edge; [done|done|apply Hh].
Qed.

Lemma step_set_arc_lengths st l acc :
  marked st → Forall (fresh_edge g) l → step st (set_arc_lengths st l acc).
Proof.
  intros Hs Hl. revert st acc Hs.
  induction Hl as [|e l He Hl IH]; intros st acc Hs; simpl.
  - by apply step_refl.
  - eapply step_then.
    + apply (step_alter_edge st e (put_arc_length acc)); [done|done|].
      by intros o.
    + intros Hs'. by apply IH.
Qed.

Lemma chain_fresh st k a b :
  marked st → fresh_edge g a → Forall (fresh_edge g) (chain st k a b).
Proof.
  intros Hs. revert a. induction k as [|k IH]; intros a Ha; simpl.
  - by repeat constructor.
  - destruct (decide (a = b)); [by repeat constructor|].
    destruct (o_next (edge_at st a)) as [nx|] eqn:Hn;
      [|by repeat constructor].
    constructor; [done|]. apply IH.
    destruct (edge_at_fresh st a Hs Ha) as (Hnx & _ & _). by apply Hnx.
Qed.

Lemma step_setter st e (h : edge_obj → edge_obj) :
  marked st → fresh_edge g e → (∀ o, links_fresh o → links_fresh (h o)) →
  marked (alter_edge h st e) ∧ kept st (alter_edge h st e).
Proof. apply step_alter_edge. Qed.

Ltac fresh_some :=
  let Heq := fresh "Heq" in
  intros ? Heq; simpl in Heq; injection Heq as <-; assumption.

Lemma step_add_vertex st poly p e :
  marked st → fresh_poly g poly → fresh_edge g e →
  step st (add_vertex st poly p e).1 ∧ fresh_edge g (add_vertex st poly p e).2.
Proof.
  intros Hs Hp He.
  destruct (edge_at_fresh st e Hs He) as (Hn & Hq & Hf).
  assert (fresh_edge g (length (edges st))) as Hnew by apply Hs.
  split; [|done]. unfold add_vertex. cbv zeta.
  eapply step_then; cycle 1.
  { intros Hs4. apply step_alter_polygon_edges; [done|done|].
    intros l Hl. apply Forall_app. split; [done|]. by repeat constructor. }
  destruct (o_face (edge_at st e)) as [f|] eqn:Hface.
  2: clear Hf.
  1: eapply step_then; cycle 1.
  1: { intros Hs3. apply step_alter_face; [done|by apply Hf|].
       intros l Hl. apply Forall_flat_map. eapply Forall_impl; [exact Hl|].
       intros x Hx. simpl. destruct (decide _); by repeat constructor. }
  all: eapply step_then; cycle 1.
  all: try (intros Hs2; apply step_alter_edge; [done|done|];
            intros o (? & ? & ?); split; [done|]; split; [|done];
            fresh_some).
  all: destruct (o_prev (edge_at st e)) as [q|] eqn:Hprev.
  all: try (eapply step_then; cycle 1;
            [intros Hs1; apply step_alter_edge; [done|by apply Hq|];
             intros o (? & ? & ?); split; [|done]; fresh_some|]).
  all: apply step_new_edges; [done|]; constructor; [|constructor];
    (split; [|split]); simpl; [fresh_some|done|done].
Qed.

Lemma step_remove_chain st poly f e1 e2 :
  marked st → fresh_poly g poly → fresh_face g f → fresh_edge g e1 →
  fresh_edge g e2 → step st (remove_chain st poly f e1 e2).
Proof.
  intros Hs Hp Hf H1 H2.
  destruct (edge_at_fresh st e1 Hs H1) as (_ & Hbefore & _).
  destruct (edge_at_fresh st e2 Hs H2) as (Hafter & _ & _).
  unfold remove_chain. cbv zeta.
  set (st1 := match o_prev (edge_at st e1) with
              | Some b => alter_edge (put_next (o_next (edge_at st e2))) st b
              | None => st end).
  set (st2 := match o_next (edge_at st e2) with
              | Some a => alter_edge (put_prev (o_prev (edge_at st e1))) st1 a
              | None => st1 end).
  assert (step st st1) as Hst1.
  { unfold st1. destruct (o_prev (edge_at st e1)) as [b|] eqn:Hb;
      [|by apply step_refl].
    apply step_alter_edge; [done|by apply Hbefore|].
    intros o (? & ? & ?). by split. }
  assert (step st st2) as Hst2.
  { eapply step_then; [exact Hst1|]. intros Hs1. unfold st2.
    destruct (o_next (edge_at st e2)) as [a|] eqn:Ha; [|by apply step_refl].
    apply step_alter_edge; [done|by apply Hafter|].
    intros o (? & ? & ?). by split. }
  set (c := chain st (length (edges st)) e1 e2).
  set (st3 := with_faces st2 (alter (remove_all c) f (faces st2))).
  set (st4 := with_polygon_edges st3
                (alter (remove_all c) poly (polygon_edges st3))).
  assert (step st st4) as Hst4.
  { eapply step_then; [exact Hst2|]. intros Hs2.
    eapply step_then.
    - apply (step_alter_face st2 f (remove_all c)); [done|done|].
      intros l. apply remove_all_fresh.
    - intros Hs3.
      apply (step_alter_polygon_edges st3 poly (remove_all c)); [done|done|].
      intros l. apply remove_all_fresh. }
  destruct (decide _); [|done].
  eapply step_then; [exact Hst4|]. intros Hs4.
  apply step_alter_polygon_faces; [done|done|].
  intros l. apply remove_all_fresh.
Qed.

Lemma step_delete_face st poly f :
  marked st → fresh_poly g poly → step st (delete_face st poly f).
Proof.
  intros Hs Hp. unfold delete_face. cbv zeta.
  eapply step_then.
  - apply (step_alter_polygon_edges st poly
             (remove_all (default [] (faces st !! f)))); [done|done|].
    intros l. apply remove_all_fresh.
  - intros Hs1. apply step_alter_polygon_faces; [done|done|].
    intros l. apply remove_all_fresh.
Qed.

Lemma step_add_face st poly first last :
  marked st → fresh_poly g poly → fresh_edge_opt g first →
  fresh_edge_opt g last →
  step st (add_face st poly first last).1 ∧
  fresh_face g (add_face st poly first last).2.
Proof.
  intros Hs Hp Hfirst Hlast.
  assert (fresh_face g (length (faces st))) as Hnew by apply Hs.
  assert (step st (with_faces st (faces st ++ [[]]))) as Hempty.
  { apply step_new_faces; [done|]. by repeat constructor. }
  unfold add_face.
  destruct first as [a|]; [|by split].
  destruct last as [b|]; [|by split].
  split; [|done]. cbv zeta. cbn [fst snd].
  assert (fresh_edge g a) as Ha by (by apply Hfirst).
  assert (fresh_edge g b) as Hb by (by apply Hlast).
  pose proof (chain_fresh st (length (edges st)) a b Hs Ha) as Hc.
  set (c := chain st (length (edges st)) a b) in *.
  set (st1 := alter_edge (put_prev (Some b))
                (alter_edge (put_next (Some a)) st b) a).
  assert (step st st1) as Hst1.
  { eapply step_then.
    - apply (step_alter_edge st b (put_next (Some a))); [done|done|].
      intros o (? & ? & ?). split; [|done]. fresh_some.
    - intros Hs1. apply step_alter_edge; [done|done|].
      intros o (? & ? & ?). split; [done|]. split; [|done]. fresh_some. }
  set (st2 := foldr (λ e s, alter_edge (put_face (Some (length (faces st))))
                              s e) st1 c).
  assert (step st st2 ∧ faces st2 = faces st) as [Hst2 Hfaces].
  { split.
    - eapply step_then; [exact Hst1|]. intros Hs1.
      unfold st2.
      apply (step_foldr_alter_edge st1 c
               (λ _, put_face (Some (length (faces st))))); [done|done|].
      intros _ o (? & ? & ?). split; [done|]. split; [done|]. fresh_some.
    - unfold st2. clear. induction c as [|e c IH]; simpl; [done|]. done. }
  set (st3 := set_arc_lengths st2 c 0).
  assert (step st st3 ∧ faces st3 = faces st) as [Hst3 Hfaces3].
  { split.
    - eapply step_then; [exact Hst2|]. intros Hs2.
      by apply step_set_arc_lengths.
    - rewrite <- Hfaces. unfold st3. generalize 0%Z. generalize st2.
      clear. induction c as [|e c IH]; intros s z; simpl; [done|].
      by rewrite IH. }
  eapply step_then; [exact Hst3|]. intros Hs3.
  eapply step_then.
  { apply (step_new_faces st3 [c]); [done|]. by repeat constructor. }
  intros Hs4. eapply step_then.
  { apply (step_alter_polygon_edges _ poly (λ l, remove_all c l ++ c));
      [done|done|].
    intros l Hl. apply Forall_app. split; [by apply remove_all_fresh|done]. }
  intros Hs5.
  apply (step_alter_polygon_faces _ poly (λ l, l ++ [length (faces st)]));
    [done|done|].
  intros l Hl. apply Forall_app. split; [done|]. by repeat constructor.
Qed.

Lemma find_index_fresh {A} (P : A → Prop) `{∀ x, Decision (P x)}
    (l : list A) (base : nat) v (n : nat) :
  n ≤ base →
  (λ i, base + i) <$> (list_find P l ≫= λ y, Some y.1) = Some v → n ≤ v.
Proof.
  intros Hn Hv. destruct (list_find P l ≫= _) as [i|]; [|done].
  injection Hv as <-. lia.
Qed.

Lemma step_copy_polygon st poly :
  marked st →
  step st (copy_polygon st poly).1 ∧ fresh_poly g (copy_polygon st poly).2.
Proof.
  intros Hs. split; [|apply Hs]. destruct Hs.
  unfold copy_polygon. cbv zeta. cbn [fst].
  set (pe := default [] (polygon_edges st !! poly)).
  set (pf := default [] (polygon_faces st !! poly)).
  set (edge_to := λ e : nat,
         (λ i, length (edges st) + i)
           <$> (list_find (λ x, x = e) pe ≫= λ y, Some y.1)).
  set (face_to := λ f : nat,
         (λ i, length (faces st) + i)
           <$> (list_find (λ x, x = f) pf ≫= λ y, Some y.1)).
  assert (∀ o, fresh_edge_opt g (o ≫= edge_to)) as Hedge.
  { intros [e|] v Hv; [|done]. simpl in Hv.
    by eapply find_index_fresh. }
  assert (∀ o, fresh_face_opt g (o ≫= face_to)) as Hface.
  { intros [f|] v Hv; [|done]. simpl in Hv.
    by eapply find_index_fresh. }
  assert (∀ l, Forall (fresh_edge g) (omap edge_to l)) as Hedges.
  { intros l. apply Forall_forall. intros v Hv.
    apply list_elem_of_omap in Hv as (e & _ & Hv).
    by apply (Hedge (Some e)). }
  assert (∀ l, Forall (fresh_face g) (omap face_to l)) as Hfaces.
  { intros l. apply Forall_forall. intros v Hv.
    apply list_elem_of_omap in Hv as (f & _ & Hv).
    by apply (Hface (Some f)). }
  split.
  - split; simpl; rewrite ?length_app; try lia.
    + apply above_app; [done|]. apply Forall_forall. intros o Ho.
      apply list_elem_of_In, in_map_iff in Ho as (e & <- & _).
      split; [|split]; simpl; auto.
    + apply above_app; [done|]. apply Forall_forall. intros l Hl.
      apply list_elem_of_In, in_map_iff in Hl as (f & <- & _). apply Hedges.
    + apply above_app; [done|]. by repeat constructor.
    + apply above_app; [done|]. by repeat constructor.
  - repeat split; simpl; by apply take_app_le.
Qed.

Lemma step_reverse_polygon st poly :
  marked st → fresh_poly g poly →
  step st (reverse_polygon st poly).1 ∧
  fresh_poly g (reverse_polygon st poly).2.
Proof.
  intros Hs Hp. split; [|done]. unfold reverse_polygon. cbv zeta. cbn [fst].
  pose proof (polygon_edges_fresh st poly Hs Hp) as Hpe.
  pose proof (polygon_faces_fresh st poly Hs Hp) as Hpf.
  set (pe := default [] (polygon_edges st !! poly)) in *.
  set (pf := default [] (polygon_faces st !! poly)) in *.
  set (turn := λ o, put_prev (o_next o)
                      (put_next (o_prev o)
                         (put_shape ((o_shape o).2, (o_shape o).1) o))).
  set (st1 := foldr (λ e s, alter_edge turn s e) st pe).
  assert (step st st1) as Hst1.
  { apply (step_foldr_alter_edge st pe (λ _, turn)); [done|done|].
    intros _ o (? & ? & ?). by split. }
  set (st2 := with_faces st1 (foldr (λ f fs, alter (@rev nat) f fs)
                                (faces st1) pf)).
  assert (step st st2) as Hst2.
  { eapply step_then; [exact Hst1|]. intros Hs1. unfold st2.
    clear Hst1. induction Hpf as [|f pf Hf Hpf IH]; simpl.
    - destruct st1; by apply step_refl.
    - eapply step_then; [exact IH|]. intros Hs2.
      apply (step_alter_face _ f (@rev nat) Hs2 Hf).
      intros l Hl. apply Forall_forall. intros x Hx.
      rewrite Forall_forall in Hl. apply Hl.
      by apply list_elem_of_In, in_rev, list_elem_of_In. }
  eapply step_then; [exact Hst2|]. intros Hs2.
  generalize st2 Hs2. clear -Hpf.
  induction Hpf as [|f pf Hf Hpf IH]; intros s Hs; simpl.
  - by apply step_refl.
  - eapply step_then; [by apply IH|]. intros Hs'.
    apply step_set_arc_lengths; [done|]. by apply face_list_fresh.
Qed.

Lemma head_fresh {P : nat → Prop} l e : Forall P l → head l = Some e → P e.
Proof. intros Hl He. destruct l; [done|]. injection He as <-. by inversion Hl. Qed.

Lemma last_fresh' {P : nat → Prop} l e : Forall P l → last l = Some e → P e.
Proof.
  intros Hl He. rewrite Forall_forall in Hl. apply Hl.
  rewrite last_lookup in He. by eapply list_elem_of_lookup_2.
Qed.

End Region.

Lemma clone_store (tol : Z) : @CloneStore (oracle tol) (pstore tol).
Proof.
  apply (@Build_CloneStore (oracle tol) (pstore tol) marked kept).
  - apply kept_refl.
  - apply kept_trans.
  - intros g st e n Hs He Hn.
    destruct (edge_at_fresh g st e Hs He) as (H1 & _ & _). by apply H1.
  - intros g st e n Hs He Hn.
    destruct (edge_at_fresh g st e Hs He) as (_ & H1 & _). by apply H1.
  - intros g st e f Hs He Hf.
    destruct (edge_at_fresh g st e Hs He) as (_ & _ & H1). by apply H1.
  - intros g st f e Hs Hf He.
    eapply head_fresh; [|exact He]. by apply face_list_fresh.
  - intros g st f e Hs Hf He.
    eapply last_fresh'; [|exact He]. by apply face_list_fresh.
  - intros g st f e Hs Hf He.
    pose proof (face_list_fresh g st f Hs Hf) as Hl.
    rewrite Forall_forall in Hl. by apply Hl.
  - intros g st p e Hs Hp He.
    pose proof (polygon_edges_fresh g st p Hs Hp) as Hl.
    rewrite Forall_forall in Hl. by apply Hl.
  - intros g st p f Hs Hp Hf.
    pose proof (polygon_faces_fresh g st p Hs Hp) as Hl.
    rewrite Forall_forall in Hl. by apply Hl.
  - intros g st p b e Hs Hp He.
    pose proof (polygon_edges_fresh g st p Hs Hp) as Hl.
    rewrite Forall_forall in Hl. by apply Hl.
  - intros g st p Hs.
    destruct (step_copy_polygon g st p Hs) as [[? ?] ?]. done.
  - intros g st p Hs Hp.
    destruct (step_reverse_polygon g st p Hs Hp) as [[? ?] ?]. done.
  - intros g st e v Hs He Hv. apply step_alter_edge; [done|done|].
    intros o (? & ? & ?). by split.
  - intros g st e v Hs He Hv. apply step_alter_edge; [done|done|].
    intros o (? & ? & ?). by split.
  - intros g st e v Hs He Hv. apply step_alter_edge; [done|done|].
    intros o (? & ? & ?). by split.
  - intros g st e v Hs He. apply step_alter_edge; [done|done|]. by intros o.
  - intros g st e v Hs He. apply step_alter_edge; [done|done|]. by intros o.
  - intros g st e v Hs He. apply step_alter_edge; [done|done|]. by intros o.
  - intros g st e v Hs He. apply step_alter_edge; [done|done|]. by intros o.
  - intros g st e p Hs He Hp. simpl.
    destruct (o_bv (edge_at st e)); [by apply step_refl|].
    apply step_alter_edge; [done|done|]. by intros o.
  - intros g st e1 e2 Hs H1 H2. simpl.
    eapply step_then.
    + instantiate (1 := match o_overlap (edge_at st e1) with
                        | Some _ => st | None => _ end).
      destruct (o_overlap (edge_at st e1)); [by apply step_refl|].
      apply (step_alter_edge g st e1 (put_overlap (overlap_of st e1 e2)));
        [done|done|]. by intros o.
    + intros Hs1. destruct (o_overlap (edge_at _ e2)); [by apply step_refl|].
      apply step_alter_edge; [done|done|]. by intros o.
  - intros g st p e Hs Hp He. apply step_alter_polygon_edges; [done|done|].
    intros l Hl. destruct (decide _); [done|].
    apply Forall_app. split; [done|]. by repeat constructor.
  - intros g st p f Hs Hp. simpl. destruct f as [f|]; [|by apply step_refl].
    apply step_alter_polygon_faces; [done|done|].
    intros l. apply remove_all_fresh.
  - intros g st p pt e Hs Hp He.
    destruct (step_add_vertex g st p pt e Hs Hp He) as [[? ?] ?]. done.
  - intros g st p first last Hs Hp Hf Hl.
    destruct (step_add_face g st p first last Hs Hp Hf Hl) as [[? ?] ?]. done.
  - intros g st p f e1 e2 Hs Hp Hf H1 H2.
    by apply step_remove_chain.
  - intros g st p f Hs Hp Hf. by apply step_delete_face.
Defined.

End RectClone.

(** ** Operands whose boundaries do not meet *)

Section Apart.
Context `{PolygonStore}.

(** No edge of [polygon1] has an intersection point with an edge that the
    search of [polygon2] gives for its box. *)
Definition boundaries_apart (st : St) (polygon1 polygon2 : Poly) : bool :=
  forallb (λ edge1,
    forallb (λ edge2,
      match shape_intersect (e_shape st edge1) (e_shape st edge2) with
      | [] => true
      | _ :: _ => false
      end)
      (edges_search st polygon2 (e_box st edge1)))
    (poly_edges st polygon1).

Lemma fold_each_idle {A S} (l : list A) (s : S) body w :
  (∀ x, x ∈ l → body s x w = Normal (s, w)) →
  fold_each l s body w = Normal (s, w).
Proof.
  induction l as [|y l IH]; intros Hb; [done|].
  simpl. rewrite bind_run, Hb by set_solver. apply IH.
  intros x Hx. apply Hb. set_solver.
Qed.

Lemma getIntersections_apart polygon1 polygon2 w :
  boundaries_apart (store w) polygon1 polygon2 = true →
  getIntersections polygon1 polygon2 w =
  Normal (mkIntersections [] [] None None, w).
Proof.
  intros Hall. unfold boundaries_apart in Hall.
  rewrite forallb_forall in Hall.
  unfold getIntersections. rewrite bind_run. simpl.
  apply fold_each_idle. intros edge1 H1.
  specialize (Hall edge1 (proj1 (list_elem_of_In _ _) H1)).
  rewrite forallb_forall in Hall.
  rewrite bind_run. simpl.
  apply fold_each_idle. intros edge2 H2.
  specialize (Hall edge2 (proj1 (list_elem_of_In _ _) H2)).
  rewrite bind_run. simpl.
  destruct (shape_intersect _ _); [done | discriminate].
Qed.

Lemma fold_each_collect (l acc : list Face) w :
  fold_each l acc (λ notIntersected f,
    found ← find_on_face [] (Some f);
    match found with
    | Some _ => mret notIntersected
    | None => mret (notIntersected ++ [f])
    end) w = Normal (acc ++ l, w).
Proof.
  revert acc. induction l as [|f l IH]; intros acc; simpl.
  - by rewrite app_nil_r.
  - rewrite bind_run. simpl. rewrite IH. by rewrite <- app_assoc.
Qed.

Lemma getNotIntersectedFaces_none poly w :
  getNotIntersectedFaces poly [] w = Normal (poly_faces (store w) poly, w).
Proof.
  unfold getNotIntersectedFaces. rewrite bind_run. simpl.
  apply (fold_each_collect _ []).
Qed.

(** [X15] When the boundaries of the clones do not meet, no record is made and
    [booleanOpBinary] is what is left of its stages for faces without a
    crossing: inclusion of the first edge of every face in the other polygon,
    the rule for faces without a crossing, and, when [restore] is set, the
    copy of the second clone into the first. *)
Theorem booleanOpBinary_apart polygon1 polygon2 op restore w
    st1 res_poly st2 wrk_poly :
  clone (store w) polygon1 = (st1, res_poly) →
  clone st1 polygon2 = (st2, wrk_poly) →
  boundaries_apart st2 res_poly wrk_poly = true →
  booleanOpBinary polygon1 polygon2 op restore w =
  (calcInclusionForNotIntersectedFaces (poly_faces st2 res_poly) wrk_poly;;
   calcInclusionForNotIntersectedFaces (poly_faces st2 wrk_poly) res_poly;;
   removeNotRelevantNotIntersectedFaces res_poly (poly_faces st2 res_poly)
     op true;;
   removeNotRelevantNotIntersectedFaces wrk_poly (poly_faces st2 wrk_poly)
     op false;;
   (if restore then copyWrkToRes res_poly wrk_poly op [] else mret tt);;
   mret (res_poly, wrk_poly)) (mkWorld (recs w) st2).
Proof.
  intros H1 H2 Hall. unfold booleanOpBinary.
  rewrite bind_run. unfold call_clone at 1. rewrite H1.
  rewrite bind_run. unfold call_clone at 1. simpl. rewrite H2.
  rewrite bind_run, getIntersections_apart by done.
  rewrite bind_run.
  change (sortIntersections _ _) with
    (Normal (mkIntersections [] [] (Some []) (Some []),
             mkWorld (recs w) st2)).
  cbv iota beta. cbn [int_points1_sorted int_points2_sorted].
  set (w2 := mkWorld (recs w) st2).
  set (none := mkIntersections [] [] (Some []) (Some [])).
  rewrite bind_run.
  change (splitByIntersections res_poly (Some []) w2) with (Normal (tt, w2)).
  cbv iota beta. rewrite bind_run.
  change (splitByIntersections wrk_poly (Some []) w2) with (Normal (tt, w2)).
  cbv iota beta. rewrite bind_run.
  change (filterDuplicatedIntersections none w2) with (Normal (none, w2)).
  cbv iota beta. rewrite bind_run.
  unfold filterNotRelevantEdges. cbn [int_points1 int_points2 none
    int_points1_sorted int_points2_sorted].
  rewrite (bind_run (getNotIntersectedFaces _ _)),
    getNotIntersectedFaces_none.
  rewrite (bind_run (getNotIntersectedFaces _ _)),
    getNotIntersectedFaces_none.
  change (store w2) with st2.
  rewrite !(bind_run (calcInclusionForNotIntersectedFaces _ _)).
  destruct (calcInclusionForNotIntersectedFaces _ _ w2) as [[[] w3]|]; [|done].
  rewrite !(bind_run (calcInclusionForNotIntersectedFaces _ _)).
  destruct (calcInclusionForNotIntersectedFaces _ _ w3) as [[[] w4]|]; [|done].
  rewrite (bind_run (initializeInclusionFlags _)).
  change (initializeInclusionFlags [] w4) with (Normal (tt, w4)).
  cbv iota beta.
  rewrite (bind_run (initializeInclusionFlags _)).
  change (initializeInclusionFlags [] w4) with (Normal (tt, w4)).
  cbv iota beta.
  rewrite (bind_run (calculateInclusionFlags _ _)).
  change (calculateInclusionFlags [] wrk_poly w4) with (Normal (tt, w4)).
  cbv iota beta.
  rewrite (bind_run (calculateInclusionFlags _ _)).
  change (calculateInclusionFlags [] res_poly w4) with (Normal (tt, w4)).
  cbv iota beta.
  rewrite (bind_run (setOverlappingFlags _)).
  change (setOverlappingFlags none w4) with (Normal (tt, w4)).
  cbv iota beta.
  rewrite (bind_run (removeNotRelevantChains _ _ _ _)).
  change (removeNotRelevantChains res_poly op (Some []) true w4)
    with (Normal (tt, w4)).
  cbv iota beta.
  rewrite (bind_run (removeNotRelevantChains _ _ _ _)).
  change (removeNotRelevantChains wrk_poly op (Some []) false w4)
    with (Normal (tt, w4)).
  cbv iota beta.
  rewrite !(bind_run (removeNotRelevantNotIntersectedFaces _ _ _ _)).
  destruct (removeNotRelevantNotIntersectedFaces _ _ _ _ w4) as [[[] w5]|];
    [|done].
  rewrite !(bind_run (removeNotRelevantNotIntersectedFaces _ _ _ _)).
  destruct (removeNotRelevantNotIntersectedFaces _ _ _ _ w5) as [[[] w6]|];
    [|done].
  destruct restore; [|done].
  unfold swapLinksAndRestore. cbn [int_points1 int_points2 none].
  rewrite !bind_run.
  destruct (copyWrkToRes _ _ _ _ w6) as [[[] w7]|]; reflexivity.
Qed.

End Apart.

(** ** The links that the classifier needs *)

Section Links.
Context `{PolygonStore}.

(** The record behind [r] has an edge before it and an edge after it. *)
Definition both_linked (rs : list IntPoint) (r : ipref) : Prop :=
  ∃ x, rs !! r = Some x ∧ is_Some (edge_before x) ∧ is_Some (edge_after x).

#[local] Instance both_linked_dec rs r : Decision (both_linked rs r).
Proof.
  unfold both_linked. destruct (rs !! r) as [x|].
  - destruct (decide (is_Some (edge_before x) ∧ is_Some (edge_after x)))
      as [Hy|Hn].
    + left. by exists x.
    + right. intros (y & [= <-] & Hy). tauto.
  - right. intros (y & [=] & _).
Defined.

(** A loop whose body needs [P] of the records, and leaves the records. *)
Lemma for_each_needs {A} (P : list IntPoint → A → Prop)
    `{∀ rs x, Decision (P rs x)} (l : list A) body w :
  (∀ x w1, P (recs w1) x →
     ∃ w2, body x w1 = Normal (tt, w2) ∧ recs w2 = recs w1) →
  (∀ x w1, ¬ P (recs w1) x → body x w1 = TypeError) →
  (Forall (P (recs w)) l →
     ∃ w', for_each l body w = Normal (tt, w') ∧ recs w' = recs w) ∧
  (¬ Forall (P (recs w)) l → for_each l body w = TypeError).
Proof.
  intros Hyes Hno. revert w. induction l as [|x l IH]; intros w; simpl.
  - split; [by exists w|]. intros []. constructor.
  - rewrite bind_run. destruct (decide (P (recs w) x)) as [Hp|Hn].
    + destruct (Hyes x w Hp) as (w2 & -> & Hrs).
      destruct (IH w2) as [IH1 IH2]. rewrite Hrs in IH1, IH2. split.
      * intros [_ Hall]%Forall_cons. destruct (IH1 Hall) as (w' & ? & ?).
        exists w'. split; [done | congruence].
      * intros Hall. apply IH2. intros Hl. apply Hall. by constructor.
    + rewrite (Hno x w Hn). split; [|done].
      intros [Hp _]%Forall_cons. done.
Qed.

Lemma read_edge_Normal r (f : IntPoint → option Edge) w x e :
  recs w !! r = Some x → f x = Some e →
  (o ← field (Some r) f; deref o) w = Normal (e, w).
Proof.
  intros Hx He. rewrite bind_run. unfold field. rewrite bind_run. simpl.
  rewrite bind_run. unfold get_rec. rewrite Hx. simpl. by rewrite He.
Qed.

Lemma read_edge_TypeError r (f : IntPoint → option Edge) w :
  (∀ x, recs w !! r = Some x → f x = None) →
  (o ← field (Some r) f; deref o) w = TypeError.
Proof.
  intros Hx. rewrite bind_run. unfold field. rewrite bind_run. simpl.
  rewrite bind_run. unfold get_rec.
  destruct (recs w !! r) as [x|] eqn:E; [|done]. simpl.
  by rewrite (Hx x).
Qed.

Lemma not_both_linked rs r x :
  ¬ both_linked rs r → rs !! r = Some x →
  edge_before x = None ∨
  (is_Some (edge_before x) ∧ edge_after x = None).
Proof.
  intros Hn Hx. destruct (edge_before x) as [eb|] eqn:Eb; [|by left].
  right. split; [done|]. destruct (edge_after x) as [ea|] eqn:Ea; [|done].
  destruct Hn. exists x. rewrite Eb, Ea. eauto.
Qed.

Lemma modify_bind {B} f (k : unit → M B) w :
  (modify_store f ≫= k) w = k tt (mkWorld (recs w) (f (store w))).
Proof. reflexivity. Qed.

Ltac run_linked Hx Heb Hea :=
  rewrite bind_run; erewrite read_edge_Normal; [|exact Hx|exact Heb];
  repeat (rewrite modify_bind; cbv beta);
  rewrite bind_run; erewrite read_edge_Normal; [|exact Hx|exact Hea];
  repeat (rewrite modify_bind; cbv beta);
  eexists; split; [reflexivity|done].

Ltac run_unlinked r w Hn :=
  let x := fresh "x" in
  let Hx := fresh "Hx" in
  let Heb := fresh "Heb" in
  let Hea := fresh "Hea" in
  rewrite bind_run;
  destruct (recs w !! r) as [x|] eqn:Hx;
  [ destruct (not_both_linked _ _ _ Hn Hx) as [Heb|[[? Heb] Hea]];
    [ rewrite read_edge_TypeError; [done|]; intros; congruence
    | erewrite read_edge_Normal; [|exact Hx|exact Heb];
      repeat (rewrite modify_bind; cbv beta);
      rewrite bind_run, read_edge_TypeError; [done|];
      simpl; intros; congruence ]
  | rewrite read_edge_TypeError; [done|]; intros; congruence ].

Lemma clear_flags_needs_links l w :
  (Forall (both_linked (recs w)) l →
     ∃ w', for_each l (λ int_point,
       eb ← (o ← field (Some int_point) edge_before; deref o);
       modify_store (λ st, set_bvStart st eb None);;
       modify_store (λ st, set_bvEnd st eb None);;
       modify_store (λ st, set_bv st eb None);;
       modify_store (λ st, set_overlap st eb None);;
       ea ← (o ← field (Some int_point) edge_after; deref o);
       modify_store (λ st, set_bvStart st ea None);;
       modify_store (λ st, set_bvEnd st ea None);;
       modify_store (λ st, set_bv st ea None);;
       modify_store (λ st, set_overlap st ea None)) w
           = Normal (tt, w') ∧ recs w' = recs w) ∧
  (¬ Forall (both_linked (recs w)) l →
     for_each l (λ int_point,
       eb ← (o ← field (Some int_point) edge_before; deref o);
       modify_store (λ st, set_bvStart st eb None);;
       modify_store (λ st, set_bvEnd st eb None);;
       modify_store (λ st, set_bv st eb None);;
       modify_store (λ st, set_overlap st eb None);;
       ea ← (o ← field (Some int_point) edge_after; deref o);
       modify_store (λ st, set_bvStart st ea None);;
       modify_store (λ st, set_bvEnd st ea None);;
       modify_store (λ st, set_bv st ea None);;
       modify_store (λ st, set_overlap st ea None)) w
     = TypeError).
Proof.
  apply (for_each_needs both_linked).
  - intros r w1 (x & Hx & [eb Heb] & [ea Hea]). run_linked Hx Heb Hea.
  - intros r w1 Hn. run_unlinked r w1 Hn.
Qed.

Lemma mark_ends_needs_links l w :
  (Forall (both_linked (recs w)) l →
     ∃ w', for_each l (λ int_point,
       eb ← (o ← field (Some int_point) edge_before; deref o);
       modify_store (λ st, set_bvEnd st eb (Some BOUNDARY));;
       ea ← (o ← field (Some int_point) edge_after; deref o);
       modify_store (λ st, set_bvStart st ea (Some BOUNDARY))) w
           = Normal (tt, w') ∧ recs w' = recs w) ∧
  (¬ Forall (both_linked (recs w)) l →
     for_each l (λ int_point,
       eb ← (o ← field (Some int_point) edge_before; deref o);
       modify_store (λ st, set_bvEnd st eb (Some BOUNDARY));;
       ea ← (o ← field (Some int_point) edge_after; deref o);
       modify_store (λ st, set_bvStart st ea (Some BOUNDARY))) w
     = TypeError).
Proof.
  apply (for_each_needs both_linked).
  - intros r w1 (x & Hx & [eb Heb] & [ea Hea]). run_linked Hx Heb Hea.
  - intros r w1 Hn. run_unlinked r w1 Hn.
Qed.

Lemma calculateInclusionFlags_needs_links l polygon w :
  (Forall (both_linked (recs w)) l →
     ∃ w', calculateInclusionFlags l polygon w = Normal (tt, w') ∧
           recs w' = recs w) ∧
  (¬ Forall (both_linked (recs w)) l →
     calculateInclusionFlags l polygon w = TypeError).
Proof.
  apply (for_each_needs both_linked).
  - intros r w1 (x & Hx & [eb Heb] & [ea Hea]). run_linked Hx Heb Hea.
  - intros r w1 Hn. run_unlinked r w1 Hn.
Qed.

(** [X17] The classifier reads the edge before and the edge after each record:
    [initializeInclusionFlags] and [calculateInclusionFlags] return, with the
    records as they were, when every record of the list has both edges, and
    throw a [TypeError] otherwise. *)
Theorem inclusion_flags_need_links l polygon w :
  (Forall (both_linked (recs w)) l →
     (∃ w', initializeInclusionFlags l w = Normal (tt, w') ∧
            recs w' = recs w) ∧
     (∃ w', calculateInclusionFlags l polygon w = Normal (tt, w') ∧
            recs w' = recs w)) ∧
  (¬ Forall (both_linked (recs w)) l →
     initializeInclusionFlags l w = TypeError ∧
     calculateInclusionFlags l polygon w = TypeError).
Proof.
  unfold initializeInclusionFlags.
  split.
  - intros Hall. split; [|by apply calculateInclusionFlags_needs_links].
    rewrite bind_run.
    destruct (proj1 (clear_flags_needs_links l w) Hall) as (w1 & -> & Hrs1).
    rewrite <- Hrs1 in Hall.
    destruct (proj1 (mark_ends_needs_links l w1) Hall) as (w2 & Hrun2 & Hrs2).
    exists w2. split; [exact Hrun2 | congruence].
  - intros Hall. split; [|by apply calculateInclusionFlags_needs_links].
    rewrite bind_run. by rewrite (proj2 (clear_flags_needs_links l w) Hall).
Qed.

End Links.

(** ** Where overlap flags are set *)

Section Overlaps.
Context `{PolygonStore}.

(** [e] is a chain of one edge between crossings of the list [l]: the edge
    after one record of [l] and the edge before a record of [l]. *)
Definition one_edge_chain (rs : list IntPoint) (l : list ipref) (e : Edge)
  : Prop :=
  ∃ p q x y, p ∈ l ∧ q ∈ l ∧ rs !! p = Some x ∧ rs !! q = Some y ∧
    edge_after x = Some e ∧ edge_before y = Some e.

(** The stores that calls of [setOverlap] on two boundary edges, each a
    chain of one edge of its list, lead to. *)
Inductive overlaps_set (rs : list IntPoint) (l1 l2 : list ipref)
  : St → St → Prop :=
  | overlaps_none st : overlaps_set rs l1 l2 st st
  | overlaps_more st st' e1 e2 :
      overlaps_set rs l1 l2 st st' →
      e_bv st' e1 = Some BOUNDARY → e_bv st' e2 = Some BOUNDARY →
      one_edge_chain rs l1 e1 → one_edge_chain rs l2 e2 →
      overlaps_set rs l1 l2 st (setOverlap st' e1 e2).

Lemma wp_field_known {A} o (f : IntPoint → A) w :
  wp True (field o f)
    (λ v w', w' = w ∧ ∃ r x, o = Some r ∧ recs w !! r = Some x ∧ v = f x) w.
Proof.
  apply wp_field. destruct o as [r|]; [|done]. simpl.
  destruct (recs w !! r) as [x|] eqn:Hx; [|done]. eauto 10.
Qed.

Lemma wp_boundary_ends a b w :
  wp True (boundary_ends a b)
    (λ r w', w' = w ∧
       (r = true → ∃ ef et, a = Some ef ∧ b = Some et ∧
          e_bv (store w) ef = Some BOUNDARY ∧
          e_bv (store w) et = Some BOUNDARY)) w.
Proof.
  unfold boundary_ends. apply wp_bind, wp_deref.
  destruct a as [ef|]; [|done]. apply wp_bind, wp_get_store.
  destruct (decide _) as [Hef|]; [|by apply wp_ret].
  apply wp_bind, wp_deref. destruct b as [et|]; [|done].
  apply wp_ret. split; [done|]. intros Hb%bool_decide_eq_true. eauto 10.
Qed.

Lemma wp_boundary_chain a b w :
  wp True (boundary_chain a b)
    (λ r w', w' = w ∧
       (r = true → ∃ e, a = Some e ∧ b = Some e ∧
          e_bv (store w) e = Some BOUNDARY)) w.
Proof.
  unfold boundary_chain. apply wp_bind.
  eapply wp_mono; [apply wp_boundary_ends|].
  intros r ? [-> Hr]. apply wp_ret. split; [done|].
  intros [Hb Heq%bool_decide_eq_true]%andb_true_iff.
  destruct (Hr Hb) as (ef & et & -> & -> & Hef & _).
  injection Heq as <-. eauto.
Qed.

Lemma js_index_elem {A} (l : list A) i x : js_index l i = Some x → x ∈ l.
Proof.
  unfold js_index. destruct (decide _); [|done].
  apply list_elem_of_lookup_2.
Qed.

(** The second chain: the one between the partners of the two crossings, in
    this order or in the other one. *)
Lemma wp_second_chain (l2 : list ipref) (c n : option ipref) w :
  wp True
    (edge_from2 ← field c edge_after;
     edge_to2 ← field n edge_before;
     mret (edge_from2, edge_to2))
    (λ p w', w' = w ∧ ∃ r s x y, c = Some r ∧ n = Some s ∧
       recs w !! r = Some x ∧ recs w !! s = Some y ∧
       p = (edge_after x, edge_before y)) w.
Proof.
  apply wp_bind. eapply wp_mono; [apply wp_field_known|].
  intros ? ? (-> & r & x & -> & Hx & ->).
  apply wp_bind. eapply wp_mono; [apply wp_field_known|].
  intros ? ? (-> & s & y & -> & Hy & ->).
  apply wp_ret. split; [done|]. eauto 12.
Qed.

Definition named (l : list ipref) (o : option ipref) : Prop :=
  ∀ r, o = Some r → r ∈ l.

Lemma wp_overlap_step ints n s i w :
  let l1 := default [] (int_points1_sorted ints) in
  named l1 s.2 →
  wp True (overlap_step ints n s i)
    (λ s' w', recs w' = recs w ∧ named l1 s'.2 ∧
       (store w' = store w ∨
        ∃ e1 e2, store w' = setOverlap (store w) e1 e2 ∧
          e_bv (store w) e1 = Some BOUNDARY ∧
          e_bv (store w) e2 = Some BOUNDARY ∧
          one_edge_chain (recs w) l1 e1 ∧
          one_edge_chain (recs w) (int_points2 ints) e2)) w.
Proof.
  intros l1 Hs. destruct s as [cur_face first]. simpl in Hs.
  unfold overlap_step. apply wp_bind, wp_deref.
  destruct (int_points1_sorted ints) as [l|] eqn:Hl1; [|done].
  simpl in l1. subst l1.
  set (l1 := l) in *.
  apply wp_bind. eapply wp_mono; [apply wp_field_known|].
  intros ? ? (-> & c1 & x1 & Hc1 & Hx1 & ->).
  assert (c1 ∈ l1) as Hc1in by (by eapply list_elem_of_lookup_2).
  set (st := if decide (face x1 ≠ cur_face) then (l1 !! i, face x1)
             else (first, cur_face)).
  assert (named l1 st.1) as Hfirst.
  { unfold st. destruct (decide _); simpl; [|done].
    intros r Hr. rewrite Hc1 in Hr. by injection Hr as <-. }
  destruct st as [first' cur_face']. simpl in Hfirst.
  apply wp_bind.
  apply (wp_mono _ _ (λ nx w', w' = w ∧ named l1 nx)).
  { destruct (decide _); [by apply wp_ret|].
    apply wp_bind. eapply wp_mono; [apply wp_field_known|].
    intros ? ? (-> & c2 & x2 & Hc2 & Hx2 & ->).
    destruct (decide _); apply wp_ret; (split; [done|]); [done|].
    intros r Hr. rewrite Hc2 in Hr. injection Hr as <-.
    by eapply list_elem_of_lookup_2. }
  intros nx ? [-> Hnx].
  apply wp_bind. eapply wp_mono; [apply wp_field_known|].
  intros ? ? (-> & c1' & x1' & Hc1' & Hx1' & ->).
  rewrite Hc1 in Hc1'. injection Hc1' as <-.
  rewrite Hx1 in Hx1'. injection Hx1' as <-.
  apply wp_bind. eapply wp_mono; [apply wp_field_known|].
  intros ? ? (-> & n1 & y1 & -> & Hy1 & ->).
  assert (n1 ∈ l1) as Hn1in by (by apply Hnx).
  apply wp_bind. eapply wp_mono; [apply wp_boundary_ends|].
  intros b ? [-> Hb].
  destruct b; simpl; [|apply wp_ret; auto].
  destruct (Hb eq_refl) as (e1 & et & He1 & Het & Hbv1 & _).
  destruct (decide _) as [|Heq%dec_stable]; [apply wp_ret; auto|].
  assert (one_edge_chain (recs w) l1 e1) as Hchain1.
  { exists c1, n1, x1, y1. split_and!; try done. by rewrite <- Heq. }
  apply wp_bind. eapply wp_mono; [apply wp_field_known|].
  intros ? ? (-> & ? & ? & Hc & Hx & ->).
  rewrite Hc1 in Hc. injection Hc as <-.
  rewrite Hx1 in Hx. injection Hx as <-.
  apply wp_bind. eapply wp_mono; [apply wp_field_known|].
  intros ? ? (-> & ? & ? & [= <-] & Hy & ->).
  rewrite Hy1 in Hy. injection Hy as <-.
  apply wp_bind. eapply wp_mono; [apply wp_field_known|].
  intros ? ? (-> & c2 & x2 & Hc2 & Hx2 & ->).
  apply wp_bind. eapply wp_mono; [apply wp_field_known|].
  intros ? ? (-> & n2 & y2 & Hn2 & Hy2 & ->).
  apply wp_bind. eapply wp_mono; [apply wp_boundary_chain|].
  intros b ? [-> _].
  apply wp_bind.
  apply (wp_mono _ _ (λ p w', w' = w ∧ ∃ r s x y,
           r ∈ int_points2 ints ∧ s ∈ int_points2 ints ∧
           recs w !! r = Some x ∧ recs w !! s = Some y ∧
           p = (edge_after x, edge_before y))).
  { destruct b; simpl.
    - apply wp_ret. split; [done|]. exists c2, n2, x2, y2.
      split_and!; try done; by eapply js_index_elem.
    - apply wp_bind. eapply wp_mono; [apply wp_field_known|].
      intros ? ? (-> & ? & ? & [= <-] & Hy & ->).
      rewrite Hy1 in Hy. injection Hy as <-.
      apply wp_bind. eapply wp_mono; [apply wp_field_known|].
      intros ? ? (-> & ? & ? & Hc & Hx & ->).
      rewrite Hc1 in Hc. injection Hc as <-.
      rewrite Hx1 in Hx. injection Hx as <-.
      eapply wp_mono; [apply (wp_second_chain (int_points2 ints))|].
      intros p ? (-> & r & s & x & y & Hr & Hs' & Hx & Hy & ->).
      split; [done|]. exists r, s, x, y.
      split_and!; try done; by eapply js_index_elem. }
  intros [ef2 et2] ? (-> & r & s & x & y & Hr & Hs' & Hx & Hy & [= -> ->]).
  apply wp_bind. eapply wp_mono; [apply wp_boundary_chain|].
  intros b' ? [-> Hb'].
  destruct b'; simpl; [|apply wp_ret; auto].
  destruct (Hb' eq_refl) as (e2 & He2 & He2' & Hbv2).
  rewrite He1. apply wp_bind, wp_deref.
  rewrite He2. apply wp_bind, wp_deref.
  apply wp_bind, wp_modify_store, wp_ret. simpl.
  split; [done|]. split; [done|]. right. exists e1, e2.
  split_and!; try done. by exists r, s, x, y.
Qed.

(** [X16] The overlap flagger calls [setOverlap] only on a boundary edge of the
    first polygon and a boundary edge of the second, each the whole chain
    between two crossings of its list; it changes nothing else in the store
    and no record. *)
Theorem setOverlappingFlags_boundary_chains ints w u w' :
  setOverlappingFlags ints w = Normal (u, w') →
  recs w' = recs w ∧
  overlaps_set (recs w) (default [] (int_points1_sorted ints))
    (int_points2 ints) (store w) (store w').
Proof.
  intros Hrun.
  set (l1 := default [] (int_points1_sorted ints)).
  assert (wp True (setOverlappingFlags ints)
    (λ _ w', recs w' = recs w ∧
       overlaps_set (recs w) l1 (int_points2 ints) (store w) (store w')) w)
    as Hwp.
  { unfold setOverlappingFlags. apply wp_bind.
    eapply wp_mono.
    { apply (wp_fold_each _ _ _ _
        (λ _ s w', named l1 s.2 ∧ recs w' = recs w ∧
           overlaps_set (recs w) l1 (int_points2 ints) (store w) (store w'))).
      - split; [done|]. split; [done|]. constructor.
      - intros pre i post s w1 _ (Hs & Hrs & Hov).
        eapply wp_mono; [by apply (wp_overlap_step ints)|].
        intros s' w2 (Hrs' & Hs' & Hst). split; [done|].
        split; [congruence|].
        destruct Hst as [->|(e1 & e2 & -> & Hb1 & Hb2 & Hc1 & Hc2)]; [done|].
        rewrite Hrs in Hc1, Hc2. by constructor. }
    intros s w1 (_ & Hrs & Hov). by apply wp_ret. }
  exact (wp_Normal True _ _ w u w' Hwp Hrun).
Qed.

End Overlaps.

(** ** What the link swapper does to the records *)

Section Filling.
Context `{PolygonStore}.

(** The same crossing with links filled in: the edge before it, when it had
    one, is the one it had, and it has an edge after it when it had one. *)
Definition filled (x y : IntPoint) : Prop :=
  id y = id x ∧ pt y = pt x ∧ arc_length y = arc_length x ∧
  face y = face x ∧ is_vertex y = is_vertex x ∧ faceId y = faceId x ∧
  (is_Some (edge_before x) → edge_before y = edge_before x) ∧
  (is_Some (edge_after x) → is_Some (edge_after y)).

#[local] Instance filled_preorder : PreOrder filled.
Proof.
  split.
  { intros x. unfold filled. split_and!; auto. }
  intros x y z (? & ? & ? & ? & ? & ? & Hb1 & Ha1)
    (? & ? & ? & ? & ? & ? & Hb2 & Ha2).
  unfold filled. split_and!; try congruence.
  - intros Hx. rewrite Hb2, Hb1; [done..|]. by rewrite Hb1.
  - auto.
Qed.

Definition fills (w w' : World) : Prop := Forall2 filled (recs w) (recs w').

#[local] Instance fills_preorder : PreOrder fills.
Proof.
  split.
  - intros w. unfold fills. reflexivity.
  - intros w1 w2 w3. unfold fills. intros ? ?. by etrans.
Qed.

Lemma fills_alter w r f :
  (∀ x, recs w !! r = Some x → filled x (f x)) →
  fills w (mkWorld (alter f r (recs w)) (store w)).
Proof.
  intros Hf. unfold fills. simpl. apply Forall2_same_length_lookup.
  split; [by rewrite length_alter|].
  intros i x y Hx Hy. destruct (decide (i = r)) as [->|Hne].
  - rewrite list_lookup_alter_eq, Hx in Hy. injection Hy as <-. by apply Hf.
  - rewrite list_lookup_alter_ne, Hx in Hy by done. injection Hy as <-.
    reflexivity.
Qed.

Lemma fills_store w st : fills w (mkWorld (recs w) st).
Proof. unfold fills. simpl. reflexivity. Qed.

Lemma wp_needs_swap o w :
  wp True (needs_swap o)
    (λ b w', w' = w ∧
       (b = true → ∃ a xa, o = Some a ∧ recs w !! a = Some xa ∧
          is_Some (edge_before xa) ∧ edge_after xa = None)) w.
Proof.
  unfold needs_swap. apply wp_bind. eapply wp_mono; [apply wp_field_known|].
  intros ? ? (-> & a & xa & -> & Hxa & ->).
  destruct (decide _) as [Hb|Hb].
  - apply wp_bind. eapply wp_mono; [apply wp_field_known|].
    intros ? ? (-> & ? & ? & [= <-] & Hxa' & ->).
    rewrite Hxa in Hxa'. injection Hxa' as <-.
    apply wp_ret. split; [done|]. intros He%bool_decide_eq_true.
    exists a, xa. split_and!; try done.
    by destruct (edge_before xa).
  - apply wp_ret. by split.
Qed.

Lemma wp_offers_continuation o w :
  wp True (offers_continuation o)
    (λ c w', w' = w ∧
       (c = true → ∃ b xb, o = Some b ∧ recs w !! b = Some xb ∧
          edge_before xb = None ∧ is_Some (edge_after xb))) w.
Proof.
  unfold offers_continuation. apply wp_bind.
  eapply wp_mono; [apply wp_field_known|].
  intros ? ? (-> & b & xb & -> & Hxb & ->).
  destruct (decide _) as [Hb|Hb].
  - apply wp_bind. eapply wp_mono; [apply wp_field_known|].
    intros ? ? (-> & ? & ? & [= <-] & Hxb' & ->).
    rewrite Hxb in Hxb'. injection Hxb' as <-.
    apply wp_ret. split; [done|]. intros He%bool_decide_eq_true.
    exists b, xb. split_and!; try done.
    by destruct (edge_after xb).
  - apply wp_ret. by split.
Qed.

(** Connecting a record that has an edge before it to a record that has
    none before it and one after it. *)
Lemma wp_connect a b xa xb w :
  recs w !! a = Some xa → recs w !! b = Some xb →
  is_Some (edge_before xa) →
  edge_before xb = None → is_Some (edge_after xb) →
  wp True (connect a b) (λ _ w', fills w w') w.
Proof.
  intros Hxa Hxb [eb Heb] Hnb [ea Hea].
  assert (a ≠ b) as Hab by (intros ->; congruence).
  unfold connect.
  apply wp_bind, wp_bind. eapply wp_field_Some; [done|].
  rewrite Heb. apply wp_deref.
  apply wp_bind. eapply wp_field_Some; [done|].
  apply wp_bind, wp_modify_store.
  apply wp_bind, wp_bind. eapply wp_field_Some; [done|].
  rewrite Hea. apply wp_deref.
  apply wp_bind. eapply wp_field_Some; [done|].
  apply wp_bind, wp_modify_store.
  apply wp_bind. eapply wp_field_Some; [done|].
  apply wp_bind, wp_upd_rec.
  apply wp_bind. eapply wp_field_Some.
  { simpl. rewrite list_lookup_alter_eq, Hxa. done. }
  apply wp_upd_rec. simpl.
  etrans; [|apply (fills_alter (mkWorld _ _))]. 
  - etrans; [|apply (fills_alter (mkWorld _ _))].
    + unfold fills. simpl. reflexivity.
    + intros x Hx. change (recs w !! a = Some x) in Hx.
      rewrite Hxa in Hx. injection Hx as <-.
      unfold filled. simpl. rewrite Hea. split_and!; done.
  - intros x Hx.
    change (alter (set_edge_after (edge_after xb)) a (recs w) !! b = Some x)
      in Hx.
    rewrite list_lookup_alter_ne, Hxb in Hx by done.
    injection Hx as <-. unfold filled. simpl. split_and!; try done.
    rewrite Hnb. by intros [? ?].
Qed.

Lemma fills_lookup w w' r x :
  fills w w' → recs w !! r = Some x →
  ∃ y, recs w' !! r = Some y ∧ filled x y.
Proof. intros Hf Hx. by eapply Forall2_lookup_l. Qed.

Lemma wp_touching_case sorted r w :
  wp True (touching_case sorted r) (λ _ w', fills w w') w.
Proof.
  unfold touching_case. apply wp_bind.
  eapply wp_mono; [apply wp_needs_swap|]. intros b ? [-> Hb].
  destruct b; [|by apply wp_ret].
  destruct (Hb eq_refl) as (? & xa & [= <-] & Hxa & Hbefore & _).
  apply wp_bind, wp_deref. destruct sorted as [l|]; [|done].
  eapply wp_mono.
  { apply (wp_for_each _ _ _ (λ _ w', fills w w')); [reflexivity|].
    intros pre x post w1 _ Hf.
    destruct (decide _); [by apply wp_ret|].
    apply wp_bind. eapply wp_mono; [apply wp_offers_continuation|].
    intros c ? [-> Hc]. destruct c; [|by apply wp_ret].
    destruct (Hc eq_refl) as (? & xb & [= <-] & Hxb & Hnb & Hafter).
    apply wp_bind. eapply wp_mono; [apply wp_field_known|].
    intros ? ? (-> & _). apply wp_bind. eapply wp_mono; [apply wp_field_known|].
    intros ? ? (-> & _). destruct (equalTo _ _); [|by apply wp_ret].
    destruct (fills_lookup _ _ _ _ Hf Hxa) as (ya & Hya & Hfa).
    eapply wp_mono; [eapply (wp_connect r x ya xb); try done|].
    - destruct Hfa as (_ & _ & _ & _ & _ & _ & Hsame & _).
      by rewrite Hsame.
    - intros ? w2 Hf2. simpl. by etrans. }
  done.
Qed.

Lemma wp_swap_step ints i w :
  wp True (swap_step ints i) (λ _ w', fills w w') w.
Proof.
  unfold swap_step. apply wp_bind, wp_deref.
  destruct (int_points1 ints !! i) as [p1|]; [|done].
  apply wp_bind. eapply wp_mono; [apply wp_needs_swap|]. intros b ? [-> Hb].
  apply wp_bind.
  apply (wp_mono _ _ (λ _ w', fills w w')).
  { destruct b; [|by apply wp_ret].
    destruct (Hb eq_refl) as (? & xa & [= <-] & Hxa & Hbefore & _).
    apply wp_bind. eapply wp_mono; [apply wp_offers_continuation|].
    intros c ? [-> Hc]. destruct c; [|by apply wp_ret].
    destruct (Hc eq_refl) as (p2 & xb & -> & Hxb & Hnb & Hafter).
    apply wp_bind, wp_deref. by eapply wp_connect. }
  intros ? w1 Hf1.
  apply wp_bind. eapply wp_mono; [apply wp_needs_swap|]. intros b' ? [-> Hb'].
  apply wp_bind.
  apply (wp_mono _ _ (λ _ w', fills w w')).
  { destruct b'; [|by apply wp_ret].
    destruct (Hb' eq_refl) as (p2 & xa & -> & Hxa & Hbefore & _).
    apply wp_bind. eapply wp_mono; [apply wp_offers_continuation|].
    intros c ? [-> Hc]. destruct c; [|by apply wp_ret].
    destruct (Hc eq_refl) as (? & xb & [= <-] & Hxb & Hnb & Hafter).
    apply wp_bind, wp_deref.
    eapply wp_mono; [by eapply wp_connect|].
    intros ? w2 Hf2. simpl. by etrans. }
  intros ? w2 Hf2.
  apply wp_bind. eapply wp_mono; [apply wp_touching_case|].
  intros ? w3 Hf3.
  apply wp_bind, wp_deref. destruct (int_points2 ints !! i) as [p2|]; [|done].
  eapply wp_mono; [apply wp_touching_case|].
  intros ? w4 Hf4. simpl.
  exact (transitivity Hf2 (transitivity Hf3 Hf4)).
Qed.

(** [X18] The link swapper only fills links in.  Of a call that returns, every
    record has kept the edge before it when it had one, still has an edge
    after it when it had one, and has changed in no other field; no record
    is made or lost. *)
Theorem swapLinks_fills res_polygon wrk_polygon ints w u w' :
  swapLinks res_polygon wrk_polygon ints w = Normal (u, w') →
  Forall2 filled (recs w) (recs w').
Proof.
  intros Hrun.
  assert (wp True (swapLinks res_polygon wrk_polygon ints)
            (λ _ w', fills w w') w) as Hwp.
  { unfold swapLinks. destruct (decide _); [by apply wp_ret|].
    eapply wp_mono.
    { apply (wp_for_each _ _ _ (λ _ w', fills w w')); [reflexivity|].
      intros pre i post w1 _ Hf.
      eapply wp_mono; [apply wp_swap_step|].
      intros ? w2 Hf2. simpl. by etrans. }
    done. }
  exact (wp_Normal True _ _ w u w' Hwp Hrun).
Qed.

End Filling.

(** ** Runs of the stages on the reference store *)

Module Runs.
Import Rect Exact.

#[local] Existing Instance exact_oracle.
#[local] Existing Instance exact_store.

(** The square [A] and the square [B3] that crosses it. *)
Definition crossing_world : World := mkWorld [] (two B3).

Lemma crossing_world_splits edge1 edge2 p :
  meets (store crossing_world) 0 1 edge1 edge2 p →
  shape_split (e_shape (store crossing_world) edge1) p ≠ [] ∧
  shape_split (e_shape (store crossing_world) edge2) p ≠ [].
Proof.
  apply splits_everywhere_meets. vm_compute. reflexivity.
Qed.

Lemma getIntersections_collected_witness :
  ∃ ints w', getIntersections 0 1 crossing_world = Normal (ints, w') ∧
    collected crossing_world w' ints.
Proof.
  destruct (observe_Some (getIntersections 0 1) crossing_world
              (λ _ _, tt) tt) as (ints & w' & Hrun & _);
    [vm_compute; reflexivity|].
  exists ints, w'. split; [exact Hrun|].
  exact (getIntersections_collected 0 1 crossing_world ints w'
           crossing_world_splits Hrun).
Defined.

Lemma collect_sort_split_filter_paired_witness :
  ∃ ints w',
    collect_sort_split_filter 0 1 crossing_world = Normal (ints, w') ∧
    crossings_paired (recs w') ints.
Proof.
  destruct (observe_Some (collect_sort_split_filter 0 1) crossing_world
              (λ _ _, tt) tt) as (ints & w' & Hrun & _);
    [vm_compute; reflexivity|].
  exists ints, w'. split; [exact Hrun|].
  exact (collect_sort_split_filter_paired 0 1 crossing_world ints w'
           exact_equalTo crossing_world_splits Hrun).
Defined.

Lemma filterDuplicatedIntersections_frame_witness :
  ∃ ints' w',
    filterDuplicatedIntersections corner_crossings corner_world
      = Normal (ints', w') ∧
    store w' = store corner_world ∧
    Forall2 renumbered (recs corner_world) (recs w') ∧
    sublist (int_points1 ints') (int_points1 corner_crossings) ∧
    sublist (int_points2 ints') (int_points2 corner_crossings).
Proof.
  destruct (observe_Some (filterDuplicatedIntersections corner_crossings)
              corner_world (λ _ _, tt) tt) as (ints & w' & Hrun & _);
    [vm_compute; reflexivity|].
  exists ints, w'. split; [exact Hrun|].
  exact (filterDuplicatedIntersections_frame corner_crossings corner_world
           ints w' Hrun).
Defined.

Lemma splitByIntersections_frame_witness :
  ∃ u w', splitByIntersections 0 (Some [0]) ring_world = Normal (u, w') ∧
    length (recs w') = length (recs ring_world) ∧
    Forall2 resplit (recs ring_world) (recs w').
Proof.
  destruct (observe_Some (splitByIntersections 0 (Some [0])) ring_world
              (λ _ _, tt) tt) as (u & w' & Hrun & _);
    [vm_compute; reflexivity|].
  exists u, w'. split; [exact Hrun|].
  exact (splitByIntersections_frame 0 (Some [0]) ring_world u w' Hrun).
Defined.

(** The crossings of [A] and [B3] after the filter, on their clones. *)
Definition until_filter : M (Poly * Poly * Intersections) :=
  res_poly ← call_clone 0;
  wrk_poly ← call_clone 1;
  intersections ← collect_sort_split_filter res_poly wrk_poly;
  mret (res_poly, wrk_poly, intersections).

Lemma filterNotRelevantEdges_unlinks_witness :
  ∃ res_poly wrk_poly ints w1 u w',
    until_filter crossing_world = Normal ((res_poly, wrk_poly, ints), w1) ∧
    filterNotRelevantEdges res_poly wrk_poly ints BOOLEAN_UNION w1
      = Normal (u, w') ∧
    Forall2 unlinked (recs w1) (recs w').
Proof.
  destruct (observe_Some
              (s ← until_filter;
               filterNotRelevantEdges s.1.1 s.1.2 s.2 BOOLEAN_UNION)
              crossing_world (λ _ _, tt) tt) as (u & w' & Hrun & _);
    [vm_compute; reflexivity|].
  apply bind_Normal in Hrun as ([[res wrk] ints] & w1 & H1 & Hrun).
  exists res, wrk, ints, w1, u, w'. split; [exact H1|]. split; [exact Hrun|].
  exact (filterNotRelevantEdges_unlinks res wrk ints BOOLEAN_UNION w1 u w'
           Hrun).
Defined.

Lemma swapLinksAndRestore_frame_witness :
  ∃ res_poly wrk_poly ints w1 w2 u w',
    until_filter crossing_world = Normal ((res_poly, wrk_poly, ints), w1) ∧
    filterNotRelevantEdges res_poly wrk_poly ints BOOLEAN_UNION w1
      = Normal (tt, w2) ∧
    swapLinksAndRestore res_poly wrk_poly ints BOOLEAN_UNION w2
      = Normal (u, w') ∧
    Forall2 restitched (recs w2) (recs w').
Proof.
  destruct (observe_Some
              (s ← until_filter;
               filterNotRelevantEdges s.1.1 s.1.2 s.2 BOOLEAN_UNION;;
               swapLinksAndRestore s.1.1 s.1.2 s.2 BOOLEAN_UNION)
              crossing_world (λ _ _, tt) tt) as (u & w' & Hrun & _);
    [vm_compute; reflexivity|].
  apply bind_Normal in Hrun as ([[res wrk] ints] & w1 & H1 & Hrun).
  apply bind_Normal in Hrun as ([] & w2 & H2 & Hrun).
  exists res, wrk, ints, w1, w2, u, w'.
  split; [exact H1|]. split; [exact H2|]. split; [exact Hrun|].
  exact (swapLinksAndRestore_frame res wrk ints BOOLEAN_UNION w2 u w' Hrun).
Defined.

Lemma corner_records r : r ∈ [0; 1] → is_Some (recs corner_world !! r).
Proof.
  intros Hr. destruct r as [|[|r]]; [by eexists..|]. exfalso. set_solver.
Qed.

Lemma getNotIntersectedFaces_filter_witness :
  getNotIntersectedFaces 0 [0; 1] corner_world =
  Normal (filter (not_crossed (recs corner_world) [0; 1])
            (poly_faces (store corner_world) 0), corner_world).
Proof.
  exact (getNotIntersectedFaces_filter 0 [0; 1] corner_world corner_records).
Defined.

Lemma removeNotRelevantNotIntersectedFaces_rule_witness :
  ∃ u w',
    removeNotRelevantNotIntersectedFaces 0 [0] BOOLEAN_UNION true pull_world
      = Normal (u, w') ∧
    recs w' = recs pull_world ∧
    store w' = foldl (drop_face 0 BOOLEAN_UNION true) (store pull_world) [0].
Proof.
  destruct (observe_Some
              (removeNotRelevantNotIntersectedFaces 0 [0] BOOLEAN_UNION true)
              pull_world (λ _ _, tt) tt) as (u & w' & Hrun & _);
    [vm_compute; reflexivity|].
  exists u, w'. split; [exact Hrun|].
  exact (removeNotRelevantNotIntersectedFaces_rule 0 [0] BOOLEAN_UNION true
           pull_world u w' Hrun).
Defined.

Lemma swapLinks_short_second_list_witness :
  swapLinks 0 1 (mkIntersections [0] [] None None) corner_world = TypeError.
Proof.
  apply (swapLinks_short_second_list 0 1 (mkIntersections [0] [] None None)
           corner_world).
  simpl. lia.
Defined.

Lemma corner_settled r : r ∈ [0; 1] → settled corner_world r.
Proof.
  intros Hr. destruct r as [|[|r]]; [| |exfalso; set_solver].
  - eexists. split; [reflexivity|]. right. right. left. by eexists.
  - eexists. split; [reflexivity|]. right. right. left. by eexists.
Qed.

Lemma restoreFaces_settled_witness :
  restoreFaces 0 [0; 1] [] corner_world = Normal (tt, corner_world).
Proof. exact (restoreFaces_settled 0 [0; 1] [] corner_world corner_settled). Defined.

Lemma removeOldFaces_clears_witness :
  ∃ w', removeOldFaces 0 [0; 1] corner_world = Normal (tt, w') ∧
    ∀ r, recs w' !! r =
         (λ x, if decide (r ∈ [0; 1]) then set_ip_face None x else x)
           <$> recs corner_world !! r.
Proof. exact (removeOldFaces_clears 0 [0; 1] corner_world corner_records). Defined.

Lemma intPointsPullCount_run_witness :
  ∃ k w', intPointsPullCount [0; 1; 2] (Some 0) (Some 0) pull_world
            = Normal (k, w') ∧
    w' = pull_world ∧ 1 ≤ k ∧ (0 < 3 → 0 + k ≤ 3) ∧
    (∀ j nxt, 1 ≤ j < k → [0; 1; 2] !! (0 + j) = Some nxt →
       continues (recs pull_world) (Some 0) ([0; 1; 2] !! 0) nxt) ∧
    (∀ nxt, [0; 1; 2] !! (0 + k) = Some nxt →
       ¬ continues (recs pull_world) (Some 0) ([0; 1; 2] !! 0) nxt).
Proof.
  destruct (observe_Some (intPointsPullCount [0; 1; 2] (Some 0) (Some 0))
              pull_world (λ _ _, tt) tt) as (k & w' & Hrun & _);
    [vm_compute; reflexivity|].
  exists k, w'. split; [exact Hrun|].
  apply (intPointsPullCount_run [0; 1; 2] 0 (Some 0) pull_world k w');
    [simpl; lia | exact Hrun].
Defined.

Lemma calculateIntersections_arrays_witness :
  ∃ ps1 ps2 w',
    calculateIntersections 0 1 crossing_world = Normal ((ps1, ps2), w') ∧
    length ps1 = length ps2 ∧
    ∀ p, p ∈ ps1 → ∃ q, q ∈ ps2 ∧ equalTo p q = true.
Proof.
  destruct (observe_Some (calculateIntersections 0 1) crossing_world
              (λ _ _, tt) tt) as ([ps1 ps2] & w' & Hrun & _);
    [vm_compute; reflexivity|].
  exists ps1, ps2, w'. split; [exact Hrun|].
  apply (calculateIntersections_arrays 0 1 crossing_world ps1 ps2 w');
    [exact exact_equalTo | | exact Hrun].
  intros edge1 edge2 p c1 c2. apply splits_everywhere_meets.
  vm_compute. reflexivity.
Defined.

(** The marks of the store that holds [A] and [B3]: two polygons, two
    faces, eight edges. *)
Definition crossing_marks : region := mkRegion 2 2 8.

Lemma crossing_marked : RectClone.marked crossing_marks (two B3).
Proof.
  split; try (vm_compute; lia);
    intros i x Hi Hx; apply lookup_lt_Some in Hx;
    vm_compute in Hi, Hx; lia.
Qed.

Lemma entry_points_keep_operands_witness :
  ∃ a w', unify 0 1 crossing_world = Normal (a, w') ∧
    RectClone.kept crossing_marks (two B3) (store w').
Proof.
  destruct (observe_Some (unify 0 1) crossing_world (λ _ _, tt) tt)
    as (a & w' & Hrun & _); [vm_compute; reflexivity|].
  exists a, w'. split; [exact Hrun|].
  exact (proj1 (@entry_points_keep_operands exact_oracle exact_store
                  (RectClone.clone_store 0) crossing_marks (two B3) 0 1
                  crossing_marked) a w' Hrun).
Defined.

(** The square [A] and a square away from it. *)
Definition B4 : list point := [(10,10);(10,14);(14,14);(14,10)]%Z.
Definition apart_world : World := mkWorld [] (two B4).

Lemma booleanOpBinary_apart_witness :
  let c1 := clone (store apart_world) 0 in
  let c2 := clone c1.1 1 in
  booleanOpBinary 0 1 BOOLEAN_UNION true apart_world =
  (calcInclusionForNotIntersectedFaces (poly_faces c2.1 c1.2) c2.2;;
   calcInclusionForNotIntersectedFaces (poly_faces c2.1 c2.2) c1.2;;
   removeNotRelevantNotIntersectedFaces c1.2 (poly_faces c2.1 c1.2)
     BOOLEAN_UNION true;;
   removeNotRelevantNotIntersectedFaces c2.2 (poly_faces c2.1 c2.2)
     BOOLEAN_UNION false;;
   copyWrkToRes c1.2 c2.2 BOOLEAN_UNION [];;
   mret (c1.2, c2.2)) (mkWorld (recs apart_world) c2.1).
Proof.
  intros c1 c2.
  apply (booleanOpBinary_apart 0 1 BOOLEAN_UNION true apart_world
           c1.1 c1.2 c2.1 c2.2).
  - apply surjective_pairing.
  - apply surjective_pairing.
  - vm_compute. reflexivity.
Defined.

(** An edge of [A] and an edge of [B3] on the boundary of the other polygon,
    each between a crossing and itself. *)
Definition boundary_edges (st : state) : state :=
  alter_edge (put_bv (Some BOUNDARY))
    (alter_edge (put_bv (Some BOUNDARY)) st 1) 5.
Definition boundary_world : World :=
  mkWorld [crossing 0 (0, 4)%Z 4 (Some 1) (Some 1);
           crossing 0 (2, 6)%Z 4 (Some 5) (Some 5)]
    (boundary_edges (two B3)).
Definition boundary_crossings : Intersections :=
  mkIntersections [0] [1] (Some [0]) (Some [1]).

Lemma setOverlappingFlags_boundary_chains_witness :
  ∃ u w', setOverlappingFlags boundary_crossings boundary_world
            = Normal (u, w') ∧
    recs w' = recs boundary_world ∧
    overlaps_set (recs boundary_world) [0] [1]
      (store boundary_world) (store w').
Proof.
  destruct (observe_Some (setOverlappingFlags boundary_crossings)
              boundary_world (λ _ _, tt) tt) as (u & w' & Hrun & _);
    [vm_compute; reflexivity|].
  exists u, w'. split; [exact Hrun|].
  exact (setOverlappingFlags_boundary_chains boundary_crossings
           boundary_world u w' Hrun).
Defined.

Lemma corner_linked : Forall (both_linked (recs corner_world)) [0; 1].
Proof.
  repeat constructor; eexists; (split; [reflexivity|]); split; by eexists.
Qed.

Lemma ring_not_linked : ¬ Forall (both_linked (recs ring_world)) [0].
Proof.
  intros [(x & Hx & _ & [e He]) _]%Forall_cons.
  injection Hx as <-. discriminate.
Qed.

Lemma inclusion_flags_need_links_witness :
  (∃ w', initializeInclusionFlags [0; 1] corner_world = Normal (tt, w') ∧
         recs w' = recs corner_world) ∧
  calculateInclusionFlags [0] 0 ring_world = TypeError.
Proof.
  split.
  - exact (proj1 (proj1 (inclusion_flags_need_links [0; 1] 0 corner_world)
                    corner_linked)).
  - exact (proj2 (proj2 (inclusion_flags_need_links [0] 0 ring_world)
                    ring_not_linked)).
Defined.

Lemma swapLinks_fills_witness :
  ∃ res_poly wrk_poly ints w1 w2 u w',
    until_filter crossing_world = Normal ((res_poly, wrk_poly, ints), w1) ∧
    filterNotRelevantEdges res_poly wrk_poly ints BOOLEAN_UNION w1
      = Normal (tt, w2) ∧
    swapLinks res_poly wrk_poly ints w2 = Normal (u, w') ∧
    Forall2 filled (recs w2) (recs w').
Proof.
  destruct (observe_Some
              (s ← until_filter;
               filterNotRelevantEdges s.1.1 s.1.2 s.2 BOOLEAN_UNION;;
               swapLinks s.1.1 s.1.2 s.2)
              crossing_world (λ _ _, tt) tt) as (u & w' & Hrun & _);
    [vm_compute; reflexivity|].
  apply bind_Normal in Hrun as ([[res wrk] ints] & w1 & H1 & Hrun).
  apply bind_Normal in Hrun as ([] & w2 & H2 & Hrun).
  exists res, wrk, ints, w1, w2, u, w'.
  split; [exact H1|]. split; [exact H2|]. split; [exact Hrun|].
  exact (swapLinks_fills res wrk ints w2 u w' Hrun).
Defined.

(** The squares [A] and [B2] touch at a corner: the crossing is found twice,
    and the duplicate filter squeezes the lists. *)
Lemma touching_world_splits edge1 edge2 p :
  meets (store touching_world) 0 1 edge1 edge2 p →
  shape_split (e_shape (store touching_world) edge1) p ≠ [] ∧
  shape_split (e_shape (store touching_world) edge2) p ≠ [].
Proof.
  apply splits_everywhere_meets. vm_compute. reflexivity.
Qed.

Lemma filterDuplicatedIntersections_pairing_witness :
  ∃ i1 w1 i2 w2 u3 w3 u4 w4 ints w',
    getIntersections 0 1 touching_world = Normal (i1, w1) ∧
    sortIntersections i1 w1 = Normal (i2, w2) ∧
    splitByIntersections 0 (int_points1_sorted i2) w2 = Normal (u3, w3) ∧
    splitByIntersections 1 (int_points2_sorted i2) w3 = Normal (u4, w4) ∧
    filterDuplicatedIntersections i2 w4 = Normal (ints, w') ∧
    length (int_points1 ints) = length (int_points2 ints) ∧
    ∀ i p q,
      int_points1 ints !! i = Some p → int_points2 ints !! i = Some q →
      ∃ x y, recs w' !! p = Some x ∧ recs w' !! q = Some y ∧
        id x = Z.of_nat i ∧ id y = Z.of_nat i ∧
        equalTo (pt x) (pt y) = true.
Proof.
  destruct (observe_Some
              (intersections ← getIntersections 0 1;
               intersections ← sortIntersections intersections;
               splitByIntersections 0 (int_points1_sorted intersections);;
               splitByIntersections 1 (int_points2_sorted intersections))
              touching_world (λ _ _, tt) tt) as (u4 & w4 & Hrun & _);
    [vm_compute; reflexivity|].
  apply bind_Normal in Hrun as (i1 & w1 & Hget & Hrun).
  apply bind_Normal in Hrun as (i2 & w2 & Hsort & Hrun).
  apply bind_Normal in Hrun as (u3 & w3 & Hsp1 & Hsp2).
  destruct (filterDuplicatedIntersections_pairing 0 1 touching_world
              i1 w1 i2 w2 u3 w3 u4 w4 exact_equalTo touching_world_splits
              Hget Hsort Hsp1 Hsp2) as (ints & w' & Hfilter & Hpaired).
  exists i1, w1, i2, w2, u3, w3, u4, w4, ints, w'.
  split; [exact Hget|]. split; [exact Hsort|]. split; [exact Hsp1|].
  split; [exact Hsp2|]. split; [exact Hfilter|]. exact Hpaired.
Defined.





Lemma entry_points_work_on_clones_witness :
  ∃ a w', subtract 0 1 crossing_world = Normal (a, w') ∧
    RectClone.kept crossing_marks (two B3) (store w') ∧
    fresh_poly crossing_marks a.
Proof.
  destruct (observe_Some (subtract 0 1) crossing_world (λ _ _, tt) tt)
    as (a & w' & Hrun & _); [vm_compute; reflexivity|].
  exists a, w'. split; [exact Hrun|].
  exact (proj1 (proj2 (@entry_points_work_on_clones exact_oracle exact_store
                         (RectClone.clone_store 0) crossing_marks (two B3)
                         0 1 crossing_marked)) a w' Hrun).
Defined.

End Runs.
